(** * workedon: per-repository change statistics

    A shallow embedding of [main.go] (the revision with the tabular report):
    repository discovery, the per-repository log reduction
    ([parseRepoLogs], [parseStat], [uniq], [pullRepo]), the worker loop body
    and the final report ([reportResults], [byChanges]).

    Conventions.
    - Go's [int] is the 64-bit two's-complement integer of the usual
      targets: values are [Z], every [+] of the source is [GoInt.add], which
      writes the wrap-around out.
    - Go's [error] values are the inductive [error]; a Go function that
      returns [(v, err)] returns a pair whose second component is an
      option ([None] is Go's [nil]).
    - [log.Fatal]/[log.Fatalf] end the process: code that may reach them
      returns an [outcome].
    - The two channels are synchronous hand-offs; a channel is modelled by
      the sequence of values sent on it. *)

From Stdlib Require Import ZArith String List Lia Permutation.
From Stdlib Require Import Floats.SpecFloat.
From stdpp Require Import base decidable option list gmap strings pretty sorting.

Local Open Scope string_scope.
Local Open Scope Z_scope.
Local Open Scope list_scope.

(** ** Go integers *)

Module GoInt.

Definition bits : Z := 64.
Definition min_int : Z := - 2 ^ (bits - 1).
Definition max_int : Z := 2 ^ (bits - 1) - 1.

Definition in_range (z : Z) : Prop := min_int <= z <= max_int.

(** Two's-complement reduction of a mathematical integer. *)
Definition wrap (z : Z) : Z := (z - min_int) mod 2 ^ bits + min_int.

(** [a + b] on [int]. *)
Definition add (a b : Z) : Z := wrap (a + b).

(** Sum of a list of [int]s, accumulated left to right as a Go loop
    [for ... { acc += x }] does. *)
Definition sum (acc : Z) (xs : list Z) : Z := foldl add acc xs.

(** The mathematical sum. *)
Definition zsum (xs : list Z) : Z := foldr Z.add 0 xs.

End GoInt.

(** ** Errors *)

(** The error values with which a library call fails.
    [git.ErrRepositoryNotExists] and [git.NoErrAlreadyUpToDate] are the
    sentinels the source compares with; [ErrOther] is any other error value
    (named by its text) and [ErrWrap] an error that wraps another one (it
    has an [Unwrap] method). *)
Inductive error : Type :=
| ErrRepositoryNotExists
| NoErrAlreadyUpToDate
| ErrOther (msg : string)
| ErrWrap (msg : string) (inner : error).

#[global] Instance error_eq_dec : EqDecision error.
Proof. solve_decision. Defined.

(** [errors.Is(err, target)]: [err] or an error in its [Unwrap] chain is
    [target]. *)
Fixpoint errors_Is (err target : error) : bool :=
  if decide (err = target) then true
  else match err with
       | ErrWrap _ inner => errors_Is inner target
       | _ => false
       end.

(** The [Error()] method. *)
Definition Error (e : error) : string :=
  match e with
  | ErrRepositoryNotExists => "repository does not exist"
  | NoErrAlreadyUpToDate => "already up-to-date"
  | ErrOther msg => msg
  | ErrWrap msg _ => msg
  end.

(** The error returned by [parseRepoLogs], by its dynamic type, which is
    what the worker switches on: the program's own [pullError] (a struct
    around the error of [pullRepo], with no [Unwrap]) or an error of a
    library, passed on as it is.  The type is private to the program: no
    library returns it. *)
Inductive parseError : Type :=
| pullError (Err : error)
| otherError (err : error).

(** [pullError]'s [Error()] prints the wrapped error. *)
Definition parseError_Error (e : parseError) : string :=
  match e with
  | pullError Err => Error Err
  | otherError err => Error err
  end.

(** What a piece of code that may call [log.Fatal] does: it goes on with a
    value, or the process exits with a status and one diagnostic line. *)
Inductive outcome (A : Type) : Type :=
| Done (a : A)
| Exit (status : Z) (diagnostic : string).
Arguments Done {A} a.
Arguments Exit {A} status diagnostic.

(** ** [uniq] *)

(** The loop body: [keys] is the [map[string]bool] used as a set, [acc] the
    slice being appended to. *)
Definition uniq_step (st : gmap string bool * list string) (s : string)
  : gmap string bool * list string :=
  let '(keys, acc) := st in
  match keys !! s with
  | Some _ => (keys, acc)
  | None => (<[s := true]> keys, acc ++ [s])
  end.

Definition uniq (ss : list string) : list string :=
  snd (foldl uniq_step (∅, []) ss).

(** ** [parseStat] *)

(** [object.FileStat] of go-git. *)
Record FileStat : Type := mkFileStat {
  Name : string;
  Addition : Z;
  Deletion : Z
}.

(** [parseStat]: the local [count] map, the two additions into the named
    result [nChanges] (zero at entry), and the loop that calls
    [log.Fatalf] when a counter exceeds one. *)
Definition parseStat (stat : FileStat) : outcome (string * Z) :=
  let count : gmap string Z := ∅ in
  let count :=
    match count !! Name stat with
    | Some _ => count
    | None => <[Name stat := GoInt.add (default 0 (count !! Name stat)) 1]> count
    end in
  let file := Name stat in
  let nChanges := GoInt.add 0 (Addition stat) in
  let nChanges := GoInt.add nChanges (Deletion stat) in
  if existsb (fun kv : string * Z => 1 <? kv.2) (map_to_list count)
  then Exit 1 "didn't expect this"
  else Done (file, nChanges).

(** ** The version-control collaborator (go-git) and the environment *)

(** [object.Commit], as far as the program reads it: the author's name, the
    message, the committer time (a count of nanoseconds) that the log
    source compares with the cutoff, and the result of [commit.Stats()]. *)
Record Commit : Type := mkCommit {
  AuthorName : string;
  Message : string;
  When : Z;
  Stats : error + list FileStat
}.

(** What [Worktree.Pull] does to a checkout: it brings a new history in and
    returns [nil], or it leaves the history as it is and returns an error
    ([NoErrAlreadyUpToDate] among them). *)
Inductive PullOutcome : Type :=
| Pulled (fetched : list Commit)
| PullFailed (e : error).

(** The state behind a [*git.Repository]: the local history (newest first),
    and what the calls the program makes on it answer. *)
Record Repository : Type := mkRepository {
  history : list Commit;
  LogErr : option error;
  WorktreeErr : option error;
  PullResult : PullOutcome
}.

(** [repo.Log(&git.LogOptions{Since: &t})]: the commits of the history that
    are not older than [t] (go-git drops a commit when its committer time
    is before [Since]), or the error of the call. *)
Definition within (t : Z) (c : Commit) : bool := negb (When c <? t).

Definition Log (repo : Repository) (t : Z) : error + list Commit :=
  match LogErr repo with
  | Some err => inl err
  | None => inr (filter (fun c => within t c = true) (history repo))
  end.

(** [w.Pull(...)]: explicit state passing, the repository after the call
    and the error. *)
Definition Pull (repo : Repository) : Repository * option error :=
  match PullResult repo with
  | Pulled fetched =>
      (mkRepository fetched (LogErr repo) (WorktreeErr repo) (PullResult repo), None)
  | PullFailed e => (repo, Some e)
  end.

(** The process environment: the program name ([os.Args[0]], the prefix of
    every log line), the clock, the home directory and the key loader. *)
Record Env : Type := mkEnv {
  Args0 : string;
  Now : Z;
  UserHomeDir : error + string;
  NewPublicKeysFromFile : string -> string -> string -> option error
}.

(** The flags. *)
Record Flags : Type := mkFlags {
  author : string;
  dir : string;
  pull : bool;
  since : Z
}.

(** Go ranges over a map in an unspecified order: the order is an oracle,
    constrained to enumerate the entries of the map once each. *)
Record MapOrder : Type := mkMapOrder {
  rangeMap : gmap string Z -> list (string * Z);
  rangeMap_perm : forall m, rangeMap m ≡ₚ map_to_list m
}.

Definition keyOrder : MapOrder := mkMapOrder map_to_list (fun m => reflexivity _).

(** [filepath.Join] of two components, without the normalisation of
    [filepath.Clean] (no fact below depends on the text of a path). *)
Definition Join2 (a b : string) : string := a +:+ "/" +:+ b.

(** ** [pullRepo] *)

Definition pullRepo (env : Env) (repo : Repository) : Repository * option error :=
  match WorktreeErr repo with
  | Some err => (repo, Some err)
  | None =>
    match UserHomeDir env with
    | inl err => (repo, Some err)
    | inr home =>
      let privateKeyFile := Join2 (Join2 home ".ssh") "id_rsa" in
      match NewPublicKeysFromFile env "git" privateKeyFile "" with
      | Some err => (repo, Some err)
      | None =>
        let '(repo, err) := Pull repo in
        match err with
        | Some e =>
            if negb (errors_Is e NoErrAlreadyUpToDate) then (repo, Some e)
            else (repo, None)
        | None => (repo, None)
        end
      end
    end
  end.

(** ** [parseRepoLogs] *)

Module file.
Record t : Type := mk {
  path : string;
  changes : Z;
  authors : list string
}.
End file.

#[global] Instance outcome_bind : MBind outcome :=
  fun A B k o => match o with Done a => k a | Exit s d => Exit s d end.

(** [strings.Split(s, "\n")]: the pieces of [s] between line feeds; never
    empty. *)
Definition LF : Ascii.ascii := Ascii.ascii_of_nat 10.

Fixpoint Split_LF (s : string) : list string :=
  match s with
  | EmptyString => [""]
  | String c rest =>
      if Ascii.eqb c LF then "" :: Split_LF rest
      else match Split_LF rest with
           | [] => [String c ""]
           | l :: ls => String c l :: ls
           end
  end.

(** The three maps the closure passed to [ForEach] updates. *)
Record Maps : Type := mkMaps {
  changesPerFile : gmap string Z;
  authorsPerFile : gmap string (list string);
  msgsPerFile : gmap string (list string)
}.

(** Body of [for _, stat := range stats]. *)
Definition eachStat (commit : Commit) (m : Maps) (stat : FileStat) : outcome Maps :=
  '(file, nChanges) ← parseStat stat;
  let cpf :=
    if bool_decide (file ≠ "")
    then <[file := GoInt.add (default 0 (changesPerFile m !! file)) nChanges]> (changesPerFile m)
    else changesPerFile m in
  let apf :=
    <[file := default [] (authorsPerFile m !! file) ++ [AuthorName commit]]> (authorsPerFile m) in
  let lines := Split_LF (Message commit) in
  let mpf :=
    <[file := default [] (msgsPerFile m !! file) ++ [default "" (head lines)]]> (msgsPerFile m) in
  Done (mkMaps cpf apf mpf).

Fixpoint rangeStats (commit : Commit) (m : Maps) (stats : list FileStat) : outcome Maps :=
  match stats with
  | [] => Done m
  | stat :: rest => m' ← eachStat commit m stat; rangeStats commit m' rest
  end.

(** The closure passed to [cIter.ForEach]: the maps after the call and the
    error it returns. *)
Definition eachCommit (author : string) (m : Maps) (commit : Commit)
  : outcome (Maps * option error) :=
  if bool_decide (author ≠ "") && bool_decide (AuthorName commit ≠ author)
  then Done (m, None)
  else match Stats commit with
       | inl err => Done (m, Some err)
       | inr stats => m' ← rangeStats commit m stats; Done (m', None)
       end.

(** [cIter.ForEach]: the callback on each commit in turn, until one returns
    an error, which is then the result. *)
Fixpoint ForEach (cb : Maps -> Commit -> outcome (Maps * option error))
    (commits : list Commit) (m : Maps) : outcome (Maps * option error) :=
  match commits with
  | [] => Done (m, None)
  | commit :: rest =>
      '(m', err) ← cb m commit;
      match err with
      | Some e => Done (m', Some e)
      | None => ForEach cb rest m'
      end
  end.

Definition parseRepoLogs (ord : MapOrder) (env : Env) (repo : Repository)
    (pull : bool) (author : string) (since : Z)
  : outcome (list file.t * option parseError) :=
  let '(repo, perr) := if pull then pullRepo env repo else (repo, None) in
  match perr with
  | Some err => Done ([], Some (pullError err))
  | None =>
    let t := Now env - since in
    match Log repo t with
    | inl err => Done ([], Some (otherError err))
    | inr cIter =>
      '(m, err) ← ForEach (eachCommit author) cIter (mkMaps ∅ ∅ ∅);
      match err with
      | Some e => Done ([], Some (otherError e))
      | None =>
        Done (map (fun '(f, c) =>
                     file.mk f c (uniq (default [] (authorsPerFile m !! f))))
                  (rangeMap ord (changesPerFile m)), None)
      end
    end
  end.

(** ** The worker *)

Module directory.
Record t : Type := mk {
  path : string;
  changes : Z;
  authors : list string;
  repo : Repository;
  files : list file.t
}.
End directory.

(** A line written by the [log] package: the prefix set in [main], then the
    message. *)
Definition logLine (env : Env) (msg : string) : string :=
  Args0 env +:+ ": " +:+ msg.

(** [for _, f := range files { dir.changes += f.changes; dir.authors =
    append(dir.authors, f.authors...) }] *)
Definition addFile (acc : Z * list string) (f : file.t) : Z * list string :=
  (GoInt.add acc.1 (file.changes f), acc.2 ++ file.authors f).

(** Body of [for dir := range in] in a worker goroutine: the lines logged,
    and the value sent on [out] unless the process exits. *)
Definition worker (ord : MapOrder) (env : Env) (fl : Flags) (dir : directory.t)
  : list string * outcome directory.t :=
  match parseRepoLogs ord env (directory.repo dir) (pull fl) (author fl) (since fl) with
  | Exit s d => ([], Exit s d)
  | Done (files, err) =>
      let send (logged : list string) :=
        let '(changes, authors) :=
          foldl addFile (directory.changes dir, directory.authors dir) files in
        (logged,
         Done (directory.mk (directory.path dir) changes authors
                 (directory.repo dir) files)) in
      match err with
      | Some (pullError _ as e) =>
          send [logLine env ("while pulling repo " +:+ directory.path dir
                               +:+ ": " +:+ parseError_Error e)]
      | Some e =>
          ([], Exit 1 (logLine env ("while parsing repo " +:+ directory.path dir
                                      +:+ ": " +:+ parseError_Error e)))
      | None => send []
      end
  end.

(** The pool, one unit after the other in the order the units are taken
    from [in]: the lines logged and the values sent on [out], until a
    worker exits the process. *)
Fixpoint workers (ord : MapOrder) (env : Env) (fl : Flags) (units : list directory.t)
  : list string * outcome (list directory.t) :=
  match units with
  | [] => ([], Done [])
  | dir :: rest =>
      match worker ord env fl dir with
      | (logged, Exit s d) => (logged, Exit s d)
      | (logged, Done sent) =>
          match workers ord env fl rest with
          | (logged', Exit s d) => (logged ++ logged', Exit s d)
          | (logged', Done out) => (logged ++ logged', Done (sent :: out))
          end
      end
  end.

(** ** Discovery *)

(** The directory tree under the root: a file, or a directory with what
    [git.PlainOpen] answers on it and what [os.ReadDir] returns for it (the
    entries read, in name order, and the error). *)
#[local] Unset Elimination Schemes.
Inductive Entry : Type :=
| File (name : string)
| Dir (name : string) (open : error + Repository)
      (entries : list Entry) (readErr : option error).
#[local] Set Elimination Schemes.

Definition entryName (d : Entry) : string :=
  match d with File name => name | Dir name _ _ _ => name end.

Definition IsDir (d : Entry) : bool :=
  match d with File _ => false | Dir _ _ _ _ => true end.

(** What a [fs.WalkDirFunc] returns when it does not return [nil]: the
    sentinel [filepath.SkipDir], which no library call fails with, or an
    error. *)
Inductive walkErr : Type :=
| SkipDir
| Failed (e : error).

(** The closure [visit] of the discovery goroutine.  Its state is the
    sequence of values sent on [in]. *)
Definition visit (path : string) (d : option Entry) (err : option error)
    (sent : list directory.t) : list directory.t * option walkErr :=
  match err with
  | Some e => (sent, Some (Failed e))
  | None =>
    match d with
    | Some (Dir _ open _ _) =>
        match open with
        | inl e =>
            if errors_Is e ErrRepositoryNotExists then (sent, None)
            else (sent, Some (Failed e))
        | inr repo =>
            (sent ++ [directory.mk path 0 [] repo []], Some SkipDir)
        end
    | _ => (sent, None)
    end
  end.

(** [filepath.WalkDir] of the Go library, for any callback [fn] with a
    state: [walkDir] calls [fn] on the entry, then on a directory reads the
    entries and walks them in order; [SkipDir] from a directory skips its
    entries, [SkipDir] from a file skips the rest of its directory. *)
Section WalkDir.
Context {S : Type}.
Variable fn : string -> option Entry -> option error -> S -> S * option walkErr.

Fixpoint walkDir (path : string) (d : Entry) (s : S) : S * option walkErr :=
  let '(s, err) := fn path (Some d) None s in
  match d with
  | File _ => (s, err)
  | Dir _ _ dirs readErr =>
    match err with
    | Some SkipDir => (s, None)
    | Some (Failed e) => (s, Some (Failed e))
    | None =>
      let '(s, err) :=
        match readErr with
        | Some re => fn path (Some d) (Some re) s
        | None => (s, None)
        end in
      match err with
      | Some SkipDir => (s, None)
      | Some (Failed e) => (s, Some (Failed e))
      | None =>
        (fix loop (dirs : list Entry) (s : S) : S * option walkErr :=
           match dirs with
           | [] => (s, None)
           | d1 :: rest =>
               let '(s, err) := walkDir (Join2 path (entryName d1)) d1 s in
               match err with
               | Some SkipDir => (s, None)
               | Some (Failed e) => (s, Some (Failed e))
               | None => loop rest s
               end
           end) dirs s
      end
    end
  end.

(** [root] is the argument, [lstat] what [os.Lstat(root)] answers. *)
Definition WalkDir (root : string) (lstat : error + Entry) (s : S)
  : S * option error :=
  let '(s, err) :=
    match lstat with
    | inl e => fn root None (Some e) s
    | inr d => walkDir root d s
    end in
  match err with
  | Some SkipDir => (s, None)
  | Some (Failed e) => (s, Some e)
  | None => (s, None)
  end.
End WalkDir.

(** The discovery goroutine: the values sent on [in], unless the walk fails
    and [log.Fatal] ends the process. *)
Definition discover (env : Env) (fl : Flags) (lstat : error + Entry)
  : outcome (list directory.t) :=
  match WalkDir visit (dir fl) lstat [] with
  | (sent, None) => Done sent
  | (_, Some err) => Exit 1 (logLine env (Error err))
  end.

(** ** [sort.Sort] and [byChanges] *)

(** [sort.Sort] promises a sorted permutation and no stability.  On a short
    slice (up to six elements in every release of the Go library, up to
    twelve since Go 1.19) it runs [insertionSort] alone, which is the
    routine written here, on the data as a list and the two index
    operations of [sort.Interface].  The facts proved of [reportResults]
    below use that the result is a sorted permutation, which holds of
    [sort.Sort] on slices of any length. *)
Section Sort.
Context {A : Type}.
(** [Less] on the elements at two indices. *)
Variable Less : A -> A -> bool.

Definition LessAt (x : list A) (i j : nat) : bool :=
  match x !! i, x !! j with
  | Some a, Some b => Less a b
  | _, _ => false
  end.

Definition Swap (x : list A) (i j : nat) : list A :=
  match x !! i, x !! j with
  | Some a, Some b => <[i := b]> (<[j := a]> x)
  | _, _ => x
  end.

(** [for j := i; j > 0 && data.Less(j, j-1); j-- { data.Swap(j, j-1) }] *)
Fixpoint sink (x : list A) (j : nat) : list A :=
  match j with
  | O => x
  | S j' => if LessAt x j j' then sink (Swap x j j') j' else x
  end.

(** [for i := 1; i < n; i++ { ... }] *)
Definition insertionSort (x : list A) : list A :=
  foldl sink x (seq 1 (length x - 1)).
End Sort.

(** [byChanges.Less] and [sort.Reverse]. *)
Definition byChanges_Less (a b : directory.t) : bool :=
  directory.changes a <? directory.changes b.

Definition Reverse {A : Type} (Less : A -> A -> bool) : A -> A -> bool :=
  fun a b => Less b a.

(** ** The percentage *)

Module F64.
Definition prec : Z := 53.
Definition emax : Z := 1024.

(** [float64(n)] for an [int]. *)
Definition of_int (n : Z) : spec_float := binary_normalize prec emax n 0 false.
Definition div : spec_float -> spec_float -> spec_float := SFdiv prec emax.
Definition mul : spec_float -> spec_float -> spec_float := SFmul prec emax.

(** What the verb [%.0f] shows: the integer nearest to the value (the
    even one at a tie) with the sign, or one of the three words. *)
Inductive shown : Type :=
| ShNaN
| ShInf (neg : bool)
| ShInt (neg : bool) (magnitude : Z).

(** Nearest integer to [m * 2^e], ties to even, for [m >= 0]. *)
Definition nearest_even (m e : Z) : Z :=
  if 0 <=? e then m * 2 ^ e
  else
    let d := 2 ^ (- e) in
    let q := m / d in
    let r := m mod d in
    match 2 * r ?= d with
    | Lt => q
    | Gt => q + 1
    | Eq => if Z.even q then q else q + 1
    end.

Definition round0 (x : spec_float) : shown :=
  match x with
  | S754_nan => ShNaN
  | S754_infinity s => ShInf s
  | S754_zero s => ShInt s 0
  | S754_finite s m e => ShInt s (nearest_even (Z.pos m) e)
  end.

(** The text of [%2.0f]: at least two columns, padded on the left. *)
Definition pad2 (s : string) : string :=
  if (String.length s <? 2)%nat then " " +:+ s else s.

Definition format_2_0f (x : spec_float) : string :=
  match round0 x with
  | ShNaN => "NaN"
  | ShInf neg => if neg then "-Inf" else "+Inf"
  | ShInt neg n => pad2 ((if neg then "-" else "") +:+ pretty n)
  end.
End F64.

(** [float64(dir.changes)/float64(totalChanges)*100] *)
Definition percentage (changes totalChanges : Z) : spec_float :=
  F64.mul (F64.div (F64.of_int changes) (F64.of_int totalChanges)) (F64.of_int 100).

(** ** [reportResults] *)

(** A line of the table: the three cells handed to the tab writer. *)
Record Row : Type := mkRow {
  DIRECTORY : string;
  CHANGES : string;
  AUTHORS : string
}.

(** [strings.Join(elems, sep)] *)
Fixpoint strings_Join (elems : list string) (sep : string) : string :=
  match elems with
  | [] => ""
  | [e] => e
  | e :: rest => e +:+ sep +:+ strings_Join rest sep
  end.

(** Body of [for dir := range out]: the running total and the slice of
    directories kept. *)
Definition collect (acc : Z * list directory.t) (dir : directory.t)
  : Z * list directory.t :=
  if (length (directory.files dir) =? 0)%nat then acc
  else (GoInt.add acc.1 (directory.changes dir), acc.2 ++ [dir]).

Definition totalChanges (out : list directory.t) : Z := (foldl collect (0, []) out).1.
Definition directories (out : list directory.t) : list directory.t :=
  (foldl collect (0, []) out).2.

(** The directories in the order of the table. *)
Definition ranked (out : list directory.t) : list directory.t :=
  insertionSort (Reverse byChanges_Less) (directories out).

(** [fmt.Sprintf("%2.0f%% (%d)", ...)] *)
Definition changesCell (changes total : Z) : string :=
  F64.format_2_0f (percentage changes total) +:+ "% (" +:+ pretty changes +:+ ")".

Definition row (total : Z) (dir : directory.t) : Row :=
  mkRow (directory.path dir)
        (changesCell (directory.changes dir) total)
        (strings_Join (uniq (directory.authors dir)) ", ").

Definition header : Row := mkRow "DIRECTORY" "CHANGES" "AUTHORS".

(** [out] is the sequence of values received from the channel, in the order
    of their arrival; the result is the table that is flushed. *)
Definition reportResults (out : list directory.t) : list Row :=
  header :: map (row (totalChanges out)) (ranked out).

(** ** [main] *)

(** What a run leaves behind: the lines logged, and the table, or the exit
    status and the diagnostic.  The ten workers take the units and hand
    their results over in an order that the scheduler decides: [arrival]
    is that order. *)
Definition main (ord : MapOrder) (env : Env) (fl : Flags) (lstat : error + Entry)
    (arrival : list directory.t -> list directory.t)
  : list string * outcome (list Row) :=
  match discover env fl lstat with
  | Exit s d => ([], Exit s d)
  | Done units =>
      match workers ord env fl (arrival units) with
      | (logged, Exit s d) => (logged, Exit s d)
      | (logged, Done out) => (logged, Done (reportResults out))
      end
  end.


(** * The first revision *)

(** [main.go] holds the program twice: the revision above, which prints a
    table at the end, and a first one, which keeps the first lines of the
    commit messages and prints each directory as its result arrives.  The
    two share [pullRepo], [uniq], [parseStat], the closure passed to
    [ForEach] and the discovery; what differs is below, under the names of
    the source. *)
Module Rev1.

Module file.
Record t : Type := mk {
  path : string;
  changes : Z;
  authors : list string;
  messages : list string
}.
End file.

Module directory.
Record t : Type := mk {
  path : string;
  repo : Repository;
  files : list file.t
}.
End directory.

Record Flags : Type := mkFlags {
  author : string;
  dir : string;
  files : bool;
  msgs : bool;
  pull : bool;
  since : Z
}.

Definition parseRepoLogs (ord : MapOrder) (env : Env) (repo : Repository)
    (pull : bool) (author : string) (since : Z)
  : outcome (list file.t * option parseError) :=
  let '(repo, perr) := if pull then pullRepo env repo else (repo, None) in
  match perr with
  | Some err => Done ([], Some (pullError err))
  | None =>
    let t := Now env - since in
    match Log repo t with
    | inl err => Done ([], Some (otherError err))
    | inr cIter =>
      '(m, err) ← ForEach (eachCommit author) cIter (mkMaps ∅ ∅ ∅);
      match err with
      | Some e => Done ([], Some (otherError e))
      | None =>
        Done (map (fun '(f, c) =>
                     file.mk f c (uniq (default [] (authorsPerFile m !! f)))
                             (uniq (default [] (msgsPerFile m !! f))))
                  (rangeMap ord (changesPerFile m)), None)
      end
    end
  end.

(** Body of [for dir := range in] in a worker goroutine. *)
Definition worker (ord : MapOrder) (env : Env) (fl : Flags) (dir : directory.t)
  : list string * outcome directory.t :=
  match parseRepoLogs ord env (directory.repo dir) (pull fl) (author fl) (since fl) with
  | Exit s d => ([], Exit s d)
  | Done (files, err) =>
      let send (logged : list string) :=
        (logged, Done (directory.mk (directory.path dir) (directory.repo dir) files)) in
      match err with
      | Some (pullError _ as e) =>
          send [logLine env ("while pulling repo " +:+ directory.path dir
                               +:+ ": " +:+ parseError_Error e)]
      | Some e =>
          ([], Exit 1 (logLine env ("while parsing repo " +:+ directory.path dir
                                      +:+ ": " +:+ parseError_Error e)))
      | None => send []
      end
  end.

(** [byCount.Less] *)
Definition byCount_Less (a b : file.t) : bool := file.changes a <? file.changes b.

(** [for _, f := range dir.files { changes += f.changes; authors =
    append(authors, f.authors...) }] *)
Definition addFile (acc : Z * list string) (f : file.t) : Z * list string :=
  (GoInt.add acc.1 (file.changes f), acc.2 ++ file.authors f).

(** The text of one call of [fmt.Printf]: each ends a line. *)
Definition dirLine (path : string) (changes : Z) (authors : list string) : string :=
  path +:+ ": " +:+ pretty changes +:+ " (" +:+ strings_Join (uniq authors) ", "
       +:+ ")" +:+ String LF "".

Definition fileLine (f : file.t) : string :=
  "  " +:+ file.path f +:+ ": " +:+ pretty (file.changes f) +:+ " ("
       +:+ strings_Join (file.authors f) ", " +:+ ")" +:+ String LF "".

Definition msgLine (m : string) : string := "    " +:+ m +:+ String LF "".

(** What is written for a file under [-files]. *)
Definition fileBlock (fl : Flags) (f : file.t) : list string :=
  fileLine f :: (if msgs fl then map msgLine (file.messages f) else []).

(** [reportResults(dir)]: the texts written to the standard output, in
    order. *)
Definition reportResults (fl : Flags) (dir : directory.t) : list string :=
  if (length (directory.files dir) =? 0)%nat then []
  else
    let '(changes, authors) := foldl addFile (0, []) (directory.files dir) in
    dirLine (directory.path dir) changes authors
    :: (if files fl
        then concat (map (fileBlock fl)
                       (insertionSort (Reverse byCount_Less) (directory.files dir)))
        else []).

(** [for dir := range out { reportResults(dir) }] *)
Definition report (fl : Flags) (out : list directory.t) : list string :=
  concat (map (reportResults fl) out).

End Rev1.

(** * The goroutines *)

(** [main] starts the discovery goroutine, ten workers, and a goroutine that
    closes [out] once the discovery and the workers have returned; it then
    reads [out] until it is closed and prints the table.  Both channels are
    unbuffered, so a send and its receive are one step.  [log.Fatal] in the
    discovery and [log.Fatalf] in a worker end the process wherever the
    other goroutines stand.  The functions [workers] and [main] above take
    the units one after the other, after the walk, each finished before
    the next is taken: the steps below are the runs of every
    interleaving. *)
Module Pool.

(** Where a worker stands in the body of [for dir := range in]. *)
Inductive slot : Type :=
| Idle
| Busy (dir : directory.t)
| Ready (dir : directory.t).

(** [Idle]: at [range in].  [Busy dir]: [dir] received, [parseRepoLogs] not
    yet returned.  [Ready dir]: the warning logged if there is one, the
    totals added up, at [out <- dir]. *)

(** The values that the discovery has still to send on [in], the workers,
    the lines logged so far, and the values received from [out] by
    [reportResults]. *)
Record state : Type := mk {
  todo : list directory.t;
  slots : list slot;
  logged : list string;
  received : list directory.t
}.

Section Steps.
Variables (ord : MapOrder) (env : Env) (fl : Flags).

Inductive step : state -> state -> Prop :=
| take dir rest pre post lg out :
    step (mk (dir :: rest) (pre ++ Idle :: post) lg out)
         (mk rest (pre ++ Busy dir :: post) lg out)
| parse dir lines dir' rest pre post lg out :
    worker ord env fl dir = (lines, Done dir') ->
    step (mk rest (pre ++ Busy dir :: post) lg out)
         (mk rest (pre ++ Ready dir' :: post) (lg ++ lines) out)
| send dir rest pre post lg out :
    step (mk rest (pre ++ Ready dir :: post) lg out)
         (mk rest (pre ++ Idle :: post) lg (out ++ [dir])).

(** How a run ends, [walkErr] being what [filepath.WalkDir] returns: with
    the table, when [in] is closed and every worker has returned; in
    [log.Fatal], when the walk has failed, which it does after its last
    send was received; in [log.Fatalf] of a worker. *)
Inductive ends (walkErr : option error)
  : state -> list string * outcome (list Row) -> Prop :=
| report workers lg out :
    walkErr = None ->
    Forall (fun w => w = Idle) workers ->
    ends walkErr (mk [] workers lg out) (lg, Done (reportResults out))
| walkFatal err workers lg out :
    walkErr = Some err ->
    ends walkErr (mk [] workers lg out) (lg, Exit 1 (logLine env (Error err)))
| workerFatal dir lines status diagnostic rest pre post lg out :
    worker ord env fl dir = (lines, Exit status diagnostic) ->
    ends walkErr (mk rest (pre ++ Busy dir :: post) lg out)
         (lg ++ lines, Exit status diagnostic).
End Steps.

(** [for i := 0; i < 10; i++ { go func() { ... }() }] *)
Definition initial (sent : list directory.t) : state :=
  mk sent (replicate 10 Idle) [] [].

End Pool.

(** What a run of the program can leave behind: the lines logged, and the
    table or the exit. *)
Definition Run (ord : MapOrder) (env : Env) (fl : Flags) (lstat : error + Entry)
    (r : list string * outcome (list Row)) : Prop :=
  exists st,
    rtc (Pool.step ord env fl) (Pool.initial (WalkDir visit (dir fl) lstat []).1) st
    /\ Pool.ends ord env fl (WalkDir visit (dir fl) lstat []).2 st r.
(** * Vocabulary of the statements *)

(** Position of the first occurrence of [x] in [l]; the length of [l] when
    there is none. *)
Fixpoint index_of (x : string) (l : list string) : nat :=
  match l with
  | [] => O
  | y :: l' => if decide (x = y) then O else S (index_of x l')
  end.


(** The repository that [parseRepoLogs] reads the history of, and the error
    of the synchronisation: [pullRepo] runs only under the flag. *)
Definition afterPull (env : Env) (pull : bool) (repo : Repository)
  : Repository * option error :=
  if pull then pullRepo env repo else (repo, None).

(** A commit passes the author filter: there is none, or the name is the
    one asked for. *)
Definition passes (author : string) (c : Commit) : bool :=
  bool_decide (author = "") || bool_decide (AuthorName c = author).

(** The commits that count: inside the window that starts at [cutoff], and
    passing the author filter. *)
Definition qualifies (cutoff : Z) (author : string) (c : Commit) : bool :=
  within cutoff c && passes author c.

(** The statistics of a commit (none when they cannot be retrieved). *)
Definition statsOf (c : Commit) : list FileStat :=
  match Stats c with inr stats => stats | inl _ => [] end.

(** The statistics entries of a list of commits that name the file [f]. *)
Definition touching (f : string) (commits : list Commit) : list FileStat :=
  filter (fun s => Name s = f) (concat (map statsOf commits)).

(** The lines added plus the lines deleted of each entry. *)
Definition amounts (entries : list FileStat) : list Z :=
  map (fun s => Addition s + Deletion s) entries.

(** The sum the change count of [f] is meant to be: over the qualifying
    commits of [commits], over their entries for [f]. *)
Definition changeSum (cutoff : Z) (author f : string) (commits : list Commit) : Z :=
  GoInt.zsum (amounts (touching f (filter (fun c => qualifies cutoff author c = true) commits))).

(** Auxiliary notions of the proofs about [parseRepoLogs]: the change count
    that a list of processed entries leaves for [f], the invariant of the
    loops, and the commits that pass the author filter. *)
Definition countOf (f : string) (L : list FileStat) : option Z :=
  match filter (fun s => Name s = f) L with
  | [] => None
  | es => if decide (f = "") then None else Some (GoInt.wrap (GoInt.zsum (amounts es)))
  end.

Definition counted (L : list FileStat) (m : Maps) : Prop :=
  forall f, changesPerFile m !! f = countOf f L.

Definition passing (author : string) (commits : list Commit) : list Commit :=
  filter (fun c => passes author c = true) commits.

(** The value a worker sends for [dir] when [parseRepoLogs] returned
    [files]. *)
Definition sentFor (dir : directory.t) (files : list file.t) : directory.t :=
  directory.mk (directory.path dir)
    (foldl addFile (directory.changes dir, directory.authors dir) files).1
    (foldl addFile (directory.changes dir, directory.authors dir) files).2
    (directory.repo dir) files.

(** The test of [reportResults]: the value has files. *)
Definition kept (dir : directory.t) : bool :=
  negb (length (directory.files dir) =? 0)%nat.

(** The loop of [walkDir] over the entries of a directory. *)
Definition walkEntries {S : Type}
    (fn : string -> option Entry -> option error -> S -> S * option walkErr)
    (path : string) : list Entry -> S -> S * option walkErr :=
  fix loop (dirs : list Entry) (s : S) : S * option walkErr :=
    match dirs with
    | [] => (s, None)
    | d1 :: rest =>
        let '(s, err) := walkDir fn (Join2 path (entryName d1)) d1 s in
        match err with
        | Some SkipDir => (s, None)
        | Some (Failed e) => (s, Some (Failed e))
        | None => loop rest s
        end
    end.

(** The value sent for a repository root. *)
Definition unit (path : string) (repo : Repository) : directory.t :=
  directory.mk path 0 [] repo [].

(** [RootAt path d above p r]: in the tree [d], found at [path], there is a
    directory that opens as the repository [r]; its path is [p] and the
    directories above it inside [d] are [above], from [d] downwards. *)
Inductive RootAt : string -> Entry -> list Entry -> string -> Repository -> Prop :=
| RootHere path name repo entries readErr :
    RootAt path (Dir name (inr repo) entries readErr) [] path repo
| RootBelow path name open entries readErr d1 above p r :
    d1 ∈ entries ->
    RootAt (Join2 path (entryName d1)) d1 above p r ->
    RootAt path (Dir name open entries readErr)
           (Dir name open entries readErr :: above) p r.

(** A directory that is not a repository root. *)
Definition notRoot (d : Entry) : Prop :=
  match d with
  | Dir _ (inl _) _ _ => True
  | _ => False
  end.

(** The tree without what lies inside its repository roots. *)
Fixpoint prune (d : Entry) : Entry :=
  match d with
  | File name => File name
  | Dir name (inr repo) _ _ => Dir name (inr repo) [] None
  | Dir name (inl e) entries readErr => Dir name (inl e) (map prune entries) readErr
  end.

(** The walk meets no failure: every directory it opens is a repository
    root, or is not one (the error is [ErrRepositoryNotExists]) and can be
    read, with entries of the same kind. *)
Fixpoint walkable (d : Entry) : bool :=
  match d with
  | File _ => true
  | Dir _ (inr _) _ _ => true
  | Dir _ (inl e) entries readErr =>
      errors_Is e ErrRepositoryNotExists
      && bool_decide (readErr = None)
      && forallb walkable entries
  end.

(** The outermost repository roots of a tree, in the order of the walk. *)
Fixpoint roots (path : string) (d : Entry) : list directory.t :=
  match d with
  | File _ => []
  | Dir _ (inr repo) _ _ => [unit path repo]
  | Dir _ (inl _) entries _ =>
      concat (map (fun d1 => roots (Join2 path (entryName d1)) d1) entries)
  end.

(** ** Scenarios *)

Module Scenario.
(** A clock at 1000 and a window of 100: the cutoff is 900. *)
Definition env : Env := mkEnv "workedon" 1000 (inr "/home/u") (fun _ _ _ => None).
Definition flags (pull : bool) : Flags := mkFlags "" "/work" pull 100.

Definition c1 : Commit := mkCommit "alice" "one" 990 (inr [mkFileStat "x.txt" 10 2]).
Definition c2 : Commit :=
  mkCommit "alice" "two" 995 (inr [mkFileStat "x.txt" 1 1; mkFileStat "y.txt" 1 1]).
Definition c3 : Commit := mkCommit "bob" "old" 10 (inr [mkFileStat "x.txt" 5 5]).

(** A repository that synchronises. *)
Definition repoA : Repository := mkRepository [c2; c1; c3] None None (Pulled [c2; c1; c3]).
(** A repository with local history whose synchronisation fails. *)
Definition repoB : Repository :=
  mkRepository [c1; c3] None None (PullFailed (ErrOther "network unreachable")).
(** A repository that is up to date. *)
Definition repoU : Repository :=
  mkRepository [c2; c1; c3] None None (PullFailed NoErrAlreadyUpToDate).
(** A repository whose history cannot be read. *)
Definition repoL : Repository :=
  mkRepository [] (Some (ErrOther "reference not found")) None (Pulled []).
(** A repository with a commit whose statistics cannot be computed. *)
Definition repoS : Repository :=
  mkRepository [c2; mkCommit "alice" "bad" 991 (inl (ErrOther "object not found")); c1]
               None None (Pulled []).

(** A repository whose one commit inside the window is a pure rename: the
    entry has a path and no line added or deleted. *)
Definition repoR : Repository :=
  mkRepository [mkCommit "carol" "rename" 999 (inr [mkFileStat "old.txt => new.txt" 0 0])]
               None None (Pulled []).

Definition treeB : Entry :=
  Dir "work" (inl ErrRepositoryNotExists) [Dir "B" (inr repoB) [] None] None.
Definition treeAR : Entry :=
  Dir "work" (inl ErrRepositoryNotExists)
      [Dir "A" (inr repoA) [] None; Dir "R" (inr repoR) [] None] None.
Definition treeR : Entry :=
  Dir "work" (inl ErrRepositoryNotExists) [Dir "R" (inr repoR) [] None] None.

(** Two results with the same total. *)
Definition resultA : directory.t :=
  directory.mk "/work/A" 14 ["alice"] repoA [file.mk "x.txt" 14 ["alice"]].
Definition resultB : directory.t :=
  directory.mk "/work/B" 14 ["bob"] repoB [file.mk "y.txt" 14 ["bob"]].
Definition resultC : directory.t :=
  directory.mk "/work/C" 2 ["carol"] repoR [file.mk "z.txt" 2 ["carol"]].
End Scenario.

(** ** Insertion, as a function *)

(** What the inner loop of [insertionSort] does to the element [v] that
    follows a prefix: [before] is the prefix from right to left, the result
    the prefix with [v] in its place, from right to left. *)
Fixpoint settle {A : Type} (Less : A -> A -> bool) (v : A) (before : list A) : list A :=
  match before with
  | [] => [v]
  | u :: rest => if Less v u then u :: settle Less v rest else v :: u :: rest
  end.

(** The order of the table: no total below the one that follows. *)
Definition descending (a b : directory.t) : Prop :=
  directory.changes b <= directory.changes a.

(** ** Rounding *)

(** The exact number [N / D], in units of [2^k], lies in the interval that
    starts at the mantissa of the record, at the place told by its two
    bits. *)
Definition located (N D k : Z) (mrs : shr_record) : Prop :=
  let U := 2 ^ k * D in
  let m := shr_m mrs in
  0 <= m /\
  match shr_r mrs, shr_s mrs with
  | false, false => N = m * U
  | false, true => m * U < N /\ 2 * N < (2 * m + 1) * U
  | true, false => 2 * N = (2 * m + 1) * U
  | true, true => (2 * m + 1) * U < 2 * N /\ N < (m + 1) * U
  end.


(** ** Authors and messages *)

(** The pairs (file name, value) that the entries of a list of commits
    give, in the order of the loop: [g] reads the value off the commit. *)
Definition tagged (g : Commit -> string) (commits : list Commit) : list (string * string) :=
  concat (map (fun c => map (fun s => (Name s, g c)) (statsOf c)) commits).

(** The values paired with the file [f], in order. *)
Definition valuesFor (f : string) (vals : list (string * string)) : list string :=
  map snd (filter (fun p => p.1 = f) vals).

(** A map of slices holds, under each file, the values appended for it. *)
Definition collected (vals : list (string * string)) (m : gmap string (list string)) : Prop :=
  forall f, m !! f = match valuesFor f vals with [] => None | vs => Some vs end.

(** [strings.Split(commit.Message, "\n")[0]] *)
Definition firstLine (msg : string) : string := default "" (head (Split_LF msg)).

(** Invariant of the loops of [parseRepoLogs] on the two maps of slices. *)
Definition gathered (auth msgs : list (string * string)) (m : Maps) : Prop :=
  collected auth (authorsPerFile m) /\ collected msgs (msgsPerFile m).

(** The commits of a repository that count for a run. *)
Definition qualifying (cutoff : Z) (author : string) (repo : Repository) : list Commit :=
  filter (fun c => qualifies cutoff author c = true) (history repo).

(** ** The pool *)

(** The error of the steps of [pullRepo] that come before the pull and do
    not depend on the repository: the home directory, then the key. *)
Definition keyError (env : Env) : option error :=
  match UserHomeDir env with
  | inl err => Some err
  | inr home => NewPublicKeysFromFile env "git" (Join2 (Join2 home ".ssh") "id_rsa") ""
  end.

(** The line that a worker logs for a unit whose synchronisation fails. *)
Definition pullWarning (env : Env) (u : directory.t) (e : error) : string :=
  logLine env ("while pulling repo " +:+ directory.path u +:+ ": " +:+ Error e).

(** The warning of a unit, if it has one: under the flag, when [pullRepo]
    returns an error. *)
Definition warning (env : Env) (fl : Flags) (u : directory.t) : option string :=
  if pull fl
  then match (pullRepo env (directory.repo u)).2 with
       | Some e => Some (pullWarning env u e)
       | None => None
       end
  else None.

(** A unit as a worker sends it when it has read no file. *)
Definition untouched (u : directory.t) : directory.t :=
  directory.mk (directory.path u) (directory.changes u) (directory.authors u)
               (directory.repo u) [].

(** ** Discovery *)

(** The failure that a walk of the tree meets first, in the order of the
    walk: a directory that does not open, for another reason than not being
    a repository, or a directory that cannot be read.  What lies inside a
    repository root is not looked at. *)
Fixpoint firstFailure (d : Entry) : option error :=
  match d with
  | File _ => None
  | Dir _ (inr _) _ _ => None
  | Dir _ (inl e) entries readErr =>
      if errors_Is e ErrRepositoryNotExists
      then match readErr with
           | Some re => Some re
           | None =>
               (fix first (ds : list Entry) : option error :=
                  match ds with
                  | [] => None
                  | d1 :: rest =>
                      match firstFailure d1 with
                      | Some e1 => Some e1
                      | None => first rest
                      end
                  end) entries
           end
      else Some e
  end.

(** A repository has activity for a run: a qualifying commit with a
    statistics entry that has a path. *)
Definition active (cutoff : Z) (author : string) (repo : Repository) : bool :=
  bool_decide (Exists (fun c => Exists (fun s => Name s ≠ "") (statsOf c))
                      (qualifying cutoff author repo)).

(** The repository of a unit as [parseRepoLogs] reads it. *)
Definition synced (env : Env) (fl : Flags) (u : directory.t) : Repository :=
  (afterPull env (pull fl) (directory.repo u)).1.

(** Nothing fails for a unit: the synchronisation, if asked for, the
    history, the statistics of the qualifying commits. *)
Definition readable (env : Env) (fl : Flags) (u : directory.t) : Prop :=
  (afterPull env (pull fl) (directory.repo u)).2 = None
  /\ LogErr (synced env fl u) = None
  /\ forall c, c ∈ qualifying (Now env - since fl) (author fl) (synced env fl u) ->
               exists stats, Stats c = inr stats.

(** ** The first revision *)

(** An aggregate of the first revision without its messages. *)
Definition forget (a : Rev1.file.t) : file.t :=
  file.mk (Rev1.file.path a) (Rev1.file.changes a) (Rev1.file.authors a).

(** The string has no line feed. *)
Fixpoint oneLine (s : string) : bool :=
  match s with
  | EmptyString => true
  | String c rest => negb (Ascii.eqb c LF) && oneLine rest
  end.

(** The order of the files under [-files]: no change count below the one
    that follows. *)
Definition byCountDown (a b : Rev1.file.t) : Prop :=
  Rev1.file.changes b <= Rev1.file.changes a.

(** The flags that the two revisions share. *)
Definition sharedFlags (fl : Rev1.Flags) : Flags :=
  mkFlags (Rev1.author fl) (Rev1.dir fl) (Rev1.pull fl) (Rev1.since fl).

(** The value that the worker of the second revision sends for the files
    of a result of the first: with the total and the authors. *)
Definition aggregate (d : Rev1.directory.t) : directory.t :=
  sentFor (unit (Rev1.directory.path d) (Rev1.directory.repo d))
          (map forget (Rev1.directory.files d)).

(** The test of [reportResults] of the first revision: the result has
    files. *)
Definition hasFiles (d : Rev1.directory.t) : bool :=
  negb (length (Rev1.directory.files d) =? 0)%nat.

(** The first line written for a result of the first revision. *)
Definition headLine (d : Rev1.directory.t) : string :=
  Rev1.dirLine (Rev1.directory.path d)
               (directory.changes (aggregate d)) (directory.authors (aggregate d)).

(** ** The goroutines *)

(** The value that a worker sends for a unit, unless it exits. *)
Definition sends (ord : MapOrder) (env : Env) (fl : Flags) (u : directory.t)
  : option directory.t :=
  match (worker ord env fl u).2 with
  | Done d => Some d
  | Exit _ _ => None
  end.

(** The units that the workers are parsing, and the values they are about
    to send. *)
Definition busies (workers : list Pool.slot) : list directory.t :=
  omap (fun w => match w with Pool.Busy u => Some u | _ => None end) workers.

Definition readies (workers : list Pool.slot) : list directory.t :=
  omap (fun w => match w with Pool.Ready d => Some d | _ => None end) workers.

(** Invariant of the steps, [sent] being the units of the walk: [finished]
    are the units whose worker has gone past [parseRepoLogs]. *)
Definition accounted (ord : MapOrder) (env : Env) (fl : Flags)
    (sent : list directory.t) (st : Pool.state) : Prop :=
  exists finished,
    sent ≡ₚ finished ++ busies (Pool.slots st) ++ Pool.todo st
    /\ Forall (fun u => is_Some (sends ord env fl u)) finished
    /\ omap (sends ord env fl) finished ≡ₚ Pool.received st ++ readies (Pool.slots st)
    /\ omap (warning env fl) finished ≡ₚ Pool.logged st.

(** Two lists that differ by the place of one element. *)
Ltac shuffle :=
  rewrite <- ?app_assoc; cbn [app]; rewrite <- ?Permutation_middle; reflexivity.
(** * Facts *)

(** ** Go integers *)

Section GoIntFacts.
Import GoInt.

Lemma wrap_range z : in_range (wrap z).
Proof.
  unfold in_range, wrap, min_int, max_int, bits.
  pose proof (Z.mod_pos_bound (z - - 2 ^ (64 - 1)) (2 ^ 64) ltac:(lia)).
  change (2 ^ 64) with (2 * 2 ^ (64 - 1)) in *. lia.
Qed.

Lemma wrap_small z : in_range z -> wrap z = z.
Proof.
  unfold in_range, wrap, min_int, max_int, bits. intros H.
  change (2 ^ 64) with (2 * 2 ^ (64 - 1)) in *.
  rewrite Z.mod_small; lia.
Qed.

Lemma wrap_add_l a b : wrap (wrap a + b) = wrap (a + b).
Proof.
  unfold wrap.
  replace ((a - min_int) mod 2 ^ bits + min_int + b - min_int)
    with ((a - min_int) mod 2 ^ bits + b) by lia.
  replace (a + b - min_int) with ((a - min_int) + b) by lia.
  rewrite Zplus_mod_idemp_l. reflexivity.
Qed.

Lemma wrap_add_r a b : wrap (a + wrap b) = wrap (a + b).
Proof. rewrite (Z.add_comm a), wrap_add_l, Z.add_comm. reflexivity. Qed.

Lemma wrap_wrap a : wrap (wrap a) = wrap a.
Proof. apply wrap_small, wrap_range. Qed.

Lemma add_small a b : in_range (a + b) -> add a b = a + b.
Proof. apply wrap_small. Qed.

Lemma sum_wrap acc xs : wrap (sum acc xs) = wrap (acc + zsum xs).
Proof.
  revert acc. induction xs as [|x xs IH]; intros acc; simpl.
  - rewrite Z.add_0_r. reflexivity.
  - rewrite IH. unfold add. rewrite wrap_add_l. f_equal. lia.
Qed.

Lemma sum_spec acc xs : in_range acc -> sum acc xs = wrap (acc + zsum xs).
Proof.
  intros Hacc. rewrite <- sum_wrap.
  destruct xs as [|x xs]; simpl.
  - symmetry. apply wrap_small, Hacc.
  - symmetry. clear Hacc. revert acc x.
    induction xs as [|y ys IH]; intros acc x; simpl.
    + apply wrap_wrap.
    + apply IH.
Qed.

Lemma zsum_app xs ys : zsum (xs ++ ys) = zsum xs + zsum ys.
Proof. induction xs as [|x xs IH]; simpl; lia. Qed.

Lemma zsum_perm xs ys : xs ≡ₚ ys -> zsum xs = zsum ys.
Proof. induction 1; simpl; lia. Qed.

Lemma zsum_nonneg xs : Forall (fun x => 0 <= x) xs -> 0 <= zsum xs.
Proof. induction 1; simpl; lia. Qed.
End GoIntFacts.

(** ** [uniq] *)

Section UniqFacts.
Implicit Types (x y s : string) (l ss : list string).

Lemma index_of_lt x l : (index_of x l < length l)%nat <-> x ∈ l.
Proof.
  induction l as [|y l IH]; simpl.
  - split; [lia | intros H; inversion H].
  - destruct (decide (x = y)) as [->|Hne].
    + split; [intros _; left | lia].
    + rewrite elem_of_cons, <- IH. split; [intros; right; lia | intros [?|?]; [done | lia]].
Qed.

Lemma index_of_app_in x l l' : x ∈ l -> index_of x (l ++ l') = index_of x l.
Proof.
  induction l as [|y l IH]; simpl; intros H.
  - inversion H.
  - destruct (decide (x = y)); [done|].
    f_equal. apply IH. apply elem_of_cons in H as [?|?]; done.
Qed.

Lemma index_of_app_notin x l l' :
  x ∉ l -> index_of x (l ++ l') = (length l + index_of x l')%nat.
Proof.
  induction l as [|y l IH]; simpl; intros H; [done|].
  apply not_elem_of_cons in H as [Hne Hl].
  destruct (decide (x = y)); [done|]. f_equal. by apply IH.
Qed.

Lemma index_of_last x l : x ∉ l -> index_of x (l ++ [x]) = length l.
Proof.
  intros H. rewrite index_of_app_notin by done. simpl.
  destruct (decide (x = x)); [lia | done].
Qed.

(** After the loop has run over [l], [keys] holds exactly the elements of
    [l]. *)
Lemma uniq_keys l s :
  (foldl uniq_step (∅, []) l).1 !! s = None <-> s ∉ l.
Proof.
  induction l as [|x l IH] using rev_ind; simpl.
  - rewrite lookup_empty. split; [intros _ H; inversion H | done].
  - rewrite foldl_app. simpl.
    destruct (foldl uniq_step (∅, []) l) as [keys acc] eqn:E. simpl in *.
    rewrite not_elem_of_app, not_elem_of_cons.
    destruct (keys !! x) eqn:Ex; simpl.
    + rewrite IH. split; [|tauto]. intros Hs. split; [done|].
      split; [|apply not_elem_of_nil]. intros ->.
      apply IH in Hs. congruence.
    + rewrite lookup_insert. case_decide as Hd.
      * subst. split; [done | intros (_ & ? & _); done].
      * rewrite IH. split; [intros; repeat split; [done | congruence | apply not_elem_of_nil] | tauto].
Qed.

Lemma uniq_snoc l s :
  uniq (l ++ [s]) = if decide (s ∈ l) then uniq l else uniq l ++ [s].
Proof.
  unfold uniq. rewrite foldl_app. simpl.
  pose proof (uniq_keys l s) as Hk.
  destruct (foldl uniq_step (∅, []) l) as [keys acc]. simpl in *.
  destruct (keys !! s) eqn:Es; case_decide as Hd; simpl; try done.
  - apply Hk in Hd. congruence.
  - exfalso. apply Hk; done.
Qed.

Lemma uniq_elem_of ss x : x ∈ uniq ss <-> x ∈ ss.
Proof.
  induction ss as [|s l IH] using rev_ind; [done|].
  rewrite uniq_snoc. case_decide as Hd.
  - rewrite IH, elem_of_app, list_elem_of_singleton.
    split; [by left | intros [?| ->]; done].
  - by rewrite !elem_of_app, IH.
Qed.

Lemma uniq_NoDup ss : NoDup (uniq ss).
Proof.
  induction ss as [|s l IH] using rev_ind; [constructor|].
  rewrite uniq_snoc. case_decide as Hd; [done|].
  apply NoDup_app. split; [done|]. split.
  - intros x Hx Hs. apply list_elem_of_singleton in Hs as ->.
    apply Hd, uniq_elem_of, Hx.
  - apply NoDup_singleton.
Qed.

Lemma uniq_order ss x y :
  x ∈ ss -> y ∈ ss ->
  ((index_of x (uniq ss) < index_of y (uniq ss))%nat
   <-> (index_of x ss < index_of y ss)%nat).
Proof.
  induction ss as [|s l IH] using rev_ind; [intros H; inversion H|].
  intros Hx Hy. rewrite uniq_snoc.
  assert (Hin : forall z, z ∈ l ++ [s] -> z ∈ l \/ (z = s /\ z ∉ l)).
  { intros z Hz. destruct (decide (z ∈ l)); [by left|]. right.
    apply elem_of_app in Hz as [?|Hz]; [done|].
    by apply list_elem_of_singleton in Hz. }
  case_decide as Hd.
  - assert (x ∈ l) by (destruct (Hin x Hx) as [?|[-> ?]]; done).
    assert (y ∈ l) by (destruct (Hin y Hy) as [?|[-> ?]]; done).
    rewrite !index_of_app_in by done. by apply IH.
  - assert (Hu : s ∉ uniq l) by (by rewrite uniq_elem_of).
    destruct (Hin x Hx) as [Hxl|[-> Hxl]], (Hin y Hy) as [Hyl|[-> Hyl]].
    + rewrite !index_of_app_in by (done || by apply uniq_elem_of). by apply IH.
    + rewrite (index_of_app_in x), (index_of_app_in x l) by (done || by apply uniq_elem_of).
      rewrite !index_of_last by done.
      rewrite !index_of_lt, uniq_elem_of. done.
    + rewrite (index_of_app_in y), (index_of_app_in y l) by (done || by apply uniq_elem_of).
      rewrite !index_of_last by done.
      apply uniq_elem_of in Hyl as Hyu.
      apply index_of_lt in Hyl, Hyu. lia.
    + lia.
Qed.
End UniqFacts.

(** C6.  For every input, the result of [uniq] holds exactly the elements
    of the input, holds none of them twice, and lists them in the order of
    their first occurrences in the input: of two elements, the one whose
    first occurrence comes first in the input comes first in the result. *)
Theorem uniq_first_occurrence_order (ss : list string) :
  (forall x, x ∈ uniq ss <-> x ∈ ss)
  /\ NoDup (uniq ss)
  /\ (forall x y, x ∈ ss -> y ∈ ss ->
        ((index_of x (uniq ss) < index_of y (uniq ss))%nat
         <-> (index_of x ss < index_of y ss)%nat)).
Proof.
  split; [|split].
  - intros x. apply uniq_elem_of.
  - apply uniq_NoDup.
  - intros x y. apply uniq_order.
Qed.

(** ** [parseStat], [parseRepoLogs] *)

Lemma parseStat_Done (stat : FileStat) :
  parseStat stat = Done (Name stat, GoInt.add (Addition stat) (Deletion stat)).
Proof.
  unfold parseStat. rewrite lookup_empty. simpl.
  rewrite insert_empty, map_to_list_singleton. simpl.
  unfold GoInt.add. rewrite Z.add_0_l, wrap_add_l. reflexivity.
Qed.

(** C10.  The fatal branch of [parseStat] is never taken: for every entry
    the result is the entry's name with the sum (on [int]) of its additions
    and deletions. *)
Theorem parseStat_total (stat : FileStat) :
  parseStat stat = Done (Name stat, GoInt.add (Addition stat) (Deletion stat)).
Proof.
  unfold parseStat.
  assert (Hcount : (∅ : gmap string Z) !! Name stat = None) by apply lookup_empty.
  rewrite Hcount. cbn [default].
  rewrite insert_empty, map_to_list_singleton. cbn [existsb snd orb].
  change (1 <? GoInt.add 0 1) with false. cbv iota.
  unfold GoInt.add. rewrite Z.add_0_l, wrap_add_l. reflexivity.
Qed.

Section ParseFacts.
Implicit Types (f : string) (m : Maps) (L : list FileStat) (c : Commit).

Lemma counted_empty : counted [] (mkMaps ∅ ∅ ∅).
Proof. intros f. simpl. apply lookup_empty. Qed.

Lemma amounts_app es es' : amounts (es ++ es') = amounts es ++ amounts es'.
Proof. apply map_app. Qed.

Lemma countOf_snoc_other f L s : Name s ≠ f -> countOf f (L ++ [s]) = countOf f L.
Proof.
  intros Hne. unfold countOf. rewrite filter_app, filter_cons_False by done.
  rewrite filter_nil, app_nil_r. reflexivity.
Qed.

Lemma countOf_snoc_empty L s : Name s = "" -> countOf "" (L ++ [s]) = countOf "" L.
Proof.
  intros He. unfold countOf.
  destruct (filter _ (L ++ [s])), (filter _ L); done.
Qed.

Lemma countOf_snoc_same L s :
  Name s ≠ "" ->
  countOf (Name s) (L ++ [s])
  = Some (GoInt.add (default 0 (countOf (Name s) L))
                    (GoInt.add (Addition s) (Deletion s))).
Proof.
  intros Hne. unfold countOf.
  rewrite filter_app, filter_cons_True, filter_nil by done.
  destruct (filter (fun s0 => Name s0 = Name s) L) as [|e es]; cbn [app].
  - rewrite decide_False by done. f_equal.
    unfold GoInt.add. simpl. rewrite Z.add_0_r. symmetry. apply wrap_wrap.
  - rewrite !decide_False by done.
    change (e :: es ++ [s]) with ((e :: es) ++ [s]).
    rewrite amounts_app, zsum_app. cbn [default id].
    unfold GoInt.add. rewrite wrap_add_l, wrap_add_r. do 2 f_equal.
    simpl. lia.
Qed.

Lemma eachStat_counted c L m stat :
  counted L m ->
  exists m', eachStat c m stat = Done m' /\ counted (L ++ [stat]) m'.
Proof.
  intros Hm. unfold eachStat. rewrite parseStat_Done. simpl.
  eexists. split; [reflexivity|].
  intros f. simpl. case_bool_decide as Hn.
  - rewrite lookup_insert. case_decide as Hf.
    + subst f. rewrite countOf_snoc_same, Hm by done. reflexivity.
    + rewrite countOf_snoc_other by done. apply Hm.
  - destruct (decide (f = "")) as [->|Hf].
    + rewrite countOf_snoc_empty by done. apply Hm.
    + rewrite countOf_snoc_other by congruence. apply Hm.
Qed.

Lemma rangeStats_counted c stats L m :
  counted L m ->
  exists m', rangeStats c m stats = Done m' /\ counted (L ++ stats) m'.
Proof.
  revert L m. induction stats as [|stat stats IH]; intros L m Hm; simpl.
  - exists m. by rewrite app_nil_r.
  - destruct (eachStat_counted c L m stat Hm) as (m' & -> & Hm'). simpl.
    destruct (IH _ _ Hm') as (m'' & -> & Hm'').
    exists m''. split; [done|]. by rewrite <- app_assoc in Hm''.
Qed.

(** Author filter of the closure, as the vocabulary states it. *)
Lemma eachCommit_filter author c :
  bool_decide (author ≠ "") && bool_decide (AuthorName c ≠ author)
  = negb (passes author c).
Proof.
  unfold passes. repeat case_bool_decide; simpl; try done; tauto.
Qed.

Lemma eachCommit_skip author m c :
  passes author c = false -> eachCommit author m c = Done (m, None).
Proof. intros H. unfold eachCommit. by rewrite eachCommit_filter, H. Qed.

Lemma eachCommit_stats author m c stats L :
  passes author c = true -> Stats c = inr stats -> counted L m ->
  exists m', eachCommit author m c = Done (m', None) /\ counted (L ++ stats) m'.
Proof.
  intros Hp Hs Hm. unfold eachCommit. rewrite eachCommit_filter, Hp, Hs. simpl.
  destruct (rangeStats_counted c stats L m Hm) as (m' & -> & Hm'). simpl. eauto.
Qed.

Lemma eachCommit_fail author m c err :
  passes author c = true -> Stats c = inl err ->
  eachCommit author m c = Done (m, Some err).
Proof. intros Hp Hs. unfold eachCommit. by rewrite eachCommit_filter, Hp, Hs. Qed.

(** The loop over commits whose statistics can all be retrieved. *)
Lemma ForEach_counted author commits L m :
  Forall (fun c => passes author c = true -> exists stats, Stats c = inr stats) commits ->
  counted L m ->
  exists m', ForEach (eachCommit author) commits m = Done (m', None)
             /\ counted (L ++ concat (map statsOf (passing author commits))) m'.
Proof.
  intros Hall. revert L m.
  induction Hall as [|c commits Hc _ IH]; intros L m Hm; simpl.
  - exists m. by rewrite app_nil_r.
  - unfold passing. destruct (passes author c) eqn:Hp.
    + destruct (Hc eq_refl) as [stats Hs].
      destruct (eachCommit_stats author m c stats L Hp Hs Hm) as (m' & -> & Hm').
      simpl. destruct (IH _ _ Hm') as (m'' & -> & Hm'').
      exists m''. split; [done|].
      rewrite filter_cons_True by done. simpl.
      unfold statsOf at 1. rewrite Hs, app_assoc. exact Hm''.
    + rewrite eachCommit_skip by done. simpl.
      destruct (IH _ _ Hm) as (m'' & -> & Hm'').
      exists m''. split; [done|].
      rewrite filter_cons_False by (rewrite Hp; done). exact Hm''.
Qed.

Lemma rangeStats_Done c m stats : exists m', rangeStats c m stats = Done m'.
Proof.
  revert m. induction stats as [|stat stats IH]; intros m; simpl; [eauto|].
  unfold eachStat. rewrite parseStat_Done. simpl. apply IH.
Qed.

Lemma eachCommit_Done author m c : exists r, eachCommit author m c = Done r.
Proof.
  unfold eachCommit. destruct (_ && _); [eauto|].
  destruct (Stats c) as [err|stats]; [eauto|].
  destruct (rangeStats_Done c m stats) as [m' ->]. simpl. eauto.
Qed.

Lemma eachCommit_ok author m c stats :
  Stats c = inr stats -> exists m', eachCommit author m c = Done (m', None).
Proof.
  intros Hs. unfold eachCommit. destruct (_ && _); [eauto|]. rewrite Hs.
  destruct (rangeStats_Done c m stats) as [m' ->]. simpl. eauto.
Qed.

Lemma ForEach_Done author commits m :
  exists r, ForEach (eachCommit author) commits m = Done r.
Proof.
  revert m. induction commits as [|c commits IH]; intros m; simpl; [eauto|].
  destruct (eachCommit_Done author m c) as [[m' [e|]] ->]; simpl; eauto.
Qed.

(** The loop stops at the first commit whose statistics fail. *)
Lemma ForEach_fail author pre c post m err :
  Forall (fun c => passes author c = true -> exists stats, Stats c = inr stats) pre ->
  passes author c = true -> Stats c = inl err ->
  exists m', ForEach (eachCommit author) (pre ++ c :: post) m = Done (m', Some err).
Proof.
  intros Hpre Hp Hs. revert m.
  induction Hpre as [|c0 pre Hc0 _ IH]; intros m; cbn [ForEach app].
  - rewrite (eachCommit_fail _ _ _ err) by done. simpl. eauto.
  - destruct (passes author c0) eqn:Hp0.
    + destruct (Hc0 eq_refl) as [stats Hs0].
      destruct (eachCommit_ok author m c0 stats Hs0) as [m' ->].
      simpl. apply IH.
    + rewrite eachCommit_skip by done. simpl. apply IH.
Qed.

Lemma passing_within author t commits :
  passing author (filter (fun c => within t c = true) commits)
  = filter (fun c => qualifies t author c = true) commits.
Proof.
  unfold passing, qualifies. induction commits as [|c commits IH]; [done|].
  rewrite !filter_cons.
  destruct (within t c) eqn:Hw, (passes author c) eqn:Hp; simpl.
  all: repeat (case_decide; try done).
  all: rewrite ?filter_cons.
  all: repeat (case_decide; try done).
  all: try congruence.
Qed.

Lemma countOf_Some f L v :
  countOf f L = Some v <->
  f ≠ "" /\ filter (fun s => Name s = f) L ≠ []
  /\ v = GoInt.wrap (GoInt.zsum (amounts (filter (fun s => Name s = f) L))).
Proof.
  unfold countOf. destruct (filter _ L) as [|e es].
  - split; [done | intros (_ & ? & _); done].
  - case_decide as Hf.
    + split; [done | intros (? & _); done].
    + split; [intros [= <-]; done | intros (_ & _ & ->); done].
Qed.

(** What [parseRepoLogs] returns when nothing fails: the aggregates of the
    change counts left in the map by the qualifying commits. *)
Lemma parseRepoLogs_ok ord env repo pull author since repo' :
  afterPull env pull repo = (repo', None) ->
  LogErr repo' = None ->
  (forall c, c ∈ history repo' ->
             qualifies (Now env - since) author c = true ->
             exists stats, Stats c = inr stats) ->
  exists m,
    parseRepoLogs ord env repo pull author since
    = Done (map (fun '(f, c) => file.mk f c (uniq (default [] (authorsPerFile m !! f))))
                (rangeMap ord (changesPerFile m)), None)
    /\ counted (concat (map statsOf
                 (filter (fun c => qualifies (Now env - since) author c = true)
                         (history repo')))) m.
Proof.
  intros Hpull Hlog Hstats. unfold parseRepoLogs.
  unfold afterPull in Hpull. rewrite Hpull.
  unfold Log. rewrite Hlog.
  destruct (ForEach_counted author
              (filter (fun c => within (Now env - since) c = true) (history repo'))
              [] (mkMaps ∅ ∅ ∅)) as (m & -> & Hm).
  - apply Forall_forall. intros c Hc Hp.
    apply list_elem_of_filter in Hc as [Hw Hc].
    apply Hstats; [done|]. unfold qualifies. by rewrite Hw, Hp.
  - apply counted_empty.
  - exists m. split; [done|]. by rewrite passing_within in Hm.
Qed.
End ParseFacts.

(** C3.  When nothing fails, [parseRepoLogs] returns one aggregate for each
    non-empty path named by a statistics entry of a qualifying commit (a
    commit inside the window that passes the author filter), and no other;
    the change count of the aggregate of [f] is the sum, on [int], of
    added plus deleted lines over the entries for [f] of the qualifying
    commits, which is the mathematical sum whenever that fits an [int].
    Entries with an empty path and commits that do not qualify add to no
    count. *)
Theorem change_count_is_window_sum
    (ord : MapOrder) (env : Env) (repo repo' : Repository)
    (pull : bool) (author : string) (since : Z) :
  let cutoff := Now env - since in
  let qualifying := filter (fun c => qualifies cutoff author c = true) (history repo') in
  afterPull env pull repo = (repo', None) ->
  LogErr repo' = None ->
  (forall c, c ∈ qualifying -> exists stats, Stats c = inr stats) ->
  exists files,
    parseRepoLogs ord env repo pull author since = Done (files, None)
    /\ NoDup (map file.path files)
    /\ (forall f, f ∈ map file.path files <-> f ≠ "" /\ touching f qualifying ≠ [])
    /\ (forall a, a ∈ files ->
          file.changes a
          = GoInt.wrap (changeSum cutoff author (file.path a) (history repo')))
    /\ (forall a, a ∈ files ->
          GoInt.in_range (changeSum cutoff author (file.path a) (history repo')) ->
          file.changes a = changeSum cutoff author (file.path a) (history repo')).
Proof.
  intros cutoff qualifying Hpull Hlog Hstats.
  destruct (parseRepoLogs_ok ord env repo pull author since repo' Hpull Hlog)
    as (m & Hrun & Hm).
  { intros c Hc Hq. apply Hstats. apply list_elem_of_filter. done. }
  fold cutoff in Hm. fold qualifying in Hm.
  eexists. split; [exact Hrun|].
  set (mk := fun '(f, c) => file.mk f c (uniq (default [] (authorsPerFile m !! f)))).
  assert (Hpath : forall l : list (string * Z), map file.path (map mk l) = map fst l).
  { intros l. rewrite map_map. apply map_ext. by intros [f c]. }
  assert (Hin : forall a, a ∈ map mk (rangeMap ord (changesPerFile m)) ->
                 countOf (file.path a) (concat (map statsOf qualifying))
                 = Some (file.changes a)).
  { intros a Ha. apply list_elem_of_fmap in Ha as ([f c] & -> & Hfc).
    rewrite (rangeMap_perm ord) in Hfc. apply elem_of_map_to_list in Hfc.
    simpl. by rewrite <- Hm. }
  assert (Hchanges : forall a, a ∈ map mk (rangeMap ord (changesPerFile m)) ->
            file.changes a
            = GoInt.wrap (changeSum cutoff author (file.path a) (history repo'))).
  { intros a Ha. apply Hin, countOf_Some in Ha as (_ & _ & ->). reflexivity. }
  split; [|split; [|split]].
  - rewrite Hpath, (rangeMap_perm ord). apply NoDup_fst_map_to_list.
  - intros f. rewrite Hpath, (rangeMap_perm ord). unfold touching.
    rewrite list_elem_of_fmap. split.
    + intros ([f' c] & -> & Hfc). apply elem_of_map_to_list in Hfc.
      rewrite Hm in Hfc. apply countOf_Some in Hfc as (? & ? & _). done.
    + intros (Hf & Hne).
      exists (f, GoInt.wrap (GoInt.zsum (amounts
               (filter (fun s => Name s = f) (concat (map statsOf qualifying)))))).
      split; [done|]. apply elem_of_map_to_list. rewrite Hm.
      apply countOf_Some. done.
  - exact Hchanges.
  - intros a Ha Hr. rewrite (Hchanges a Ha). by apply wrap_small.
Qed.

Lemma change_count_is_window_sum_witness :
  exists files,
    parseRepoLogs keyOrder Scenario.env Scenario.repoA false "" 100 = Done (files, None)
    /\ forall a, a ∈ files ->
          file.changes a
          = GoInt.wrap (changeSum 900 "" (file.path a) (history Scenario.repoA)).
Proof.
  destruct (change_count_is_window_sum keyOrder Scenario.env Scenario.repoA
              Scenario.repoA false "" 100 eq_refl eq_refl)
    as (files & Hrun & _ & _ & Hch & _).
  - intros c Hc. apply list_elem_of_filter in Hc as [_ Hc].
    unfold Scenario.repoA, history in Hc.
    repeat (apply elem_of_cons in Hc as [->|Hc]; [eexists; reflexivity|]).
    by apply elem_of_nil in Hc.
  - exists files. split; [exact Hrun | exact Hch].
Defined.

(** ** [pullRepo] and the worker *)

Section WorkerFacts.
Variables (ord : MapOrder) (env : Env) (fl : Flags).
Implicit Types (dir : directory.t) (repo : Repository).

Lemma parseRepoLogs_Done repo pull author since :
  exists r, parseRepoLogs ord env repo pull author since = Done r.
Proof.
  unfold parseRepoLogs.
  destruct (if pull then pullRepo env repo else (repo, None)) as [repo' [e|]]; [eauto|].
  destruct (Log repo' (Now env - since)) as [err|commits]; [eauto|].
  destruct (ForEach_Done author commits (mkMaps ∅ ∅ ∅)) as [[m [e|]] ->]; simpl; eauto.
Qed.

Lemma parseRepoLogs_pull_failed repo repo' e author since :
  pullRepo env repo = (repo', Some e) ->
  parseRepoLogs ord env repo true author since = Done ([], Some (pullError e)).
Proof. intros H. unfold parseRepoLogs. by rewrite H. Qed.

Lemma parseRepoLogs_log_failed repo repo' pull author since err :
  afterPull env pull repo = (repo', None) ->
  Log repo' (Now env - since) = inl err ->
  parseRepoLogs ord env repo pull author since = Done ([], Some (otherError err)).
Proof.
  intros Hp Hl. unfold parseRepoLogs. unfold afterPull in Hp. by rewrite Hp, Hl.
Qed.

Lemma parseRepoLogs_stats_failed repo repo' pull author since pre c post err :
  afterPull env pull repo = (repo', None) ->
  Log repo' (Now env - since) = inr (pre ++ c :: post) ->
  Forall (fun c => passes author c = true -> exists stats, Stats c = inr stats) pre ->
  passes author c = true -> Stats c = inl err ->
  parseRepoLogs ord env repo pull author since = Done ([], Some (otherError err)).
Proof.
  intros Hp Hl Hpre Hc Hs. unfold parseRepoLogs. unfold afterPull in Hp.
  rewrite Hp, Hl.
  destruct (ForEach_fail author pre c post (mkMaps ∅ ∅ ∅) err Hpre Hc Hs) as [m' ->].
  reflexivity.
Qed.

Lemma worker_parsed dir files :
  parseRepoLogs ord env (directory.repo dir) (pull fl) (author fl) (since fl)
  = Done (files, None) ->
  worker ord env fl dir = ([], Done (sentFor dir files)).
Proof.
  intros H. unfold worker, sentFor. rewrite H.
  by destruct (foldl addFile _ files).
Qed.

Lemma worker_pull_failed dir repo' e :
  pull fl = true ->
  pullRepo env (directory.repo dir) = (repo', Some e) ->
  worker ord env fl dir
  = ([logLine env ("while pulling repo " +:+ directory.path dir +:+ ": " +:+ Error e)],
     Done (directory.mk (directory.path dir) (directory.changes dir)
             (directory.authors dir) (directory.repo dir) [])).
Proof.
  intros Hf Hp. unfold worker.
  rewrite Hf, (parseRepoLogs_pull_failed _ repo' e) by done. reflexivity.
Qed.

Lemma worker_fatal dir err :
  parseRepoLogs ord env (directory.repo dir) (pull fl) (author fl) (since fl)
  = Done ([], Some (otherError err)) ->
  worker ord env fl dir
  = ([], Exit 1 (logLine env ("while parsing repo " +:+ directory.path dir
                                +:+ ": " +:+ Error err))).
Proof. intros H. unfold worker. by rewrite H. Qed.

(** A worker that exits does so with status 1 and has logged nothing. *)
Lemma worker_Exit dir logged s d :
  worker ord env fl dir = (logged, Exit s d) -> logged = [] /\ s = 1.
Proof.
  unfold worker.
  destruct (parseRepoLogs_Done (directory.repo dir) (pull fl) (author fl) (since fl))
    as [[files err] ->].
  destruct (foldl addFile _ files) as [ch au].
  destruct err as [[e|e]|]; intros [= <- <-]; done.
Qed.

Lemma workers_app l1 l2 logged1 out1 :
  workers ord env fl l1 = (logged1, Done out1) ->
  workers ord env fl (l1 ++ l2)
  = match workers ord env fl l2 with
    | (logged2, Exit s d) => (logged1 ++ logged2, Exit s d)
    | (logged2, Done out2) => (logged1 ++ logged2, Done (out1 ++ out2))
    end.
Proof.
  revert logged1 out1. induction l1 as [|dir l1 IH]; intros logged1 out1; simpl.
  - intros [= <- <-]. by destruct (workers ord env fl l2) as [lg [o|s d]].
  - destruct (worker ord env fl dir) as [lg [sent|s d]]; [|done].
    destruct (workers ord env fl l1) as [lg1 [o1|s1 d1]] eqn:E1; [|done].
    intros [= <- <-]. rewrite (IH lg1 o1 eq_refl).
    destruct (workers ord env fl l2) as [lg2 [o2|s2 d2]]; by rewrite <- app_assoc.
Qed.

(** One unit that exits the process ends the pool: nothing is handed to
    the report. *)
Lemma workers_Exit units dir logged s d :
  dir ∈ units ->
  worker ord env fl dir = (logged, Exit s d) ->
  exists logged' d', workers ord env fl units = (logged', Exit 1 d').
Proof.
  intros Hin Hw. induction units as [|u units IH]; [inversion Hin|]. simpl.
  destruct (worker ord env fl u) as [lg [sent|s' d']] eqn:Eu.
  - apply elem_of_cons in Hin as [->|Hin]; [congruence|].
    destruct (IH Hin) as (lg' & d'' & ->). eauto.
  - apply worker_Exit in Eu as [-> ->]. eauto.
Qed.
End WorkerFacts.

(** ** [reportResults] keeps what has files *)

Section CollectFacts.
Implicit Types (out : list directory.t) (dir : directory.t).

Lemma collect_spec out acc :
  foldl collect acc out
  = (GoInt.sum acc.1 (map directory.changes (filter (fun d => kept d = true) out)),
     acc.2 ++ filter (fun d => kept d = true) out).
Proof.
  revert acc. induction out as [|dir out IH]; intros [tot dirs]; simpl.
  - by rewrite app_nil_r.
  - rewrite IH, filter_cons. unfold collect, kept.
    destruct (length (directory.files dir) =? 0)%nat; simpl; [done|].
    by rewrite <- app_assoc.
Qed.

Lemma directories_spec out : directories out = filter (fun d => kept d = true) out.
Proof. unfold directories. by rewrite collect_spec. Qed.

Lemma totalChanges_spec out :
  totalChanges out = GoInt.sum 0 (map directory.changes (directories out)).
Proof. unfold totalChanges. rewrite collect_spec, directories_spec. done. Qed.

Lemma kept_files dir : kept dir = true <-> directory.files dir ≠ [].
Proof. unfold kept. destruct (directory.files dir); simpl; split; done. Qed.

(** A value without files leaves no trace in the report. *)
Lemma reportResults_drop out1 out2 dir :
  directory.files dir = [] ->
  reportResults (out1 ++ dir :: out2) = reportResults (out1 ++ out2).
Proof.
  intros Hf. unfold reportResults, ranked.
  rewrite !totalChanges_spec, !directories_spec, !filter_app, filter_cons_False.
  - reflexivity.
  - rewrite kept_files. intros H. by apply H.
Qed.
End CollectFacts.

(** ** Discovery *)

Lemma Entry_ind (P : Entry -> Prop) :
  (forall name, P (File name)) ->
  (forall name open entries readErr,
      Forall P entries -> P (Dir name open entries readErr)) ->
  forall d, P d.
Proof.
  intros HF HD. fix IH 1. intros [name|name open entries readErr]; [apply HF|].
  apply HD. induction entries as [|d1 rest IHrest]; constructor; [apply IH | exact IHrest].
Qed.

Section WalkFacts.
Implicit Types (d : Entry) (sent : list directory.t) (path : string).

Lemma walkEntries_cons {S : Type} (fn : string -> option Entry -> option error -> S -> S * option walkErr)
    path d1 rest (s : S) :
  walkEntries fn path (d1 :: rest) s
  = let '(s, err) := walkDir fn (Join2 path (entryName d1)) d1 s in
    match err with
    | Some SkipDir => (s, None)
    | Some (Failed e) => (s, Some (Failed e))
    | None => walkEntries fn path rest s
    end.
Proof. reflexivity. Qed.

Lemma walk_File path name sent : walkDir visit path (File name) sent = (sent, None).
Proof. reflexivity. Qed.

Lemma walk_root path name repo entries readErr sent :
  walkDir visit path (Dir name (inr repo) entries readErr) sent
  = (sent ++ [unit path repo], None).
Proof. reflexivity. Qed.

Lemma walk_open_failed path name e entries readErr sent :
  errors_Is e ErrRepositoryNotExists = false ->
  walkDir visit path (Dir name (inl e) entries readErr) sent
  = (sent, Some (Failed e)).
Proof. intros H. simpl. by rewrite H. Qed.

Lemma walk_read_failed path name e entries re sent :
  errors_Is e ErrRepositoryNotExists = true ->
  walkDir visit path (Dir name (inl e) entries (Some re)) sent
  = (sent, Some (Failed re)).
Proof. intros H. simpl. by rewrite H. Qed.

Lemma walk_descend path name e entries sent :
  errors_Is e ErrRepositoryNotExists = true ->
  walkDir visit path (Dir name (inl e) entries None) sent
  = walkEntries visit path entries sent.
Proof. intros H. simpl. by rewrite H. Qed.

(** [visit] returns [SkipDir] for directories only, so the walk of an entry
    never ends on it. *)
Lemma walk_no_SkipDir path d sent sent' :
  walkDir visit path d sent ≠ (sent', Some SkipDir).
Proof.
  destruct d as [name|name [e|repo] entries [re|]].
  - by rewrite walk_File.
  - destruct (errors_Is e ErrRepositoryNotExists) eqn:E.
    + by rewrite walk_read_failed.
    + by rewrite walk_open_failed.
  - destruct (errors_Is e ErrRepositoryNotExists) eqn:E.
    + rewrite walk_descend by done. clear E. revert sent.
      induction entries as [|d1 rest IH]; intros sent; [done|].
      rewrite walkEntries_cons.
      destruct (walkDir visit _ d1 sent) as [s1 [[|e1]|]]; [done|done|apply IH].
    + by rewrite walk_open_failed.
  - by rewrite walk_root.
  - by rewrite walk_root.
Qed.

(** What lies inside a repository root has no part in the walk. *)
Lemma walk_prune d : forall path sent,
  walkDir visit path (prune d) sent = walkDir visit path d sent.
Proof.
  induction d as [name|name [e|repo] entries readErr IH] using Entry_ind;
    intros path sent; [done| |done].
  cbn [prune].
  destruct (errors_Is e ErrRepositoryNotExists) eqn:E;
    [|by rewrite !walk_open_failed].
  destruct readErr as [re|]; [by rewrite !walk_read_failed|].
  rewrite !walk_descend by done. revert sent.
  induction IH as [|d1 rest H1 _ IHrest]; intros sent; [done|].
  cbn [map]. rewrite !walkEntries_cons.
  assert (Hn : entryName (prune d1) = entryName d1)
    by (by destruct d1 as [?|? [?|?] ? ?]).
  rewrite Hn, H1.
  destruct (walkDir visit _ d1 sent) as [s1 [[|e1]|]]; [done|done|apply IHrest].
Qed.

(** Every value sent by the walk is new or stands for a root below which
    the walk has come through directories that are not roots. *)
Lemma walk_sent d : forall path sent u,
  u ∈ (walkDir visit path d sent).1 ->
  u ∈ sent
  \/ exists above, RootAt path d above (directory.path u) (directory.repo u)
                   /\ Forall notRoot above
                   /\ u = unit (directory.path u) (directory.repo u).
Proof.
  induction d as [name|name [e|repo] entries readErr IH] using Entry_ind;
    intros path sent u.
  - rewrite walk_File. by left.
  - destruct (errors_Is e ErrRepositoryNotExists) eqn:E;
      [|rewrite walk_open_failed by done; by left].
    destruct readErr as [re|]; [rewrite walk_read_failed by done; by left|].
    rewrite walk_descend by done.
    assert (Hchild : forall d1 sent1, d1 ∈ entries ->
              u ∈ (walkDir visit (Join2 path (entryName d1)) d1 sent1).1 ->
              u ∈ sent1
              \/ exists above,
                   RootAt path (Dir name (inl e) entries None) above
                          (directory.path u) (directory.repo u)
                   /\ Forall notRoot above
                   /\ u = unit (directory.path u) (directory.repo u)).
    { intros d1 sent1 Hd1 Hu.
      destruct (proj1 (Forall_forall _ _) IH d1 Hd1 _ _ _ Hu)
        as [?|(above & Hroot & Hnot & Hunit)]; [by left|].
      right. exists (Dir name (inl e) entries None :: above).
      split; [by eapply RootBelow|]. split; [|done].
      constructor; [exact I | done]. }
    clear IH.
    assert (Hsub : forall d1, d1 ∈ entries -> d1 ∈ entries) by done.
    revert sent Hsub. generalize entries at 1 3 as rest.
    intros rest. induction rest as [|d1 rest IHrest]; intros sent Hsub Hu; [by left|].
    rewrite walkEntries_cons in Hu.
    assert (Hd1 : d1 ∈ entries) by (apply Hsub; left).
    pose proof (Hchild d1 sent Hd1) as H1.
    pose proof (walk_no_SkipDir (Join2 path (entryName d1)) d1 sent) as Hno.
    destruct (walkDir visit _ d1 sent) as [s1 [[|e1]|]]; simpl in *.
    + by destruct (Hno s1).
    + by apply H1.
    + destruct (IHrest s1) as [Hs1|?]; [intros; apply Hsub; by right|done| |by right].
      by apply H1.
  - rewrite walk_root. simpl. intros [Hu|Hu]%elem_of_app; [by left|].
    apply list_elem_of_singleton in Hu as ->. right. exists []. simpl.
    split; [constructor|]. done.
Qed.

(** A walk that meets no failure sends the outermost roots, each once. *)
Lemma walk_walkable d : forall path sent,
  walkable d = true ->
  walkDir visit path d sent = (sent ++ roots path d, None).
Proof.
  induction d as [name|name [e|repo] entries readErr IH] using Entry_ind;
    intros path sent Hw.
  - rewrite walk_File. by rewrite app_nil_r.
  - cbn [walkable] in Hw.
    apply andb_prop in Hw as [[He Hr]%andb_prop Hes].
    apply bool_decide_eq_true in Hr as ->.
    rewrite walk_descend by done. cbn [roots]. clear He. revert sent.
    induction IH as [|d1 rest H1 _ IHrest]; intros sent.
    + by rewrite app_nil_r.
    + cbn [forallb] in Hes. apply andb_prop in Hes as [Hd1 Hrest].
      rewrite walkEntries_cons, H1 by done.
      rewrite IHrest by done. cbn [map concat]. by rewrite app_assoc.
  - by rewrite walk_root.
Qed.

(** Any other walk ends on the error it met. *)
Lemma walk_unwalkable d : forall path sent,
  walkable d = false ->
  exists sent' e, walkDir visit path d sent = (sent', Some (Failed e)).
Proof.
  induction d as [name|name [e|repo] entries readErr IH] using Entry_ind;
    intros path sent Hw; [done| |done].
  cbn [walkable] in Hw.
  destruct (errors_Is e ErrRepositoryNotExists) eqn:He;
    [|rewrite walk_open_failed by done; eauto].
  destruct readErr as [re|]; [rewrite walk_read_failed by done; eauto|].
  rewrite walk_descend by done. simpl in Hw. clear He. revert sent.
  induction IH as [|d1 rest H1 _ IHrest]; intros sent; [done|].
  cbn [forallb] in Hw. rewrite walkEntries_cons.
  destruct (walkable d1) eqn:Hd1.
  - rewrite walk_walkable by done. apply IHrest, Hw.
  - destruct (H1 (Join2 path (entryName d1)) sent eq_refl) as (s1 & e1 & ->). eauto.
Qed.

Lemma discover_walkable env fl d :
  walkable d = true -> discover env fl (inr d) = Done (roots (dir fl) d).
Proof. intros Hw. unfold discover, WalkDir. by rewrite walk_walkable. Qed.

Lemma discover_unwalkable env fl d :
  walkable d = false ->
  exists e, discover env fl (inr d) = Exit 1 (logLine env (Error e)).
Proof.
  intros Hw. unfold discover, WalkDir.
  destruct (walk_unwalkable d (dir fl) [] Hw) as (s1 & e & ->). eauto.
Qed.

Lemma discover_lstat_failed env fl e :
  discover env fl (inl e) = Exit 1 (logLine env (Error e)).
Proof. reflexivity. Qed.
End WalkFacts.

(** A repository inside a repository, and one below a plain directory. *)
Example nested_root_not_sent :
  map directory.path
      (WalkDir visit "/work"
         (inr (Dir "work" (inl ErrRepositoryNotExists)
                 [File "a";
                  Dir "p" (inr Scenario.repoA)
                      [Dir "vendor" (inr Scenario.repoB) [] None] None;
                  Dir "q" (inl (ErrWrap "open q" ErrRepositoryNotExists))
                      [Dir "r" (inr Scenario.repoR) [] None] None]
                 None)) []).1
  = ["/work/p"; "/work/q/r"].
Proof. reflexivity. Qed.

(** C7.  A directory that opens as a repository makes the walk send one
    value, the unit of that directory, and return without reading the
    directory: the result is the same whatever the directory holds.  Hence
    what lies inside the repository roots of a tree has no part in the
    discovery; every unit sent stands for a root none of whose ancestors in
    the tree is a root; and a walk that meets no failure sends the
    outermost roots of the tree, each once. *)
Theorem root_sent_once_and_not_entered :
  (forall path name repo entries readErr sent,
      walkDir visit path (Dir name (inr repo) entries readErr) sent
      = (sent ++ [unit path repo], None))
  /\ (forall path d sent,
        walkDir visit path (prune d) sent = walkDir visit path d sent)
  /\ (forall env fl d, discover env fl (inr (prune d)) = discover env fl (inr d))
  /\ (forall path d u,
        u ∈ (walkDir visit path d []).1 ->
        exists above,
          RootAt path d above (directory.path u) (directory.repo u)
          /\ Forall notRoot above)
  /\ (forall path d sent,
        walkable d = true ->
        walkDir visit path d sent = (sent ++ roots path d, None)).
Proof.
  split; [|split; [|split; [|split]]].
  - intros. apply walk_root.
  - intros. apply walk_prune.
  - intros env fl d. unfold discover, WalkDir. by rewrite walk_prune.
  - intros path d u Hu.
    destruct (walk_sent d path [] u Hu) as [Hnil|(above & ? & ? & _)]; [inversion Hnil|].
    eauto.
  - intros path d sent. apply walk_walkable.
Qed.

(** ** Failures: synchronisation, history, statistics *)

Section PullFacts.
Variables (ord : MapOrder) (env : Env).

Lemma pullRepo_up_to_date repo home e :
  WorktreeErr repo = None ->
  UserHomeDir env = inr home ->
  NewPublicKeysFromFile env "git" (Join2 (Join2 home ".ssh") "id_rsa") "" = None ->
  PullResult repo = PullFailed e ->
  errors_Is e NoErrAlreadyUpToDate = true ->
  pullRepo env repo = (repo, None).
Proof.
  intros Hw Hh Hk Hp He. unfold pullRepo, Pull. by rewrite Hw, Hh, Hk, Hp, He.
Qed.

Lemma pullRepo_pulled repo home fetched :
  WorktreeErr repo = None ->
  UserHomeDir env = inr home ->
  NewPublicKeysFromFile env "git" (Join2 (Join2 home ".ssh") "id_rsa") "" = None ->
  PullResult repo = Pulled fetched ->
  pullRepo env repo
  = (mkRepository fetched (LogErr repo) (WorktreeErr repo) (PullResult repo), None).
Proof.
  intros Hw Hh Hk Hp. unfold pullRepo, Pull. by rewrite Hw, Hh, Hk, Hp.
Qed.

(** [parseRepoLogs] reads the repository only through [Log]. *)
Lemma parseRepoLogs_same_log repo1 repo2 author since :
  history repo1 = history repo2 -> LogErr repo1 = LogErr repo2 ->
  parseRepoLogs ord env repo1 false author since
  = parseRepoLogs ord env repo2 false author since.
Proof. intros Hh Hl. unfold parseRepoLogs, Log. by rewrite Hh, Hl. Qed.

Lemma parseRepoLogs_synced repo repo' pull author since :
  afterPull env pull repo = (repo', None) ->
  parseRepoLogs ord env repo pull author since
  = parseRepoLogs ord env repo' false author since.
Proof. intros H. unfold parseRepoLogs. unfold afterPull in H. by rewrite H. Qed.

Lemma parseRepoLogs_no_pullError repo author since files e :
  parseRepoLogs ord env repo false author since ≠ Done (files, Some (pullError e)).
Proof.
  unfold parseRepoLogs.
  destruct (Log repo (Now env - since)) as [err|commits]; [done|].
  destruct (ForEach_Done author commits (mkMaps ∅ ∅ ∅)) as [[m [e'|]] ->]; done.
Qed.
End PullFacts.

(** C9.  When the pull answers that the checkout is already up to date,
    [pullRepo] returns no error: the worker logs no warning, and
    [parseRepoLogs] returns what it returns without the flag and what it
    returns for a checkout whose pull succeeded with the same history. *)
Theorem already_up_to_date_is_success
    (ord : MapOrder) (env : Env) (fl : Flags) (dir : directory.t)
    (home : string) (e : error) :
  let repo := directory.repo dir in
  let pulled :=
    mkRepository (history repo) (LogErr repo) (WorktreeErr repo) (Pulled (history repo)) in
  pull fl = true ->
  WorktreeErr repo = None ->
  UserHomeDir env = inr home ->
  NewPublicKeysFromFile env "git" (Join2 (Join2 home ".ssh") "id_rsa") "" = None ->
  PullResult repo = PullFailed e ->
  errors_Is e NoErrAlreadyUpToDate = true ->
  pullRepo env repo = (repo, None)
  /\ (worker ord env fl dir).1 = []
  /\ parseRepoLogs ord env repo true (author fl) (since fl)
     = parseRepoLogs ord env repo false (author fl) (since fl)
  /\ parseRepoLogs ord env repo true (author fl) (since fl)
     = parseRepoLogs ord env pulled true (author fl) (since fl).
Proof.
  intros repo pulled Hf Hw Hh Hk Hp He.
  assert (Hpull : pullRepo env repo = (repo, None))
    by (by apply (pullRepo_up_to_date env repo home e)).
  assert (Hsame : parseRepoLogs ord env repo true (author fl) (since fl)
                  = parseRepoLogs ord env repo false (author fl) (since fl))
    by (by apply parseRepoLogs_synced).
  split; [done|]. split; [|split; [done|]].
  - unfold worker. fold repo. rewrite Hf, Hsame.
    pose proof (parseRepoLogs_no_pullError ord env repo (author fl) (since fl)) as Hno.
    destruct (parseRepoLogs ord env repo false (author fl) (since fl))
      as [[files [[e'|e']|]]|s d]; simpl; try done.
    + by destruct (Hno files e').
    + by destruct (foldl addFile _ files).
  - rewrite Hsame. symmetry.
    rewrite (parseRepoLogs_synced ord env pulled pulled true); [|].
    + by apply parseRepoLogs_same_log.
    + unfold afterPull. by rewrite (pullRepo_pulled env pulled home (history repo)).
Qed.

Lemma already_up_to_date_is_success_witness :
  pullRepo Scenario.env Scenario.repoU = (Scenario.repoU, None)
  /\ (worker keyOrder Scenario.env (Scenario.flags true)
        (unit "/work/U" Scenario.repoU)).1 = [].
Proof.
  pose proof (already_up_to_date_is_success keyOrder Scenario.env (Scenario.flags true)
                (unit "/work/U" Scenario.repoU) "/home/u" NoErrAlreadyUpToDate
                eq_refl eq_refl eq_refl eq_refl eq_refl eq_refl) as (H1 & H2 & _).
  exact (conj H1 H2).
Defined.

(** C8.  After a synchronisation that did not fail (or was not asked for),
    a failure of [repo.Log], and a failure of [commit.Stats] on a commit
    that passes the author filter, make the worker end the process with
    status 1 and one diagnostic, having logged nothing; the pool and the run
    then end the same way, with no report.  In discovery, the one error of
    [git.PlainOpen] after which [visit] goes on is
    [ErrRepositoryNotExists]; any other failure of the walk ends the
    process with status 1. *)
Theorem history_or_statistics_failure_is_fatal
    (ord : MapOrder) (env : Env) (fl : Flags) (u : directory.t) (repo' : Repository) :
  let fatal err :=
    ([], Exit 1 (logLine env ("while parsing repo " +:+ directory.path u
                                +:+ ": " +:+ Error err)))
    : list string * outcome directory.t in
  afterPull env (pull fl) (directory.repo u) = (repo', None) ->
  (forall err,
      Log repo' (Now env - since fl) = inl err ->
      worker ord env fl u = fatal err)
  /\ (forall pre c post err,
         Log repo' (Now env - since fl) = inr (pre ++ c :: post) ->
         Forall (fun c => passes (author fl) c = true ->
                          exists stats, Stats c = inr stats) pre ->
         passes (author fl) c = true ->
         Stats c = inl err ->
         worker ord env fl u = fatal err)
  /\ (forall err units,
         worker ord env fl u = fatal err -> u ∈ units ->
         exists logged d, workers ord env fl units = (logged, Exit 1 d))
  /\ (forall err lstat arrival units,
         worker ord env fl u = fatal err ->
         discover env fl lstat = Done units -> u ∈ arrival units ->
         exists logged d, main ord env fl lstat arrival = (logged, Exit 1 d))
  /\ (forall path name e entries readErr sent,
         visit path (Some (Dir name (inl e) entries readErr)) None sent
         = (sent, if errors_Is e ErrRepositoryNotExists then None else Some (Failed e)))
  /\ (forall d, walkable d = true -> discover env fl (inr d) = Done (roots (dir fl) d))
  /\ (forall d, walkable d = false ->
                exists e, discover env fl (inr d) = Exit 1 (logLine env (Error e)))
  /\ (forall e, discover env fl (inl e) = Exit 1 (logLine env (Error e))).
Proof.
  intros fatal Hpull.
  split; [|split; [|split; [|split; [|split; [|split; [|split]]]]]].
  - intros err Hlog. apply worker_fatal.
    by apply (parseRepoLogs_log_failed ord env _ repo').
  - intros pre c post err Hlog Hpre Hc Hs. apply worker_fatal.
    by apply (parseRepoLogs_stats_failed ord env _ repo' _ _ _ pre c post).
  - intros err units Hw Hin. eapply workers_Exit; [exact Hin | exact Hw].
  - intros err lstat arrival units Hw Hd Hin. unfold main. rewrite Hd.
    destruct (workers_Exit ord env fl (arrival units) u _ _ _ Hin Hw)
      as (logged & d & ->). eauto.
  - intros path name e entries readErr sent. simpl.
    by destruct (errors_Is e ErrRepositoryNotExists).
  - intros d. apply discover_walkable.
  - intros d. apply discover_unwalkable.
  - intros e. apply discover_lstat_failed.
Qed.

Lemma history_or_statistics_failure_is_fatal_witness :
  worker keyOrder Scenario.env (Scenario.flags true) (unit "/work/L" Scenario.repoL)
  = ([], Exit 1 "workedon: while parsing repo /work/L: reference not found")
  /\ worker keyOrder Scenario.env (Scenario.flags false) (unit "/work/S" Scenario.repoS)
     = ([], Exit 1 "workedon: while parsing repo /work/S: object not found").
Proof.
  split.
  - apply (proj1 (history_or_statistics_failure_is_fatal keyOrder Scenario.env
             (Scenario.flags true) (unit "/work/L" Scenario.repoL)
             (mkRepository [] (Some (ErrOther "reference not found")) None (Pulled []))
             eq_refl) (ErrOther "reference not found")).
    reflexivity.
  - apply (proj1 (proj2 (history_or_statistics_failure_is_fatal keyOrder Scenario.env
             (Scenario.flags false) (unit "/work/S" Scenario.repoS) Scenario.repoS eq_refl))
             [Scenario.c2] (mkCommit "alice" "bad" 991 (inl (ErrOther "object not found")))
             [Scenario.c1] (ErrOther "object not found")).
    + reflexivity.
    + repeat constructor. intros _. eexists. reflexivity.
    + reflexivity.
    + reflexivity.
Defined.

(** C1, as the code has it.  Under the pull flag, a repository whose
    synchronisation fails makes the worker log one warning and go on: the
    run is not ended.  The history is not read: the value sent has no
    files, so the report has no row for the repository and is the report of
    the other results. *)
Theorem pull_failure_warns_and_sends_no_files
    (ord : MapOrder) (env : Env) (fl : Flags) (dir : directory.t)
    (repo' : Repository) (e : error) :
  let warning :=
    logLine env ("while pulling repo " +:+ directory.path dir +:+ ": " +:+ Error e) in
  let sent :=
    directory.mk (directory.path dir) (directory.changes dir)
                 (directory.authors dir) (directory.repo dir) [] in
  pull fl = true ->
  pullRepo env (directory.repo dir) = (repo', Some e) ->
  worker ord env fl dir = ([warning], Done sent)
  /\ (forall before after logged1 out1 logged2 out2,
         workers ord env fl before = (logged1, Done out1) ->
         workers ord env fl after = (logged2, Done out2) ->
         workers ord env fl (before ++ dir :: after)
         = (logged1 ++ warning :: logged2, Done (out1 ++ sent :: out2))
         /\ reportResults (out1 ++ sent :: out2) = reportResults (out1 ++ out2)).
Proof.
  intros warning sent Hf Hp.
  assert (Hw : worker ord env fl dir = ([warning], Done sent))
    by (by apply (worker_pull_failed ord env fl dir repo' e)).
  split; [done|].
  intros before after logged1 out1 logged2 out2 H1 H2. split.
  - rewrite (workers_app ord env fl before (dir :: after) logged1 out1 H1).
    simpl. by rewrite Hw, H2.
  - by apply reportResults_drop.
Qed.

Lemma pull_failure_warns_and_sends_no_files_witness :
  worker keyOrder Scenario.env (Scenario.flags true) (unit "/work/B" Scenario.repoB)
  = (["workedon: while pulling repo /work/B: network unreachable"],
     Done (unit "/work/B" Scenario.repoB)).
Proof.
  apply (pull_failure_warns_and_sends_no_files keyOrder Scenario.env (Scenario.flags true)
           (unit "/work/B" Scenario.repoB) Scenario.repoB
           (ErrOther "network unreachable") eq_refl eq_refl).
Defined.

(** C1, as stated, fails: the synchronisation of [repoB] fails, its local
    history has a commit inside the window ([x.txt], twelve lines), and the
    run logs the warning and prints a table with no row for it. *)
Lemma pull_failure_omits_repository :
  pullRepo Scenario.env Scenario.repoB
  = (Scenario.repoB, Some (ErrOther "network unreachable"))
  /\ parseRepoLogs keyOrder Scenario.env Scenario.repoB false "" 100
     = Done ([file.mk "x.txt" 12 ["alice"]], None)
  /\ main keyOrder Scenario.env (Scenario.flags true) (inr Scenario.treeB) id
     = (["workedon: while pulling repo /work/B: network unreachable"], Done [header]).
Proof. repeat split; vm_compute; reflexivity. Qed.

(** ** [insertionSort] *)

Section SortFacts.
Context {A : Type}.
Variable Less : A -> A -> bool.
Implicit Types (x pre post : list A) (v u : A).

Lemma Swap_adjacent pre u v post :
  Swap (pre ++ u :: v :: post) (S (length pre)) (length pre)
  = pre ++ v :: u :: post.
Proof.
  unfold Swap.
  rewrite (lookup_app_r pre _ (S (length pre))) by lia.
  rewrite (lookup_app_r pre _ (length pre)) by lia.
  replace (S (length pre) - length pre)%nat with 1%nat by lia.
  rewrite Nat.sub_diag. simpl.
  rewrite (insert_app_r_alt pre _ (length pre)) by lia.
  rewrite Nat.sub_diag. simpl.
  rewrite (insert_app_r_alt pre _ (S (length pre))) by lia.
  replace (S (length pre) - length pre)%nat with 1%nat by lia.
  reflexivity.
Qed.

Lemma LessAt_adjacent pre u v post :
  LessAt Less (pre ++ u :: v :: post) (S (length pre)) (length pre) = Less v u.
Proof.
  unfold LessAt.
  rewrite (lookup_app_r pre _ (S (length pre))) by lia.
  rewrite (lookup_app_r pre _ (length pre)) by lia.
  replace (S (length pre) - length pre)%nat with 1%nat by lia.
  rewrite Nat.sub_diag. reflexivity.
Qed.

Lemma sink_settle pre v post :
  sink Less (pre ++ v :: post) (length pre)
  = rev (settle Less v (rev pre)) ++ post.
Proof.
  revert post. induction pre as [|u pre IH] using rev_ind; intros post; [done|].
  rewrite length_app, Nat.add_1_r. cbn [sink].
  rewrite <- app_assoc. cbn [app].
  rewrite LessAt_adjacent, Swap_adjacent, rev_unit. cbn [settle].
  destruct (Less v u).
  - rewrite IH. cbn [rev]. by rewrite <- app_assoc.
  - cbn [rev]. by rewrite rev_involutive, <- !app_assoc.
Qed.

Lemma insertionSort_from pre rest :
  foldl (sink Less) (pre ++ rest) (seq (length pre) (length rest))
  = rev (foldl (fun acc v => settle Less v acc) (rev pre) rest).
Proof.
  revert pre. induction rest as [|v rest IH]; intros pre.
  - simpl. by rewrite app_nil_r, rev_involutive.
  - cbn [length seq foldl]. rewrite sink_settle.
    specialize (IH (rev (settle Less v (rev pre)))).
    rewrite length_rev, rev_involutive in IH.
    assert (Hlen : forall l, length (settle Less v l) = S (length l)).
    { induction l as [|u l IHl]; [done|]. simpl. destruct (Less v u); simpl; lia. }
    rewrite Hlen, length_rev in IH. exact IH.
Qed.

(** [insertionSort] inserts the elements one after the other. *)
Lemma insertionSort_settle x :
  insertionSort Less x = rev (foldl (fun acc v => settle Less v acc) [] x).
Proof.
  unfold insertionSort. destruct x as [|a rest]; [done|].
  cbn [length]. rewrite Nat.sub_succ, Nat.sub_0_r.
  apply (insertionSort_from [a] rest).
Qed.

Lemma settle_perm v before : settle Less v before ≡ₚ v :: before.
Proof.
  induction before as [|u rest IH]; [done|]. simpl.
  destruct (Less v u); [|done]. rewrite IH. apply perm_swap.
Qed.

Lemma insertionSort_perm x : insertionSort Less x ≡ₚ x.
Proof.
  rewrite insertionSort_settle, <- Permutation_rev.
  rewrite <- (app_nil_r x) at 2. generalize (@nil A) as acc.
  induction x as [|v x IH]; intros acc; [done|].
  cbn [foldl]. rewrite IH, settle_perm. cbn [app].
  by rewrite Permutation_middle.
Qed.
End SortFacts.

Section RankFacts.
Implicit Types (out : list directory.t) (a b dir : directory.t).

Local Abbreviation less := (Reverse byChanges_Less).
(** The prefix from right to left goes up. *)
Local Abbreviation ascending :=
  (fun a b => directory.changes a <= directory.changes b).

Lemma settle_sorted v before :
  StronglySorted ascending before ->
  StronglySorted ascending (settle less v before).
Proof.
  induction 1 as [|u rest Hrest IH Hu]; [repeat constructor|].
  cbn [settle]. unfold Reverse at 1, byChanges_Less at 1.
  destruct (Z.ltb_spec (directory.changes u) (directory.changes v)).
  - constructor; [exact IH|].
    rewrite settle_perm. constructor; [lia | exact Hu].
  - constructor; [by constructor|].
    constructor; [lia|]. eapply Forall_impl; [exact Hu|]. simpl. intros; lia.
Qed.

Lemma StronglySorted_rev_descending l :
  StronglySorted ascending l -> StronglySorted descending (rev l).
Proof.
  induction 1 as [|u rest Hrest IH Hu]; [constructor|]. cbn [rev].
  apply StronglySorted_app_2; [|exact IH | repeat constructor].
  intros x1 x2 Hx1 Hx2. apply list_elem_of_singleton in Hx2 as ->.
  rewrite <- Permutation_rev in Hx1. unfold descending.
  by apply (proj1 (Forall_forall _ _) Hu).
Qed.

Lemma ranked_perm out : ranked out ≡ₚ directories out.
Proof. apply insertionSort_perm. Qed.

Lemma ranked_sorted out : StronglySorted descending (ranked out).
Proof.
  unfold ranked. rewrite insertionSort_settle.
  apply StronglySorted_rev_descending.
  assert (H : StronglySorted ascending (@nil directory.t)) by constructor.
  revert H. generalize (@nil directory.t) as acc.
  induction (directories out) as [|v l IH]; intros acc Hacc; [done|].
  cbn [foldl]. by apply IH, settle_sorted.
Qed.

Lemma ranked_elem_of out dir :
  dir ∈ ranked out <-> dir ∈ out /\ directory.files dir ≠ [].
Proof.
  rewrite ranked_perm, directories_spec, list_elem_of_filter, kept_files. tauto.
Qed.

(** Two descending lists of the same elements, no two of which have the
    same total, are the same list. *)
Lemma descending_unique l1 l2 :
  (forall a b, a ∈ l1 -> b ∈ l1 ->
               directory.changes a = directory.changes b -> a = b) ->
  l1 ≡ₚ l2 ->
  StronglySorted descending l1 -> StronglySorted descending l2 ->
  l1 = l2.
Proof.
  intros Hinj Hperm Hs1 Hs2.
  apply (StronglySorted_unique_strong descending); [|done..].
  intros x1 x2 Hx1 Hx2 H12 H21. rewrite <- Hperm in Hx2.
  apply Hinj; [done..|]. unfold descending in *. lia.
Qed.

Lemma totalChanges_perm out out' : out' ≡ₚ out -> totalChanges out' = totalChanges out.
Proof.
  intros Hp. rewrite !totalChanges_spec, !directories_spec.
  unfold GoInt.sum. rewrite !(sum_spec 0) by (by vm_compute).
  f_equal. f_equal. apply zsum_perm. by rewrite Hp.
Qed.
End RankFacts.

(** ** The rows of the report *)

(** C2, as the code has it.  The table has, after the header, one row for
    each result that has at least one file, and no row for a result without
    files; the total of a result plays no part in the test. *)
Theorem rows_are_the_results_with_files (out : list directory.t) :
  reportResults out = header :: map (row (totalChanges out)) (ranked out)
  /\ ranked out ≡ₚ filter (fun d => directory.files d ≠ []) out
  /\ (forall dir, dir ∈ ranked out <-> dir ∈ out /\ directory.files dir ≠ []).
Proof.
  split; [reflexivity|]. split.
  - rewrite ranked_perm, directories_spec.
    induction out as [|d out IH]; [done|].
    rewrite !filter_cons. pose proof (kept_files d).
    repeat case_decide; try tauto; by rewrite IH.
  - apply ranked_elem_of.
Qed.

(** C2, as stated, fails: the one commit of [repoR] inside the window is a
    rename, so its result has one file and the total 0, and the table has a
    row for it. *)
Lemma zero_total_has_a_row :
  main keyOrder Scenario.env (Scenario.flags false) (inr Scenario.treeAR) id
  = ([], Done [header;
               mkRow "/work/A" "100% (16)" "alice";
               mkRow "/work/R" " 0% (0)" "carol"]).
Proof. vm_compute. reflexivity. Qed.

(** C4, as the code has it.  The rows follow the totals downwards and are
    the rows of the results with files.  When no two of these have the same
    total, the table is the same for every order of arrival of the same
    results. *)
Theorem report_order_free_without_ties (out out' : list directory.t) :
  out' ≡ₚ out ->
  (forall a b, a ∈ out -> b ∈ out ->
               directory.files a ≠ [] -> directory.files b ≠ [] ->
               directory.changes a = directory.changes b -> a = b) ->
  StronglySorted descending (ranked out)
  /\ ranked out ≡ₚ directories out
  /\ reportResults out' = reportResults out.
Proof.
  intros Hperm Hties.
  split; [apply ranked_sorted|]. split; [apply ranked_perm|].
  unfold reportResults. rewrite (totalChanges_perm out out' Hperm). f_equal. f_equal.
  apply descending_unique; [| |apply ranked_sorted..].
  - intros a b [Ha Hfa]%ranked_elem_of [Hb Hfb]%ranked_elem_of.
    rewrite Hperm in Ha, Hb. by apply Hties.
  - rewrite !ranked_perm, !directories_spec. by rewrite Hperm.
Qed.

Lemma report_order_free_without_ties_witness :
  reportResults [Scenario.resultC; Scenario.resultA]
  = reportResults [Scenario.resultA; Scenario.resultC].
Proof.
  apply (report_order_free_without_ties [Scenario.resultA; Scenario.resultC]
           [Scenario.resultC; Scenario.resultA]).
  - apply perm_swap.
  - intros a b Ha Hb _ _.
    apply elem_of_cons in Ha as [->|Ha]; [|apply list_elem_of_singleton in Ha as ->];
      (apply elem_of_cons in Hb as [->|Hb]; [|apply list_elem_of_singleton in Hb as ->]);
      simpl; intros; (reflexivity || discriminate).
Defined.

(** C4, as stated, fails: two results with the same total are listed in the
    order of their arrival. *)
Lemma report_depends_on_arrival_of_ties :
  [Scenario.resultB; Scenario.resultA] ≡ₚ [Scenario.resultA; Scenario.resultB]
  /\ reportResults [Scenario.resultA; Scenario.resultB]
     = [header; mkRow "/work/A" "50% (14)" "alice"; mkRow "/work/B" "50% (14)" "bob"]
  /\ reportResults [Scenario.resultB; Scenario.resultA]
     = [header; mkRow "/work/B" "50% (14)" "bob"; mkRow "/work/A" "50% (14)" "alice"]
  /\ reportResults [Scenario.resultA; Scenario.resultB]
     ≠ reportResults [Scenario.resultB; Scenario.resultA].
Proof.
  split; [apply perm_swap|]. split; [by vm_compute|]. split; [by vm_compute|].
  vm_compute. discriminate.
Qed.

(** ** The percentage: binary64 arithmetic *)

Section Float.
Implicit Types (N D k m : Z) (mrs : shr_record).

Lemma digits2_bounds (p : positive) :
  2 ^ (Z.pos (digits2_pos p) - 1) <= Z.pos p < 2 ^ Z.pos (digits2_pos p).
Proof.
  induction p as [p IH|p IH|]; cbn [digits2_pos]; [| |lia].
  all: rewrite (Pos2Z.inj_succ (digits2_pos p)), ?(Pos2Z.inj_xI p), ?(Pos2Z.inj_xO p).
  all: replace (Z.succ (Z.pos (digits2_pos p)) - 1)
         with (Z.succ (Z.pos (digits2_pos p) - 1)) by lia.
  all: rewrite !Z.pow_succ_r by lia.
  all: lia.
Qed.

Lemma Zdigits2_bounds m : 0 < m -> 2 ^ (Zdigits2 m - 1) <= m < 2 ^ Zdigits2 m.
Proof. destruct m as [|p|p]; [lia| |lia]. intros _. apply digits2_bounds. Qed.

Lemma Zdigits2_unique m d : 2 ^ (d - 1) <= m < 2 ^ d -> 0 < d -> Zdigits2 m = d.
Proof.
  intros Hm Hd. assert (0 < m) by (pose proof (Z.pow_pos_nonneg 2 (d - 1)); lia).
  pose proof (Zdigits2_bounds m H) as Hb.
  assert (0 < Zdigits2 m) by (destruct m; simpl; lia).
  destruct (Z.lt_trichotomy (Zdigits2 m) d) as [Hlt|[Heq|Hgt]]; [|done|].
  - pose proof (Z.pow_le_mono_r 2 (Zdigits2 m) (d - 1)). lia.
  - pose proof (Z.pow_le_mono_r 2 d (Zdigits2 m - 1)). lia.
Qed.

Lemma located_shr_1 N D k mrs :
  0 < D -> 0 <= k -> located N D k mrs -> located N D (k + 1) (shr_1 mrs).
Proof.
  intros HD Hk. unfold located. rewrite Z.pow_add_r, Z.pow_1_r by lia.
  replace (2 ^ k * 2 * D) with (2 * (2 ^ k * D)) by ring.
  assert (HU : 0 < 2 ^ k * D) by (pose proof (Z.pow_pos_nonneg 2 k); nia).
  generalize dependent (2 ^ k * D). intros U HU.
  destruct mrs as [m r s]. cbn [shr_m shr_r shr_s shr_1].
  destruct m as [|[p|p|]|p]; cbn [shr_m shr_r shr_s]; [| | | |intros [? _]; lia];
    rewrite ?(Pos2Z.inj_xI p), ?(Pos2Z.inj_xO p);
    destruct r, s; cbn [orb]; intros [H0 H]; (split; [lia|]); lia.
Qed.

Lemma located_iter N D (p : positive) : forall k mrs,
  0 < D -> 0 <= k -> located N D k mrs ->
  located N D (k + Z.pos p) (SpecFloat.iter_pos shr_1 p mrs).
Proof.
  induction p as [p IH|p IH|]; intros k mrs HD Hk H; cbn [SpecFloat.iter_pos].
  - replace (k + Z.pos p~1) with (k + 1 + Z.pos p + Z.pos p) by lia.
    apply IH; [done|lia|]. apply IH; [done|lia|]. by apply located_shr_1.
  - replace (k + Z.pos p~0) with (k + Z.pos p + Z.pos p) by lia.
    apply IH; [done|lia|]. by apply IH.
  - by apply located_shr_1.
Qed.

(** The record a location stands for. *)
Lemma located_of_loc N D m l :
  0 <= m -> 0 < D ->
  match l with
  | loc_Exact => N = m * D
  | loc_Inexact Lt => m * D < N /\ 2 * N < (2 * m + 1) * D
  | loc_Inexact Eq => 2 * N = (2 * m + 1) * D
  | loc_Inexact Gt => (2 * m + 1) * D < 2 * N /\ N < (m + 1) * D
  end ->
  located N D 0 (shr_record_of_loc m l).
Proof.
  intros Hm HD H. unfold located. rewrite Z.pow_0_r, Z.mul_1_l.
  destruct l as [|[]]; cbn [shr_record_of_loc shr_m shr_r shr_s]; (split; [lia|]); exact H.
Qed.

(** Rounding to nearest keeps within half a unit. *)
Lemma located_round N D k mrs :
  0 < D -> 0 <= k -> located N D k mrs ->
  let m' := round_nearest_even (shr_m mrs) (loc_of_shr_record mrs) in
  shr_m mrs <= m' <= shr_m mrs + 1
  /\ 2 * Z.abs (m' * (2 ^ k * D) - N) <= 2 ^ k * D
  /\ shr_m mrs * (2 ^ k * D) <= N < (shr_m mrs + 1) * (2 ^ k * D).
Proof.
  intros HD Hk. unfold located.
  assert (HU : 0 < 2 ^ k * D) by (pose proof (Z.pow_pos_nonneg 2 k); nia).
  generalize dependent (2 ^ k * D). intros U HU.
  destruct mrs as [m r s]. cbn [shr_m shr_r shr_s loc_of_shr_record].
  destruct r, s; cbn [round_nearest_even]; intros [H0 H];
    try destruct (Z.even m); (split; [lia|]); split; lia.
Qed.

Lemma shr_located N D mrs e n :
  0 < D -> 0 <= n -> located N D 0 mrs ->
  located N D n (shr mrs e n).1 /\ (shr mrs e n).2 = e + n.
Proof.
  intros HD Hn H. destruct n as [|p|p]; [| |lia]; cbn [shr fst snd].
  - split; [done | lia].
  - split; [|done]. by apply (located_iter N D p 0 mrs).
Qed.

Lemma fexp_normal e : -1074 <= e - 53 -> fexp 53 1024 e = e - 53.
Proof. intros H. unfold fexp, emin. lia. Qed.

(** [binary_round_aux] on a mantissa of 53 bits or more, away from the
    ends of the exponent range: a mantissa of 53 bits, within half a unit
    of the exact number. *)
Lemma binary_round_aux_normal s mx ex lx N D :
  0 < mx -> 0 < D ->
  located N D 0 (shr_record_of_loc mx lx) ->
  53 <= Zdigits2 mx ->
  -1074 <= ex + Zdigits2 mx - 53 <= 970 ->
  exists (m : positive) (e : Z),
    binary_round_aux 53 1024 s mx ex lx = S754_finite s m e
    /\ 2 ^ 52 <= Z.pos m < 2 ^ 53
    /\ ex <= e <= ex + Zdigits2 mx - 52
    /\ 2 * Z.abs (Z.pos m * (2 ^ (e - ex) * D) - N) <= 2 ^ (e - ex) * D.
Proof.
  intros Hmx HD Hloc Hd Hex.
  pose proof (Zdigits2_bounds mx Hmx) as Hmxd.
  set (d := Zdigits2 mx) in *. set (n := d - 53).
  unfold binary_round_aux, shr_fexp. fold d.
  rewrite (fexp_normal (d + ex)) by lia.
  replace (d + ex - 53 - ex) with n by lia.
  destruct (shr_located N D (shr_record_of_loc mx lx) ex n HD ltac:(lia) Hloc)
    as [Hloc1 He1].
  destruct (shr (shr_record_of_loc mx lx) ex n) as [mrs1 e1]. cbn [fst snd] in *.
  subst e1.
  destruct (located_round N D 0 _ HD ltac:(lia) Hloc) as (_ & _ & Hmx0).
  rewrite Z.pow_0_r, Z.mul_1_l in Hmx0.
  replace (shr_m (shr_record_of_loc mx lx)) with mx in Hmx0
    by (by destruct lx as [|[]]).
  destruct (located_round N D n mrs1 HD ltac:(lia) Hloc1) as (Hm2 & Herr & Hm1).
  set (m1 := shr_m mrs1) in *.
  set (m2 := round_nearest_even m1 (loc_of_shr_record mrs1)) in *.
  assert (HP : 0 < 2 ^ n) by (apply Z.pow_pos_nonneg; lia).
  assert (Hpow : 2 ^ d = 2 ^ 53 * 2 ^ n)
    by (rewrite <- Z.pow_add_r by lia; f_equal; lia).
  assert (Hpow' : 2 ^ (d - 1) = 2 ^ 52 * 2 ^ n)
    by (rewrite <- Z.pow_add_r by lia; f_equal; lia).
  assert (Hm1b : 2 ^ 52 <= m1 < 2 ^ 53).
  { rewrite Hpow, Hpow' in Hmxd. generalize dependent (2 ^ n). intros P. intros.
    split.
    - assert (mx * D < (m1 + 1) * (P * D)) by lia.
      assert (mx < (m1 + 1) * P) by nia.
      assert (2 ^ 52 * P < (m1 + 1) * P) by lia.
      assert (2 ^ 52 < m1 + 1) by nia. lia.
    - assert (m1 * (P * D) < (mx + 1) * D) by lia.
      assert (m1 * P < mx + 1) by nia.
      assert (m1 * P < 2 ^ 53 * P) by lia. nia. }
  destruct (Z.eq_dec m2 (2 ^ 53)) as [Hc|Hc].
  - (* the rounding carries into the next binade *)
    rewrite Hc. change (Zdigits2 (2 ^ 53)) with 54.
    rewrite (fexp_normal (54 + (ex + n))) by lia.
    replace (54 + (ex + n) - 53 - (ex + n)) with 1 by lia.
    cbn [shr shr_record_of_loc SpecFloat.iter_pos].
    change (shr_1 {| shr_m := 2 ^ 53; shr_r := false; shr_s := false |})
      with {| shr_m := 2 ^ 52; shr_r := false; shr_s := false |}.
    cbn [shr_m]. change (2 ^ 52) with (Z.pos (2 ^ 52)%positive) at 1.
    cbv iota. rewrite (proj2 (Z.leb_le _ _)) by lia.
    exists (2 ^ 52)%positive, (ex + n + 1). split; [done|].
    split; [done|]. split; [lia|].
    replace (ex + n + 1 - ex) with (n + 1) by lia.
    rewrite Z.pow_add_r, Z.pow_1_r by lia.
    rewrite Hc in Herr. generalize dependent (2 ^ n). intros P. intros.
    change (Z.pos (2 ^ 52)%positive) with (2 ^ 52). lia.
  - assert (Hm2b : 2 ^ 52 <= m2 < 2 ^ 53) by lia.
    rewrite (Zdigits2_unique m2 53) by (done || lia).
    rewrite (fexp_normal (53 + (ex + n))) by lia.
    replace (53 + (ex + n) - 53 - (ex + n)) with 0 by lia.
    cbn [shr shr_record_of_loc shr_m].
    destruct m2 as [|m|m] eqn:Em2; [lia| |lia].
    rewrite (proj2 (Z.leb_le _ _)) by lia.
    exists m, (ex + n). split; [done|]. split; [done|]. split; [lia|].
    replace (ex + n - ex) with n by lia. exact Herr.
Qed.

Lemma binary_round_aux_exact s mx ex :
  2 ^ 52 <= mx < 2 ^ 53 -> -1074 <= ex <= 971 ->
  binary_round_aux 53 1024 s mx ex loc_Exact = S754_finite s (Z.to_pos mx) ex.
Proof.
  intros Hmx Hex. unfold binary_round_aux, shr_fexp.
  rewrite (Zdigits2_unique mx 53) by (done || lia).
  rewrite (fexp_normal (53 + ex)) by lia.
  replace (53 + ex - 53 - ex) with 0 by lia.
  cbn [shr shr_record_of_loc shr_m loc_of_shr_record round_nearest_even].
  rewrite (Zdigits2_unique mx 53) by (done || lia).
  rewrite (fexp_normal (53 + ex)) by lia.
  replace (53 + ex - 53 - ex) with 0 by lia.
  cbn [shr shr_record_of_loc shr_m].
  destruct mx as [|m|m]; [lia| |lia].
  by rewrite (proj2 (Z.leb_le _ _)) by lia.
Qed.

Lemma Zdigits2_range m a b :
  0 <= a -> 2 ^ a <= m < 2 ^ b -> a < Zdigits2 m <= b.
Proof.
  intros Ha Hm. assert (0 < m) by (pose proof (Z.pow_pos_nonneg 2 a); lia).
  pose proof (Zdigits2_bounds m H) as Hb.
  assert (0 < Zdigits2 m) by (destruct m; simpl; lia).
  split.
  - apply (Z.pow_lt_mono_r_iff 2); lia.
  - assert (Zdigits2 m - 1 < b); [|lia].
    apply (Z.pow_lt_mono_r_iff 2); try lia.
    destruct (Z.le_gt_cases 0 b); [done|]. rewrite (Z.pow_neg_r 2 b) in Hm; lia.
Qed.

Lemma iter_xO (d p : positive) : Z.pos (Pos.iter xO p d) = Z.pos p * 2 ^ Z.pos d.
Proof.
  induction d as [|d IH] using Pos.peano_ind.
  - simpl. lia.
  - rewrite Pos.iter_succ, (Pos2Z.inj_xO (Pos.iter xO p d)), IH.
    rewrite (Pos2Z.inj_succ d), Z.pow_succ_r by lia. ring.
Qed.

(** [float64(c)] is [c] for a positive [c] below [2^53]. *)
Lemma of_int_pos c :
  0 < c < 2 ^ 53 ->
  exists m : positive,
    F64.of_int c = S754_finite false m (Zdigits2 c - 53)
    /\ Z.pos m = c * 2 ^ (53 - Zdigits2 c)
    /\ 2 ^ 52 <= Z.pos m < 2 ^ 53.
Proof.
  intros Hc. destruct c as [|p|p]; [lia| |lia].
  pose proof (Zdigits2_bounds (Z.pos p) ltac:(lia)) as Hb.
  destruct (Zdigits2_range (Z.pos p) 0 53 ltac:(lia) ltac:(lia)) as [Hd0 Hd].
  unfold F64.of_int, F64.prec, F64.emax, binary_normalize, binary_round.
  cbn [Zdigits2] in *. set (d := Z.pos (digits2_pos p)) in *.
  rewrite (fexp_normal (d + 0)) by lia.
  assert (Hm : exists mz ez, shl_align p 0 (d + 0 - 53) = (mz, ez)
                /\ ez = d - 53 /\ Z.pos mz = Z.pos p * 2 ^ (53 - d)).
  { unfold shl_align. destruct (d + 0 - 53 - 0) as [|q|q] eqn:E; [|lia|].
    - exists p, 0. replace (53 - d) with 0 by lia. split; [done|]. lia.
    - eexists _, _. split; [done|]. split; [lia|].
      rewrite iter_xO. do 2 f_equal. lia. }
  destruct Hm as (mz & ez & -> & -> & Hmz).
  assert (Hmzb : 2 ^ 52 <= Z.pos mz < 2 ^ 53).
  { rewrite Hmz.
    assert (H52 : 2 ^ 52 = 2 ^ (d - 1) * 2 ^ (53 - d))
      by (rewrite <- Z.pow_add_r by lia; f_equal; lia).
    assert (H53 : 2 ^ 53 = 2 ^ d * 2 ^ (53 - d))
      by (rewrite <- Z.pow_add_r by lia; f_equal; lia).
    rewrite H52, H53.
    assert (0 < 2 ^ (53 - d)) by (apply Z.pow_pos_nonneg; lia).
    nia. }
  rewrite binary_round_aux_exact by (done || lia).
  exists mz. by rewrite Pos2Z.id.
Qed.

(** The location that [SFdiv_core_binary] computes from a remainder. *)
Lemma new_location_spec D r :
  0 < D -> 0 <= r < D ->
  match new_location D r with
  | loc_Exact => r = 0
  | loc_Inexact Lt => 0 < r /\ 2 * r < D
  | loc_Inexact Eq => 2 * r = D
  | loc_Inexact Gt => D < 2 * r
  end.
Proof.
  intros HD Hr. unfold new_location, new_location_even, new_location_odd.
  destruct (Z.even D) eqn:Ev; destruct (Z.eqb_spec r 0) as [|Hr0]; try done.
  - destruct (Z.compare_spec (2 * r) D); lia.
  - assert (Hodd : Z.odd D = true) by (by rewrite <- Z.negb_even, Ev).
    apply Z.odd_spec in Hodd as [k Hk].
    destruct (Z.compare_spec (2 * r + 1) D); lia.
Qed.

Lemma SFdiv_core_53 (m1 m2 : positive) e1 e2 :
  2 ^ 52 <= Z.pos m1 < 2 ^ 53 -> 2 ^ 52 <= Z.pos m2 < 2 ^ 53 ->
  -1074 <= e1 - e2 - 53 ->
  SFdiv_core_binary 53 1024 (Z.pos m1) e1 (Z.pos m2) e2
  = (Z.pos m1 * 2 ^ 53 / Z.pos m2, e1 - e2 - 53,
     new_location (Z.pos m2) ((Z.pos m1 * 2 ^ 53) mod Z.pos m2)).
Proof.
  intros H1 H2 He. unfold SFdiv_core_binary.
  rewrite (Zdigits2_unique (Z.pos m1) 53), (Zdigits2_unique (Z.pos m2) 53)
    by (done || lia).
  cbv zeta.
  rewrite (fexp_normal (53 + e1 - (53 + e2))) by lia.
  replace (53 + e1 - (53 + e2) - 53) with (e1 - e2 - 53) by lia.
  rewrite (Z.min_l (e1 - e2 - 53)) by lia.
  replace (e1 - e2 - (e1 - e2 - 53)) with 53 by lia.
  cbv iota. rewrite Z.shiftl_mul_pow2 by lia.
  unfold Z.div, Z.modulo.
  by destruct (Z.div_eucl (Z.pos m1 * 2 ^ 53) (Z.pos m2)).
Qed.

(** Division of two positive numbers with mantissas of 53 bits. *)
Lemma div_normal (m1 m2 : positive) e1 e2 :
  2 ^ 52 <= Z.pos m1 < 2 ^ 53 -> 2 ^ 52 <= Z.pos m2 < 2 ^ 53 ->
  -1074 <= e1 - e2 - 53 <= 969 ->
  exists (m : positive) (e : Z),
    F64.div (S754_finite false m1 e1) (S754_finite false m2 e2)
    = S754_finite false m e
    /\ 2 ^ 52 <= Z.pos m < 2 ^ 53
    /\ e1 - e2 - 53 <= e <= e1 - e2 - 51
    /\ 2 * Z.abs (Z.pos m * (2 ^ (e - (e1 - e2 - 53)) * Z.pos m2)
                  - Z.pos m1 * 2 ^ 53)
       <= 2 ^ (e - (e1 - e2 - 53)) * Z.pos m2.
Proof.
  intros H1 H2 He. unfold F64.div, F64.prec, F64.emax. cbn [SFdiv xorb].
  rewrite SFdiv_core_53 by (done || lia).
  set (N := Z.pos m1 * 2 ^ 53). set (D := Z.pos m2).
  pose proof (Z.div_mod N D ltac:(lia)) as Hdm.
  pose proof (Z.mod_pos_bound N D ltac:(lia)) as Hr.
  assert (Hq : 2 ^ 52 <= N / D < 2 ^ 54).
  { split.
    - apply Z.div_le_lower_bound; [lia|]. unfold N, D. nia.
    - apply Z.div_lt_upper_bound; [lia|]. unfold N, D.
      change (2 ^ 54) with (2 ^ 53 * 2). nia. }
  destruct (Zdigits2_range (N / D) 52 54 ltac:(lia) Hq) as [Hd1 Hd2].
  destruct (binary_round_aux_normal false (N / D) (e1 - e2 - 53)
              (new_location D (N mod D)) N D) as (m & e & Hr1 & Hr2 & Hr3 & Hr4);
    [lia | lia | | lia | lia |].
  - apply located_of_loc; [lia | lia |].
    pose proof (new_location_spec D (N mod D) ltac:(lia) Hr) as Hl.
    destruct (new_location D (N mod D)) as [|[]]; lia.
  - exists m, e. split; [done|]. split; [done|]. split; [lia|]. exact Hr4.
Qed.

(** Multiplication of two positive numbers with mantissas of 53 bits. *)
Lemma mul_normal (m1 m2 : positive) e1 e2 :
  2 ^ 52 <= Z.pos m1 < 2 ^ 53 -> 2 ^ 52 <= Z.pos m2 < 2 ^ 53 ->
  -1074 <= e1 + e2 + 52 -> e1 + e2 + 53 <= 970 ->
  exists (m : positive) (e : Z),
    F64.mul (S754_finite false m1 e1) (S754_finite false m2 e2)
    = S754_finite false m e
    /\ 2 ^ 52 <= Z.pos m < 2 ^ 53
    /\ e1 + e2 <= e <= e1 + e2 + 54
    /\ 2 * Z.abs (Z.pos m * 2 ^ (e - (e1 + e2)) - Z.pos m1 * Z.pos m2)
       <= 2 ^ (e - (e1 + e2)).
Proof.
  intros H1 H2 He He'. unfold F64.mul, F64.prec, F64.emax. cbn [SFmul xorb].
  rewrite (Pos2Z.inj_mul m1 m2).
  set (N := Z.pos m1 * Z.pos m2).
  assert (HN : 2 ^ 104 <= N < 2 ^ 106).
  { unfold N. change (2 ^ 104) with (2 ^ 52 * 2 ^ 52).
    change (2 ^ 106) with (2 ^ 53 * 2 ^ 53). nia. }
  destruct (Zdigits2_range N 104 106 ltac:(lia) HN) as [Hd1 Hd2].
  destruct (binary_round_aux_normal false N (e1 + e2) loc_Exact N 1)
    as (m & e & Hr1 & Hr2 & Hr3 & Hr4); [lia | lia | | lia | lia |].
  - apply located_of_loc; lia.
  - exists m, e. split; [done|]. split; [done|]. split; [lia|].
    by rewrite !Z.mul_1_r in Hr4.
Qed.

Lemma nearest_even_spec m e :
  0 <= m -> e < 0 ->
  2 * Z.abs (F64.nearest_even m e * 2 ^ (- e) - m) <= 2 ^ (- e).
Proof.
  intros Hm He. unfold F64.nearest_even.
  destruct (Z.leb_spec 0 e); [lia|].
  assert (Hd : 0 < 2 ^ (- e)) by (apply Z.pow_pos_nonneg; lia).
  pose proof (Z.div_mod m (2 ^ (- e)) ltac:(lia)) as Hdm.
  pose proof (Z.mod_pos_bound m (2 ^ (- e)) Hd) as Hr.
  generalize dependent (m mod 2 ^ (- e)). generalize dependent (m / 2 ^ (- e)).
  generalize dependent (2 ^ (- e)). intros d Hd q r Hdm Hr.
  destruct (Z.compare_spec (2 * r) d); try destruct (Z.even q); lia.
Qed.

Lemma of_int_100 :
  F64.of_int 100 = S754_finite false (Z.to_pos (100 * 2 ^ 46)) (-46).
Proof. by vm_compute. Qed.

(** Cancelling a positive factor under the absolute value. *)
Lemma abs_bound_cancel x y K : 0 < K -> 2 * Z.abs (x * K) <= y * K -> 2 * Z.abs x <= y.
Proof. intros HK H. rewrite Z.abs_mul, (Z.abs_eq K) in H by lia. nia. Qed.

(** Two steps of the error analysis, on integers. *)
Lemma scaled_le m c A T :
  0 < T -> 0 < A -> 0 <= c <= T ->
  2 * Z.abs (m * T - c * A) <= T -> m <= A.
Proof.
  intros HT HA Hc H.
  destruct (Z.le_gt_cases m A) as [|Hgt]; [done|]. exfalso.
  assert ((A + 1) * T <= m * T) by (apply Z.mul_le_mono_nonneg_r; lia).
  assert (c * A <= T * A) by (apply Z.mul_le_mono_nonneg_r; lia).
  lia.
Qed.

Lemma scaled_le_100 mr mq A B :
  0 < A -> 0 < B -> 0 <= mq <= A ->
  2 * Z.abs (mr * A - 100 * mq * B) <= A -> mr <= 100 * B.
Proof.
  intros HA HB Hq H.
  destruct (Z.le_gt_cases mr (100 * B)) as [|Hgt]; [done|]. exfalso.
  assert ((100 * B + 1) * A <= mr * A) by (apply Z.mul_le_mono_nonneg_r; lia).
  assert (mq * B <= A * B) by (apply Z.mul_le_mono_nonneg_r; lia).
  lia.
Qed.

Lemma abs_scale x y K : 0 <= K -> 2 * Z.abs x <= y -> 2 * Z.abs (x * K) <= y * K.
Proof.
  intros HK H. rewrite Z.abs_mul, (Z.abs_eq K) by lia.
  rewrite Z.mul_assoc. apply Z.mul_le_mono_nonneg_r; lia.
Qed.

(** The three errors together stay below half a unit of the percentage. *)
Lemma nearest_from_errors p c T mq mr A B :
  0 < T <= 2 ^ 44 -> 2 ^ 52 <= A -> 2 ^ 46 <= B ->
  2 * Z.abs (p * B - mr) <= B ->
  2 * Z.abs (mr * A - 100 * mq * B) <= A ->
  2 * Z.abs (mq * T - c * A) <= T ->
  2 * Z.abs (p * T - 100 * c) <= T.
Proof.
  intros HT HA HB Hu Hv Hw.
  set (u := p * B - mr) in *.
  set (v := mr * A - 100 * mq * B) in *.
  set (w := mq * T - c * A) in *.
  assert (Hid : (p * T - 100 * c) * (A * B) = u * (A * T) + v * T + w * (100 * B))
    by (unfold u, v, w; ring).
  set (X := p * T - 100 * c) in *.
  assert (HAT : 0 <= A * T) by (apply Z.mul_nonneg_nonneg; lia).
  pose proof (abs_scale u B (A * T) HAT Hu) as H1.
  pose proof (abs_scale v A T ltac:(lia) Hv) as H2.
  pose proof (abs_scale w T (100 * B) ltac:(lia) Hw) as H3.
  assert (HAB : 0 < A * B) by (apply Z.mul_pos_pos; lia).
  assert (H4 : 2 * Z.abs (X * (A * B)) <= B * (A * T) + A * T + T * (100 * B))
    by (rewrite Hid; lia).
  assert (H5 : A * T + T * (100 * B) < A * B).
  { assert (A * T <= A * 2 ^ 44) by (apply Z.mul_le_mono_nonneg_l; lia).
    assert (T * (100 * B) <= 2 ^ 44 * (100 * B))
      by (apply Z.mul_le_mono_nonneg_r; lia).
    assert (A * 2 ^ 46 <= A * B) by (apply Z.mul_le_mono_nonneg_l; lia).
    assert (2 ^ 52 * B <= A * B) by (apply Z.mul_le_mono_nonneg_r; lia).
    lia. }
  destruct (Z.le_gt_cases (2 * Z.abs X) T) as [|Hgt]; [done|]. exfalso.
  assert (H6 : (T + 1) * (A * B) <= 2 * Z.abs X * (A * B))
    by (apply Z.mul_le_mono_nonneg_r; lia).
  rewrite Z.abs_mul, (Z.abs_eq (A * B)) in H4 by lia.
  lia.
Qed.


(** The percentage printed for a count [c] out of a total [T], both
    within [2^44]: the nearest whole number to [100 * c / T]. *)
Lemma percentage_nearest c T :
  0 <= c <= T -> 0 < T <= 2 ^ 44 ->
  exists p, F64.round0 (percentage c T) = F64.ShInt false p
            /\ 2 * Z.abs (p * T - 100 * c) <= T.
Proof.
  intros Hc HT. unfold percentage.
  destruct (of_int_pos T ltac:(lia)) as (mT & ET & HmT & HmTb).
  rewrite ET, of_int_100.
  destruct (Z.eq_dec c 0) as [->|Hc0].
  { exists 0. split; [done | lia]. }
  destruct (of_int_pos c ltac:(lia)) as (mc & Ec & Hmc & Hmcb).
  rewrite Ec.
  pose proof (Zdigits2_bounds c ltac:(lia)) as Hbc.
  pose proof (Zdigits2_bounds T ltac:(lia)) as HbT.
  destruct (Zdigits2_range c 0 45 ltac:(lia) ltac:(lia)) as [Hdc0 Hdc].
  destruct (Zdigits2_range T 0 45 ltac:(lia) ltac:(lia)) as [HdT0 HdT].
  set (dc := Zdigits2 c) in *. set (dT := Zdigits2 T) in *.
  assert (Hd : dc <= dT).
  { assert (dc - 1 < dT); [|lia]. apply (Z.pow_lt_mono_r_iff 2); lia. }
  (* the quotient *)
  destruct (div_normal mc mT (dc - 53) (dT - 53) Hmcb HmTb ltac:(lia))
    as (mq & eq & Eq & Hmqb & Heq & HQ).
  rewrite Eq.
  set (gq := - eq). set (A := 2 ^ gq).
  assert (HA : 0 < A) by (apply Z.pow_pos_nonneg; lia).
  assert (HQ' : 2 * Z.abs (Z.pos mq * T - c * A) <= T).
  { set (a := eq - (dc - 53 - (dT - 53) - 53)) in *.
    set (K := 2 ^ a * 2 ^ (53 - dT)).
    assert (HK : 0 < K)
      by (unfold K; apply Z.mul_pos_pos; apply Z.pow_pos_nonneg; lia).
    apply (abs_bound_cancel _ _ K HK).
    assert (HcK : Z.pos mc * 2 ^ 53 = c * A * K).
    { rewrite Hmc. unfold A, K. rewrite <- !Z.mul_assoc. f_equal.
      rewrite <- !Z.pow_add_r by lia. f_equal. lia. }
    rewrite HcK, HmT in HQ.
    replace ((Z.pos mq * T - c * A) * K)
      with (Z.pos mq * (2 ^ a * (T * 2 ^ (53 - dT))) - c * A * K)
      by (unfold K; ring).
    replace (T * K) with (2 ^ a * (T * 2 ^ (53 - dT))) by (unfold K; ring).
    exact HQ. }
  assert (HqA : Z.pos mq <= A) by (apply (scaled_le _ c A T); lia || done).
  assert (Hgq : 52 <= gq) by (apply (Z.pow_le_mono_r_iff 2); lia).
  (* the product with 100 *)
  assert (H100 : Z.pos (Z.to_pos (100 * 2 ^ 46)) = 100 * 2 ^ 46) by (done).
  destruct (mul_normal mq (Z.to_pos (100 * 2 ^ 46)) eq (-46) Hmqb
              ltac:(rewrite H100; lia) ltac:(lia) ltac:(lia))
    as (mr & er & Er & Hmrb & Her & HR).
  rewrite Er. cbn [F64.round0].
  set (gr := - er). set (B := 2 ^ gr).
  assert (Hgr0 : 0 <= gr) by lia.
  assert (HB : 0 < B) by (apply Z.pow_pos_nonneg; lia).
  assert (HR' : 2 * Z.abs (Z.pos mr * A - 100 * Z.pos mq * B) <= A).
  { set (b := er - (eq + -46)) in *.
    apply (abs_bound_cancel _ _ (2 ^ 46) ltac:(lia)).
    assert (HbB : 2 ^ b * B = A * 2 ^ 46).
    { unfold A, B. rewrite <- !Z.pow_add_r by lia. f_equal. lia. }
    rewrite H100 in HR.
    assert (HRB : 2 * Z.abs ((Z.pos mr * 2 ^ b - Z.pos mq * (100 * 2 ^ 46)) * B)
                  <= 2 ^ b * B).
    { rewrite Z.abs_mul, (Z.abs_eq B) by lia. nia. }
    replace ((Z.pos mr * A - 100 * Z.pos mq * B) * 2 ^ 46)
      with ((Z.pos mr * 2 ^ b - Z.pos mq * (100 * 2 ^ 46)) * B)
      by (transitivity (Z.pos mr * (2 ^ b * B) - Z.pos mq * (100 * 2 ^ 46) * B);
          [ring | rewrite HbB; ring]).
    by rewrite <- HbB. }
  assert (HrB : Z.pos mr <= 100 * B)
    by (apply (scaled_le_100 _ (Z.pos mq) A B); lia || done).
  assert (Hgr : 46 <= gr).
  { assert (52 < gr + 7); [|lia]. apply (Z.pow_lt_mono_r_iff 2); [lia|lia|].
    rewrite Z.pow_add_r by lia. fold B. lia. }
  (* the whole number printed *)
  pose proof (nearest_even_spec (Z.pos mr) er ltac:(lia) ltac:(lia)) as HP.
  fold gr in HP. fold B in HP.
  set (p := F64.nearest_even (Z.pos mr) er) in *.
  exists p. split; [done|].
  assert (HA52 : 2 ^ 52 <= A) by (apply Z.pow_le_mono_r; lia).
  assert (HB46 : 2 ^ 46 <= B) by (apply Z.pow_le_mono_r; lia).
  by apply (nearest_from_errors p c T (Z.pos mq) (Z.pos mr) A B).
Qed.
End Float.

(** ** Totals and percentages *)

Section TotalFacts.
Implicit Types (out : list directory.t) (dir : directory.t).

Lemma addFile_sum (files : list file.t) (c0 : Z) (a0 : list string) :
  (foldl addFile (c0, a0) files).1 = GoInt.sum c0 (map file.changes files).
Proof.
  revert c0 a0. induction files as [|f files IH]; intros c0 a0; [done|].
  cbn [foldl map]. unfold addFile at 2. cbn [fst snd]. apply IH.
Qed.

(** With an error come no files. *)
Lemma parseRepoLogs_err_nil ord env repo pull author since files e :
  parseRepoLogs ord env repo pull author since = Done (files, Some e) ->
  files = [].
Proof.
  unfold parseRepoLogs.
  destruct (if pull then pullRepo env repo else (repo, None)) as [repo' [e'|]];
    [by intros [= <- _]|].
  destruct (Log repo' (Now env - since)) as [err|commits]; [by intros [= <- _]|].
  destruct (ForEach_Done author commits (mkMaps ∅ ∅ ∅)) as [[m [e'|]] ->]; simpl;
    [by intros [= <- _] | done].
Qed.

(** The total of a value sent by a worker is the sum of the change counts
    of its files. *)
Lemma worker_total ord env fl path repo logged sent :
  worker ord env fl (unit path repo) = (logged, Done sent) ->
  directory.changes sent
  = GoInt.wrap (GoInt.zsum (map file.changes (directory.files sent))).
Proof.
  unfold worker. cbn [unit directory.repo directory.changes directory.authors].
  destruct (parseRepoLogs_Done ord env repo (pull fl) (author fl) (since fl))
    as [[files err] Hrun]. rewrite Hrun.
  pose proof (addFile_sum files 0 []) as Hsum.
  destruct (foldl addFile (0, []) files) as [ch au]. cbn [fst] in Hsum.
  rewrite (sum_spec 0) in Hsum by (by vm_compute).
  destruct err as [[e|e]|]; intros [= <- <-]; cbn [directory.changes directory.files]; done.
Qed.

Lemma totalChanges_ranked out :
  totalChanges out = GoInt.wrap (GoInt.zsum (map directory.changes (ranked out))).
Proof.
  rewrite totalChanges_spec. unfold GoInt.sum. rewrite (sum_spec 0) by (by vm_compute).
  rewrite Z.add_0_l. f_equal. apply zsum_perm. by rewrite ranked_perm.
Qed.

Lemma zsum_elem_le (xs : list Z) (x : Z) :
  Forall (fun y => 0 <= y) xs -> x ∈ xs -> x <= GoInt.zsum xs.
Proof.
  induction 1 as [|y ys Hy Hys IH]; [by intros ?%elem_of_nil|].
  pose proof (zsum_nonneg ys Hys). simpl. intros [->|Hin]%elem_of_cons; [lia|].
  specialize (IH Hin). lia.
Qed.

Lemma in_range_small z : 0 <= z <= 2 ^ 44 -> GoInt.in_range z.
Proof.
  intros H. unfold GoInt.in_range.
  change GoInt.min_int with (-9223372036854775808).
  change GoInt.max_int with 9223372036854775807. lia.
Qed.
End TotalFacts.

(** C5, as the code has it.  The grand total is the sum, on [int], of the
    totals of the rows, and the total that a worker sends is the sum, on
    [int], of the change counts of its files.  When no total is negative and
    their sum is at most [2^44], the grand total is their sum; if it is not
    zero, each row shows a whole number [p] of percent with
    [|p - 100 * count / total| <= 1/2]. *)
Theorem totals_add_up_and_percentages_round (out : list directory.t) :
  totalChanges out = GoInt.wrap (GoInt.zsum (map directory.changes (ranked out)))
  /\ (forall ord env fl path repo logged sent,
         worker ord env fl (unit path repo) = (logged, Done sent) ->
         directory.changes sent
         = GoInt.wrap (GoInt.zsum (map file.changes (directory.files sent))))
  /\ ((forall d, d ∈ out -> 0 <= directory.changes d) ->
      GoInt.zsum (map directory.changes (ranked out)) <= 2 ^ 44 ->
      totalChanges out = GoInt.zsum (map directory.changes (ranked out))
      /\ (totalChanges out ≠ 0 ->
          forall dir, dir ∈ ranked out ->
            exists p,
              F64.round0 (percentage (directory.changes dir) (totalChanges out))
              = F64.ShInt false p
              /\ 2 * Z.abs (p * totalChanges out - 100 * directory.changes dir)
                 <= totalChanges out
              /\ CHANGES (row (totalChanges out) dir)
                 = F64.pad2 (pretty p) +:+ "% (" +:+ pretty (directory.changes dir)
                   +:+ ")")).
Proof.
  split; [apply totalChanges_ranked|]. split; [apply worker_total|].
  intros Hnn Hsum.
  assert (Hall : Forall (fun y => 0 <= y) (map directory.changes (ranked out))).
  { apply Forall_forall. intros y (d & -> & Hd)%list_elem_of_fmap.
    apply Hnn. by apply ranked_elem_of in Hd as [? _]. }
  pose proof (zsum_nonneg _ Hall) as H0.
  assert (HT : totalChanges out = GoInt.zsum (map directory.changes (ranked out))).
  { rewrite totalChanges_ranked. apply wrap_small, in_range_small. lia. }
  split; [exact HT|]. intros Hne dir Hdir.
  assert (Hc : directory.changes dir <= totalChanges out).
  { rewrite HT. apply zsum_elem_le; [done|]. by apply list_elem_of_fmap_2. }
  assert (Hc0 : 0 <= directory.changes dir)
    by (apply Hnn; by apply ranked_elem_of in Hdir as [? _]).
  destruct (percentage_nearest (directory.changes dir) (totalChanges out))
    as (p & Hp & Hnear); [lia | lia |].
  exists p. split; [done|]. split; [done|].
  unfold row, changesCell, F64.format_2_0f. cbn [CHANGES]. by rewrite Hp.
Qed.

Lemma totals_add_up_and_percentages_round_witness :
  exists p,
    F64.round0 (percentage 14 (totalChanges [Scenario.resultC; Scenario.resultA]))
    = F64.ShInt false p
    /\ 2 * Z.abs (p * 16 - 100 * 14) <= 16.
Proof.
  destruct (proj2 (proj2 (totals_add_up_and_percentages_round
                            [Scenario.resultC; Scenario.resultA])))
    as [_ Hrows].
  - intros d Hd.
    apply elem_of_cons in Hd as [->|Hd]; [|apply list_elem_of_singleton in Hd as ->];
      simpl; lia.
  - vm_compute. discriminate.
  - destruct (Hrows ltac:(vm_compute; discriminate) Scenario.resultA) as (p & Hp & Hn & _).
    + vm_compute. left.
    + exists p. split; [exact Hp | exact Hn].
Defined.

(** C5, as stated, fails.  With a grand total of zero there is a row (the
    result of [repoR], whose one file has a change count of zero) and its
    percentage is not a number; and far above [2^44] the whole number shown
    can be one away from the nearest: 100 * c / T is below 1.5 here, and 2
    is shown. *)
Lemma percentage_of_zero_total_is_NaN :
  main keyOrder Scenario.env (Scenario.flags false) (inr Scenario.treeR) id
  = ([], Done [header; mkRow "/work/R" "NaN% (0)" "carol"])
  /\ F64.round0 (percentage 0 0) = F64.ShNaN
  /\ (let c := 30000000000000001 in
      let T := 2000000000000000067 in
      F64.round0 (percentage c T) = F64.ShInt false 2
      /\ 200 * c < 3 * T
      /\ GoInt.in_range T).
Proof.
  split; [by vm_compute|]. split; [by vm_compute|].
  split; [by vm_compute|]. split; [lia|]. by vm_compute.
Qed.

(** * Further facts *)

(** ** The authors of a file *)

Section GatherFacts.
Implicit Types (f x : string) (vals : list (string * string)) (m : Maps) (c : Commit).

Lemma valuesFor_app f vals vals' :
  valuesFor f (vals ++ vals') = valuesFor f vals ++ valuesFor f vals'.
Proof. unfold valuesFor. by rewrite filter_app, map_app. Qed.

Lemma valuesFor_elem_of f x vals : x ∈ valuesFor f vals <-> (f, x) ∈ vals.
Proof.
  unfold valuesFor. rewrite list_elem_of_fmap. split.
  - intros ([f' x'] & -> & [Hf Hin]%list_elem_of_filter). simpl in *. by subst.
  - intros Hin. exists (f, x). split; [done|]. by apply list_elem_of_filter.
Qed.

Lemma collected_empty : collected [] (∅ : gmap string (list string)).
Proof. intros f. apply lookup_empty. Qed.

Lemma collected_snoc vals (mp : gmap string (list string)) f x :
  collected vals mp ->
  collected (vals ++ [(f, x)]) (<[f := default [] (mp !! f) ++ [x]]> mp).
Proof.
  intros Hm g. rewrite valuesFor_app, lookup_insert.
  unfold valuesFor at 2. rewrite filter_cons, filter_nil. cbn [fst].
  destruct (decide (f = g)) as [Hfg|Hfg];
    destruct (decide ((f, x).1 = g)) as [Hgf|Hgf]; simpl in Hgf; try congruence.
  - subst g. rewrite (Hm f). cbn [map snd].
    by destruct (valuesFor f vals) as [|v vs].
  - rewrite (Hm g). cbn [map]. by rewrite app_nil_r.
Qed.

Lemma eachStat_gathered c A M m stat :
  gathered A M m ->
  exists m', eachStat c m stat = Done m'
             /\ gathered (A ++ [(Name stat, AuthorName c)])
                         (M ++ [(Name stat, firstLine (Message c))]) m'.
Proof.
  intros [HA HM]. unfold eachStat. rewrite parseStat_Done. simpl.
  eexists. split; [reflexivity|]. split; simpl; by apply collected_snoc.
Qed.

Lemma rangeStats_gathered c stats : forall A M m,
  gathered A M m ->
  exists m', rangeStats c m stats = Done m'
             /\ gathered (A ++ map (fun s => (Name s, AuthorName c)) stats)
                         (M ++ map (fun s => (Name s, firstLine (Message c))) stats) m'.
Proof.
  induction stats as [|stat stats IH]; intros A M m Hm; cbn [rangeStats map].
  - exists m. by rewrite !app_nil_r.
  - destruct (eachStat_gathered c A M m stat Hm) as (m' & -> & Hm'). simpl.
    destruct (IH _ _ _ Hm') as (m'' & -> & Hm'').
    exists m''. split; [done|]. by rewrite <- !app_assoc in Hm''.
Qed.

Lemma tagged_cons g c commits :
  tagged g (c :: commits) = map (fun s => (Name s, g c)) (statsOf c) ++ tagged g commits.
Proof. reflexivity. Qed.

Lemma eachCommit_gathered author m c stats A M :
  passes author c = true -> Stats c = inr stats -> gathered A M m ->
  exists m', eachCommit author m c = Done (m', None)
             /\ gathered (A ++ map (fun s => (Name s, AuthorName c)) stats)
                         (M ++ map (fun s => (Name s, firstLine (Message c))) stats) m'.
Proof.
  intros Hp Hs Hm. unfold eachCommit. rewrite eachCommit_filter, Hp, Hs. simpl.
  destruct (rangeStats_gathered c stats A M m Hm) as (m' & -> & Hm'). simpl. eauto.
Qed.

Lemma ForEach_gathered author commits A M m :
  Forall (fun c => passes author c = true -> exists stats, Stats c = inr stats) commits ->
  gathered A M m ->
  exists m', ForEach (eachCommit author) commits m = Done (m', None)
             /\ gathered (A ++ tagged AuthorName (passing author commits))
                         (M ++ tagged (fun c => firstLine (Message c))
                                      (passing author commits)) m'.
Proof.
  intros Hall. revert A M m.
  induction Hall as [|c commits Hc _ IH]; intros A M m Hm; simpl.
  - exists m. split; [done|]. unfold passing, tagged. simpl. by rewrite !app_nil_r.
  - unfold passing. destruct (passes author c) eqn:Hp.
    + destruct (Hc eq_refl) as [stats Hs].
      destruct (eachCommit_gathered author m c stats A M Hp Hs Hm) as (m' & -> & Hm').
      simpl. destruct (IH _ _ _ Hm') as (m'' & -> & Hm'').
      exists m''. split; [done|].
      rewrite filter_cons_True by done. rewrite !tagged_cons.
      unfold statsOf at 1 2. rewrite Hs, !app_assoc. exact Hm''.
    + rewrite eachCommit_skip by done. simpl.
      destruct (IH _ _ _ Hm) as (m'' & -> & Hm'').
      exists m''. split; [done|].
      rewrite filter_cons_False by (rewrite Hp; done). exact Hm''.
Qed.

(** The three maps at the end of the loop over the history, when nothing
    fails. *)
Lemma ForEach_history env repo' author since :
  (forall c, c ∈ qualifying (Now env - since) author repo' ->
             exists stats, Stats c = inr stats) ->
  exists m,
    ForEach (eachCommit author)
            (filter (fun c => within (Now env - since) c = true) (history repo'))
            (mkMaps ∅ ∅ ∅) = Done (m, None)
    /\ counted (concat (map statsOf (qualifying (Now env - since) author repo'))) m
    /\ gathered (tagged AuthorName (qualifying (Now env - since) author repo'))
                (tagged (fun c => firstLine (Message c))
                        (qualifying (Now env - since) author repo')) m.
Proof.
  intros Hstats. set (commits := filter _ (history repo')).
  assert (Hall : Forall (fun c => passes author c = true ->
                                  exists stats, Stats c = inr stats) commits).
  { apply Forall_forall. intros c Hc Hp.
    apply list_elem_of_filter in Hc as [Hw Hc].
    apply Hstats. apply list_elem_of_filter. split; [|done].
    unfold qualifies. by rewrite Hw, Hp. }
  destruct (ForEach_counted author commits [] (mkMaps ∅ ∅ ∅) Hall counted_empty)
    as (m & Hrun & Hcount).
  destruct (ForEach_gathered author commits [] [] (mkMaps ∅ ∅ ∅) Hall)
    as (m' & Hrun' & Hgath).
  { split; apply collected_empty. }
  rewrite Hrun in Hrun'. injection Hrun' as <-.
  exists m. split; [done|]. unfold commits in *.
  rewrite passing_within in Hcount, Hgath. by split.
Qed.
End GatherFacts.

Section UniqMore.
Implicit Types (l ss : list string) (x s : string).

Lemma uniq_fixes_NoDup l : NoDup l -> uniq l = l.
Proof.
  induction l as [|s l IH] using rev_ind; [done|].
  intros [Hl [Hs _]]%NoDup_app. rewrite uniq_snoc.
  case_decide as Hd.
  - exfalso. apply (Hs s Hd). by apply list_elem_of_singleton.
  - by rewrite IH.
Qed.

Lemma uniq_app_uniq l1 l2 : uniq (l1 ++ uniq l2) = uniq (l1 ++ l2).
Proof.
  induction l2 as [|s l2 IH] using rev_ind; [done|].
  rewrite (app_assoc l1 l2 [s]), (uniq_snoc l2 s), (uniq_snoc (l1 ++ l2) s).
  destruct (decide (s ∈ l2)) as [Hd|Hd].
  - rewrite IH. by rewrite decide_True by (apply elem_of_app; by right).
  - rewrite (app_assoc l1 (uniq l2) [s]), uniq_snoc, IH.
    destruct (decide (s ∈ l1 ++ uniq l2)) as [H1|H1];
      destruct (decide (s ∈ l1 ++ l2)) as [H2|H2]; try done.
    all: exfalso; rewrite elem_of_app, uniq_elem_of in H1;
      rewrite elem_of_app in H2; tauto.
Qed.

Lemma uniq_uniq_app l1 l2 : uniq (uniq l1 ++ l2) = uniq (l1 ++ l2).
Proof.
  induction l2 as [|s l2 IH] using rev_ind.
  - rewrite !app_nil_r. apply uniq_fixes_NoDup, uniq_NoDup.
  - rewrite !app_assoc, !uniq_snoc, IH.
    destruct (decide (s ∈ uniq l1 ++ l2)) as [H1|H1];
      destruct (decide (s ∈ l1 ++ l2)) as [H2|H2]; try done.
    all: exfalso; rewrite elem_of_app, uniq_elem_of in H1;
      rewrite elem_of_app in H2; tauto.
Qed.

Lemma uniq_concat_uniq (ls : list (list string)) :
  uniq (concat (map uniq ls)) = uniq (concat ls).
Proof.
  induction ls as [|l ls IH]; [done|]. simpl.
  rewrite uniq_uniq_app, <- uniq_app_uniq, IH, uniq_app_uniq. done.
Qed.

Lemma uniq_constant l x : l ≠ [] -> (forall y, y ∈ l -> y = x) -> uniq l = [x].
Proof.
  intros Hne Hall.
  assert (Hx : x ∈ uniq l).
  { destruct l as [|y l]; [done|]. apply uniq_elem_of.
    rewrite <- (Hall y) by left. left. }
  pose proof (uniq_NoDup l) as Hnd.
  assert (Hall' : forall y, y ∈ uniq l -> y = x).
  { intros y Hy. by apply Hall, uniq_elem_of. }
  destruct (uniq l) as [|a [|b r]].
  - inversion Hx.
  - by rewrite (Hall' a) by left.
  - exfalso. apply NoDup_cons in Hnd as [Ha _]. apply Ha.
    rewrite (Hall' a), <- (Hall' b) by (try left; right; left). left.
Qed.
End UniqMore.

(** X1.  [uniq] leaves a list without repetitions as it is, so applying it
    twice is applying it once; and it absorbs an earlier [uniq] of a part
    of its argument: the authors of a directory, which are joined from the
    lists of its files after [uniq] has been applied to each, give through
    [uniq] what the lists joined as they were would give. *)
Theorem uniq_absorbs_uniq (l1 l2 : list string) (ls : list (list string)) :
  uniq (uniq l1) = uniq l1
  /\ (NoDup l1 -> uniq l1 = l1)
  /\ uniq (l1 ++ uniq l2) = uniq (l1 ++ l2)
  /\ uniq (uniq l1 ++ l2) = uniq (l1 ++ l2)
  /\ uniq (concat (map uniq ls)) = uniq (concat ls).
Proof.
  split; [apply uniq_fixes_NoDup, uniq_NoDup|].
  split; [apply uniq_fixes_NoDup|].
  split; [apply uniq_app_uniq|].
  split; [apply uniq_uniq_app | apply uniq_concat_uniq].
Qed.

Section AuthorFacts.
Variables (ord : MapOrder) (env : Env).
Implicit Types (repo : Repository) (f x author : string) (c : Commit).

Lemma elem_of_concat {A} (x : A) (ls : list (list A)) :
  x ∈ concat ls <-> exists l, x ∈ l /\ l ∈ ls.
Proof.
  induction ls as [|l ls IH]; simpl.
  - split; [intros H; inversion H | intros (l & _ & H); inversion H].
  - rewrite elem_of_app, IH. split.
    + intros [H|(l' & H & Hl')]; [exists l | exists l']; split; try done;
        [left | by right].
    + intros (l' & H & [->|Hl']%elem_of_cons); [by left | right; eauto].
Qed.

Lemma rangeMap_elem_of (mp : gmap string Z) f v :
  (f, v) ∈ rangeMap ord mp <-> mp !! f = Some v.
Proof. rewrite (rangeMap_perm ord mp). apply elem_of_map_to_list. Qed.

(** What [parseRepoLogs] returns when nothing fails, with what the three
    maps hold at the end of the loop. *)
Lemma parseRepoLogs_maps repo pull author since repo' :
  afterPull env pull repo = (repo', None) ->
  LogErr repo' = None ->
  (forall c, c ∈ qualifying (Now env - since) author repo' ->
             exists stats, Stats c = inr stats) ->
  exists m,
    parseRepoLogs ord env repo pull author since
    = Done (map (fun '(f, c) => file.mk f c (uniq (default [] (authorsPerFile m !! f))))
                (rangeMap ord (changesPerFile m)), None)
    /\ counted (concat (map statsOf (qualifying (Now env - since) author repo'))) m
    /\ gathered (tagged AuthorName (qualifying (Now env - since) author repo'))
                (tagged (fun c => firstLine (Message c))
                        (qualifying (Now env - since) author repo')) m.
Proof.
  intros Hpull Hlog Hstats. unfold parseRepoLogs.
  unfold afterPull in Hpull. rewrite Hpull.
  unfold Log. rewrite Hlog.
  destruct (ForEach_history env repo' author since Hstats) as (m & -> & Hc & Hg).
  exists m. done.
Qed.

Lemma collected_default vals (mp : gmap string (list string)) f :
  collected vals mp -> default [] (mp !! f) = valuesFor f vals.
Proof. intros H. rewrite (H f). by destruct (valuesFor f vals). Qed.

Lemma tagged_elem_of g commits f x :
  (f, x) ∈ tagged g commits
  <-> exists c s, c ∈ commits /\ s ∈ statsOf c /\ Name s = f /\ g c = x.
Proof.
  unfold tagged. rewrite elem_of_concat. split.
  - intros (l & Hin & Hl). apply list_elem_of_fmap in Hl as (c & -> & Hc).
    apply list_elem_of_fmap in Hin as (s & [= -> ->] & Hs). eauto 6.
  - intros (c & s & Hc & Hs & <- & <-).
    exists (map (fun s => (Name s, g c)) (statsOf c)). split.
    + apply list_elem_of_fmap. eauto.
    + apply list_elem_of_fmap. eauto.
Qed.

(** A file that has a change count has an entry, hence a value. *)
Lemma valuesFor_touched g commits f v :
  countOf f (concat (map statsOf commits)) = Some v ->
  valuesFor f (tagged g commits) ≠ [].
Proof.
  intros (_ & Hne & _)%countOf_Some Hnil. apply Hne.
  destruct (filter _ (concat _)) as [|s l] eqn:E; [done|]. exfalso.
  assert (Hs : s ∈ filter (fun s => Name s = f) (concat (map statsOf commits)))
    by (rewrite E; left).
  apply list_elem_of_filter in Hs as [Hf Hs].
  apply elem_of_concat in Hs as (l' & Hs & Hl').
  apply list_elem_of_fmap in Hl' as (c & -> & Hc).
  assert (Hin : g c ∈ valuesFor f (tagged g commits)).
  { apply valuesFor_elem_of, tagged_elem_of. eauto 6. }
  rewrite Hnil in Hin. inversion Hin.
Qed.
End AuthorFacts.

(** X2.  When nothing fails, the authors of each aggregate that
    [parseRepoLogs] returns are the author names of the qualifying commits,
    taken once for every statistics entry that names the file, in the
    order of the history, with the repetitions removed by [uniq]; the list
    is never empty. *)
Theorem file_authors_are_the_commit_authors
    (ord : MapOrder) (env : Env) (repo repo' : Repository)
    (pull : bool) (author : string) (since : Z) :
  afterPull env pull repo = (repo', None) ->
  LogErr repo' = None ->
  (forall c, c ∈ qualifying (Now env - since) author repo' ->
             exists stats, Stats c = inr stats) ->
  exists files,
    parseRepoLogs ord env repo pull author since = Done (files, None)
    /\ forall a, a ∈ files ->
         file.authors a
         = uniq (valuesFor (file.path a)
                   (tagged AuthorName (qualifying (Now env - since) author repo')))
         /\ file.authors a ≠ []
         /\ (forall x, x ∈ file.authors a <->
               exists c s, c ∈ qualifying (Now env - since) author repo'
                           /\ s ∈ statsOf c /\ Name s = file.path a
                           /\ AuthorName c = x).
Proof.
  intros Hpull Hlog Hstats.
  destruct (parseRepoLogs_maps ord env repo pull author since repo' Hpull Hlog Hstats)
    as (m & Hrun & Hcount & Hauth & _).
  eexists. split; [exact Hrun|].
  intros a Ha. apply list_elem_of_fmap in Ha as ([f v] & -> & Hfv). simpl.
  apply rangeMap_elem_of in Hfv. rewrite (Hcount f) in Hfv.
  rewrite (collected_default _ _ f Hauth).
  split; [done|]. split.
  - intros Hnil.
    apply (valuesFor_touched AuthorName _ f v Hfv).
    destruct (valuesFor f _) as [|y l] eqn:E; [done|]. exfalso.
    assert (Hy : y ∈ uniq (y :: l)) by (apply uniq_elem_of; left).
    rewrite Hnil in Hy. inversion Hy.
  - intros x. by rewrite uniq_elem_of, valuesFor_elem_of, tagged_elem_of.
Qed.

Lemma file_authors_are_the_commit_authors_witness :
  exists files,
    parseRepoLogs keyOrder Scenario.env Scenario.repoA false "" 100 = Done (files, None)
    /\ forall a, a ∈ files ->
         file.authors a
         = uniq (valuesFor (file.path a)
                   (tagged AuthorName (qualifying 900 "" Scenario.repoA))).
Proof.
  destruct (file_authors_are_the_commit_authors keyOrder Scenario.env Scenario.repoA
              Scenario.repoA false "" 100 eq_refl eq_refl)
    as (files & Hrun & Hall).
  - intros c Hc. apply list_elem_of_filter in Hc as [_ Hc].
    unfold Scenario.repoA, history in Hc.
    repeat (apply elem_of_cons in Hc as [->|Hc]; [eexists; reflexivity|]).
    by apply elem_of_nil in Hc.
  - exists files. split; [exact Hrun|]. intros a Ha. exact (proj1 (Hall a Ha)).
Defined.

(** X3.  With an author filter set and nothing failing, every aggregate
    that [parseRepoLogs] returns has that author as its only author. *)
Theorem author_filter_leaves_one_author
    (ord : MapOrder) (env : Env) (repo repo' : Repository)
    (pull : bool) (author : string) (since : Z) :
  author ≠ "" ->
  afterPull env pull repo = (repo', None) ->
  LogErr repo' = None ->
  (forall c, c ∈ qualifying (Now env - since) author repo' ->
             exists stats, Stats c = inr stats) ->
  exists files,
    parseRepoLogs ord env repo pull author since = Done (files, None)
    /\ forall a, a ∈ files -> file.authors a = [author].
Proof.
  intros Hauthor Hpull Hlog Hstats.
  destruct (parseRepoLogs_maps ord env repo pull author since repo' Hpull Hlog Hstats)
    as (m & Hrun & Hcount & Hauth & _).
  eexists. split; [exact Hrun|].
  intros a Ha. apply list_elem_of_fmap in Ha as ([f v] & -> & Hfv). simpl.
  apply rangeMap_elem_of in Hfv. rewrite (Hcount f) in Hfv.
  rewrite (collected_default _ _ f Hauth).
  apply uniq_constant.
  - exact (valuesFor_touched AuthorName _ f v Hfv).
  - intros y Hy. apply valuesFor_elem_of, tagged_elem_of in Hy
      as (c & s & Hc & _ & _ & <-).
    apply list_elem_of_filter in Hc as [Hq _].
    unfold qualifies, passes in Hq.
    apply andb_true_iff in Hq as [_ Hq]. apply orb_true_iff in Hq as [Hq|Hq].
    + by apply bool_decide_eq_true in Hq.
    + by apply bool_decide_eq_true in Hq.
Qed.

Lemma author_filter_leaves_one_author_witness :
  exists files,
    parseRepoLogs keyOrder Scenario.env Scenario.repoA false "alice" 2000
    = Done (files, None)
    /\ forall a, a ∈ files -> file.authors a = ["alice"].
Proof.
  apply (author_filter_leaves_one_author keyOrder Scenario.env Scenario.repoA
           Scenario.repoA false "alice" 2000); [done|reflexivity|reflexivity|].
  intros c Hc. apply list_elem_of_filter in Hc as [_ Hc].
  unfold Scenario.repoA, history in Hc.
  repeat (apply elem_of_cons in Hc as [->|Hc]; [eexists; reflexivity|]).
  by apply elem_of_nil in Hc.
Defined.

(** ** The pool of workers *)

Section PoolFacts.
Variables (ord : MapOrder) (env : Env) (fl : Flags).
Implicit Types (u dir : directory.t) (repo : Repository) (units out : list directory.t).

Lemma parseRepoLogs_pullError repo pull author since files e :
  parseRepoLogs ord env repo pull author since = Done (files, Some (pullError e))
  <-> pull = true /\ (pullRepo env repo).2 = Some e /\ files = [].
Proof.
  split.
  - destruct pull.
    + unfold parseRepoLogs. destruct (pullRepo env repo) as [repo' [e'|]]; simpl.
      * by intros [= <- <-].
      * destruct (Log repo' (Now env - since)) as [err|commits]; [done|].
        destruct (ForEach_Done author commits (mkMaps ∅ ∅ ∅)) as [[m [e'|]] ->]; done.
    + intros H. by destruct (parseRepoLogs_no_pullError ord env repo author since files e).
  - intros (-> & He & ->). destruct (pullRepo env repo) as [repo' e'] eqn:E.
    simpl in He. subst e'. by apply (parseRepoLogs_pull_failed ord env repo repo').
Qed.

(** A worker that sends a value sends the unit it took, with the files read,
    and has logged the warning of the unit, if it has one. *)
Lemma worker_Done u logged d :
  worker ord env fl u = (logged, Done d) ->
  directory.path d = directory.path u
  /\ directory.repo d = directory.repo u
  /\ logged = option_list (warning env fl u)
  /\ (is_Some (warning env fl u) -> d = untouched u).
Proof.
  unfold worker, warning.
  destruct (parseRepoLogs ord env (directory.repo u) (pull fl) (author fl) (since fl))
    as [[files [[e|e]|]]|s d'] eqn:Hrun; [| |shelve|]; try done.
  - apply parseRepoLogs_pullError in Hrun as (-> & -> & ->). simpl.
    intros [= <- <-]. done.
  Unshelve.
  destruct (foldl addFile _ files) as [ch au]. intros [= <- <-]. simpl.
  do 2 (split; [done|]).
  destruct (pull fl) eqn:Hf; [|split; [done | by intros [? ?]]].
  destruct (pullRepo env (directory.repo u)) as [repo' [e|]] eqn:E; simpl;
    [|split; [done | by intros [? ?]]].
  rewrite (parseRepoLogs_pull_failed ord env _ repo' e) in Hrun by done. done.
Qed.


Lemma pullRepo_keyError repo err :
  WorktreeErr repo = None -> keyError env = Some err ->
  pullRepo env repo = (repo, Some err).
Proof.
  unfold keyError, pullRepo. intros ->.
  destruct (UserHomeDir env) as [e|home]; [by intros [= ->]|]. by intros ->.
Qed.
End PoolFacts.

(** X5.  Under the pull flag, when the home directory or the private key
    cannot be had, the synchronisation of every repository with a work tree
    fails with that error before any pull is tried: the pool logs one
    warning for each unit, no worker exits, no history is read, and the
    report is the header alone. *)
Theorem missing_key_fails_every_pull
    (ord : MapOrder) (env : Env) (fl : Flags) (units : list directory.t) (err : error) :
  pull fl = true ->
  keyError env = Some err ->
  Forall (fun u => WorktreeErr (directory.repo u) = None) units ->
  workers ord env fl units
  = (map (fun u => pullWarning env u err) units, Done (map untouched units))
  /\ reportResults (map untouched units) = [header].
Proof.
  intros Hf Hk Hall. split.
  - induction Hall as [|u units Hu _ IH]; [done|]. simpl.
    rewrite (worker_pull_failed ord env fl u (directory.repo u) err Hf)
      by (by apply pullRepo_keyError).
    rewrite IH. reflexivity.
  - unfold reportResults, ranked. rewrite directories_spec.
    replace (filter _ (map untouched units)) with (@nil directory.t); [done|].
    clear. induction units as [|u units IH]; [done|]. simpl.
    rewrite filter_cons. by case_decide.
Qed.

Lemma missing_key_fails_every_pull_witness :
  workers keyOrder
          (mkEnv "workedon" 1000 (inl (ErrOther "$HOME is not defined"))
                 (fun _ _ _ => None))
          (Scenario.flags true)
          [unit "/work/A" Scenario.repoA; unit "/work/R" Scenario.repoR]
  = (["workedon: while pulling repo /work/A: $HOME is not defined";
      "workedon: while pulling repo /work/R: $HOME is not defined"],
     Done [untouched (unit "/work/A" Scenario.repoA);
           untouched (unit "/work/R" Scenario.repoR)]).
Proof.
  apply (missing_key_fails_every_pull keyOrder
           (mkEnv "workedon" 1000 (inl (ErrOther "$HOME is not defined"))
                  (fun _ _ _ => None))
           (Scenario.flags true)
           [unit "/work/A" Scenario.repoA; unit "/work/R" Scenario.repoR]
           (ErrOther "$HOME is not defined")); [reflexivity|reflexivity|].
  repeat constructor.
Defined.

Section FrameFacts.
Variables (ord : MapOrder) (env env' : Env) (fl : Flags).
Hypothesis Hpull : pull fl = false.
Hypothesis Hargs : Args0 env = Args0 env'.
Hypothesis Hnow : Now env = Now env'.

Lemma parseRepoLogs_without_pull repo author since :
  parseRepoLogs ord env repo false author since
  = parseRepoLogs ord env' repo false author since.
Proof using Hnow. unfold parseRepoLogs. by rewrite Hnow. Qed.

Lemma worker_without_pull u : worker ord env fl u = worker ord env' fl u.
Proof using Hpull Hargs Hnow.
  unfold worker, logLine. by rewrite Hpull, parseRepoLogs_without_pull, Hargs.
Qed.

Lemma workers_without_pull units : workers ord env fl units = workers ord env' fl units.
Proof using Hpull Hargs Hnow.
  induction units as [|u units IH]; [done|]. simpl.
  by rewrite worker_without_pull, IH.
Qed.

Lemma discover_same_prefix lstat : discover env fl lstat = discover env' fl lstat.
Proof using Hargs. unfold discover, logLine. by rewrite Hargs. Qed.
End FrameFacts.

(** X6.  Without the pull flag a run reads neither the home directory nor
    the private key: two environments with the same program name and the
    same clock give the same log and the same report, whatever their home
    directory and key loader are. *)
Theorem without_pull_no_credentials
    (ord : MapOrder) (env env' : Env) (fl : Flags) (lstat : error + Entry)
    (arrival : list directory.t -> list directory.t) :
  pull fl = false ->
  Args0 env = Args0 env' ->
  Now env = Now env' ->
  main ord env fl lstat arrival = main ord env' fl lstat arrival.
Proof.
  intros Hf Ha Hn. unfold main.
  rewrite (discover_same_prefix env env' fl Ha).
  destruct (discover env' fl lstat) as [units|s d]; [|done].
  by rewrite (workers_without_pull ord env env' fl Hf Ha Hn).
Qed.

Lemma without_pull_no_credentials_witness :
  main keyOrder Scenario.env (Scenario.flags false) (inr Scenario.treeAR) id
  = main keyOrder
         (mkEnv "workedon" 1000 (inl (ErrOther "$HOME is not defined"))
                (fun _ _ _ => Some (ErrOther "no such file")))
         (Scenario.flags false) (inr Scenario.treeAR) id.
Proof.
  apply (without_pull_no_credentials keyOrder Scenario.env
           (mkEnv "workedon" 1000 (inl (ErrOther "$HOME is not defined"))
                  (fun _ _ _ => Some (ErrOther "no such file")))
           (Scenario.flags false) (inr Scenario.treeAR) id);
    reflexivity.
Defined.

(** ** The authors of a directory *)

Section DirectoryAuthors.
Variables (ord : MapOrder) (env : Env).

Lemma addFile_authors (files : list file.t) (c0 : Z) (a0 : list string) :
  (foldl addFile (c0, a0) files).2 = a0 ++ concat (map file.authors files).
Proof.
  revert c0 a0. induction files as [|f files IH]; intros c0 a0; simpl.
  - by rewrite app_nil_r.
  - unfold addFile at 2. cbn [fst snd]. by rewrite IH, app_assoc.
Qed.

(** The aggregates that [parseRepoLogs] returns when nothing fails: one for
    each file with a change count. *)
Lemma parseRepoLogs_files repo pull author since repo' :
  afterPull env pull repo = (repo', None) ->
  LogErr repo' = None ->
  (forall c, c ∈ qualifying (Now env - since) author repo' ->
             exists stats, Stats c = inr stats) ->
  exists files,
    parseRepoLogs ord env repo pull author since = Done (files, None)
    /\ forall a, a ∈ files <->
         exists v,
           countOf (file.path a)
                   (concat (map statsOf (qualifying (Now env - since) author repo')))
           = Some v
           /\ a = file.mk (file.path a) v
                    (uniq (valuesFor (file.path a)
                             (tagged AuthorName
                                (qualifying (Now env - since) author repo')))).
Proof.
  intros Hpull Hlog Hstats.
  destruct (parseRepoLogs_maps ord env repo pull author since repo' Hpull Hlog Hstats)
    as (m & Hrun & Hcount & Hauth & _).
  eexists. split; [exact Hrun|].
  intros a. rewrite list_elem_of_fmap. split.
  - intros ([f v] & -> & Hfv). simpl.
    apply rangeMap_elem_of in Hfv. rewrite (Hcount f) in Hfv.
    exists v. by rewrite (collected_default _ _ f Hauth).
  - intros (v & Hv & Ha). exists (file.path a, v). split.
    + by rewrite (collected_default _ _ _ Hauth).
    + apply rangeMap_elem_of. by rewrite (Hcount (file.path a)).
Qed.
End DirectoryAuthors.

(** X7.  When nothing fails, the names that the AUTHORS cell of a
    directory lists (the authors of the value the worker sends, through
    [uniq]) are the authors of the qualifying commits that have a
    statistics entry with a non-empty path, each once: a qualifying commit
    without such an entry credits nobody. *)
Theorem directory_authors_are_the_credited_authors
    (ord : MapOrder) (env : Env) (fl : Flags) (path : string)
    (repo repo' : Repository) :
  afterPull env (pull fl) repo = (repo', None) ->
  LogErr repo' = None ->
  (forall c, c ∈ qualifying (Now env - since fl) (author fl) repo' ->
             exists stats, Stats c = inr stats) ->
  exists sent,
    worker ord env fl (unit path repo) = ([], Done sent)
    /\ NoDup (uniq (directory.authors sent))
    /\ forall x, x ∈ uniq (directory.authors sent) <->
         exists c s, c ∈ qualifying (Now env - since fl) (author fl) repo'
                     /\ s ∈ statsOf c /\ Name s ≠ "" /\ AuthorName c = x.
Proof.
  intros Hpull Hlog Hstats.
  destruct (parseRepoLogs_files ord env repo (pull fl) (author fl) (since fl) repo'
              Hpull Hlog Hstats) as (files & Hrun & Hfiles).
  exists (sentFor (unit path repo) files). split; [by apply worker_parsed|].
  split; [apply uniq_NoDup|].
  intros x. rewrite uniq_elem_of. unfold sentFor. cbn [directory.authors unit].
  rewrite addFile_authors, app_nil_l, elem_of_concat. split.
  - intros (l & Hx & Hl). apply list_elem_of_fmap in Hl as (a & -> & Ha).
    apply Hfiles in Ha as (v & Hv & Ha). rewrite Ha in Hx. cbn [file.authors] in Hx.
    apply uniq_elem_of, valuesFor_elem_of, tagged_elem_of in Hx
      as (c & s & Hc & Hs & Hn & Hau).
    apply countOf_Some in Hv as (Hne & _). exists c, s.
    repeat split; try done. congruence.
  - intros (c & s & Hc & Hs & Hn & Hau).
    set (L := concat (map statsOf (qualifying (Now env - since fl) (author fl) repo'))).
    set (T := tagged AuthorName (qualifying (Now env - since fl) (author fl) repo')).
    set (v := GoInt.wrap (GoInt.zsum (amounts (filter (fun s' => Name s' = Name s) L)))).
    set (a := file.mk (Name s) v (uniq (valuesFor (Name s) T))).
    exists (file.authors a). split.
    + unfold a. cbn [file.authors].
      apply uniq_elem_of, valuesFor_elem_of, tagged_elem_of. eauto 6.
    + apply list_elem_of_fmap. exists a. split; [done|].
      apply Hfiles. exists v. split; [|done].
      apply countOf_Some. split; [done|]. split; [|done].
      assert (Hin : s ∈ filter (fun s' => Name s' = Name s) L).
      { apply list_elem_of_filter. split; [done|].
        apply elem_of_concat. exists (statsOf c). split; [done|].
        apply list_elem_of_fmap. eauto. }
      intros Hnil. change (filter (fun s' => Name s' = Name s) L = []) in Hnil.
      rewrite Hnil in Hin. inversion Hin.
Qed.

Lemma directory_authors_are_the_credited_authors_witness :
  exists sent,
    worker keyOrder Scenario.env (Scenario.flags false) (unit "/work/A" Scenario.repoA)
    = ([], Done sent)
    /\ NoDup (uniq (directory.authors sent)).
Proof.
  destruct (directory_authors_are_the_credited_authors keyOrder Scenario.env
              (Scenario.flags false) "/work/A" Scenario.repoA Scenario.repoA
              eq_refl eq_refl)
    as (sent & Hrun & Hnd & _).
  - intros c Hc. apply list_elem_of_filter in Hc as [_ Hc].
    unfold Scenario.repoA, history in Hc.
    repeat (apply elem_of_cons in Hc as [->|Hc]; [eexists; reflexivity|]).
    by apply elem_of_nil in Hc.
  - exists sent. split; [exact Hrun | exact Hnd].
Defined.

(** ** A wider window, a weaker filter *)

Section Widening.
Implicit Types (c : Commit) (repo : Repository).

Lemma qualifying_widen t1 t2 author1 author2 repo c :
  t2 <= t1 -> author2 = author1 \/ author2 = "" ->
  c ∈ qualifying t1 author1 repo -> c ∈ qualifying t2 author2 repo.
Proof.
  intros Ht Ha. unfold qualifying. rewrite !list_elem_of_filter.
  intros [Hq Hc]. split; [|done]. unfold qualifies, within, passes in *.
  apply andb_true_iff in Hq as [Hw Hp]. apply andb_true_iff. split.
  - apply negb_true_iff in Hw. apply negb_true_iff.
    apply Z.ltb_ge in Hw. apply Z.ltb_ge. lia.
  - destruct Ha as [->| ->]; [done|]. by rewrite bool_decide_eq_true_2.
Qed.

Lemma countOf_elem_of f L :
  is_Some (countOf f L) <-> f ≠ "" /\ exists s, s ∈ L /\ Name s = f.
Proof.
  split.
  - intros [v (Hf & Hne & _)%countOf_Some]. split; [done|].
    destruct (filter _ L) as [|s l] eqn:E; [done|].
    assert (Hs : s ∈ filter (fun s => Name s = f) L) by (rewrite E; left).
    apply list_elem_of_filter in Hs as [? ?]. eauto.
  - intros (Hf & s & Hs & Hn). eexists. apply countOf_Some.
    split; [done|]. split; [|done]. intros Hnil.
    assert (Hin : s ∈ filter (fun s => Name s = f) L) by (by apply list_elem_of_filter).
    rewrite Hnil in Hin. inversion Hin.
Qed.

Lemma statsOf_elem_of (commits : list Commit) s :
  s ∈ concat (map statsOf commits) <-> exists c, c ∈ commits /\ s ∈ statsOf c.
Proof.
  rewrite elem_of_concat. split.
  - intros (l & Hs & (c & -> & Hc)%list_elem_of_fmap). eauto.
  - intros (c & Hc & Hs). exists (statsOf c). split; [done|].
    apply list_elem_of_fmap. eauto.
Qed.
End Widening.

(** X13.  A wider window, or no author filter in place of one, loses no
    file: when nothing fails, every aggregate of the narrower run has an
    aggregate with the same path in the wider run, whose authors include
    its authors. *)
Theorem wider_run_keeps_every_file
    (ord : MapOrder) (env : Env) (repo repo' : Repository) (pull : bool)
    (author1 author2 : string) (since1 since2 : Z) :
  since1 <= since2 ->
  author2 = author1 \/ author2 = "" ->
  afterPull env pull repo = (repo', None) ->
  LogErr repo' = None ->
  (forall c, c ∈ qualifying (Now env - since2) author2 repo' ->
             exists stats, Stats c = inr stats) ->
  exists files1 files2,
    parseRepoLogs ord env repo pull author1 since1 = Done (files1, None)
    /\ parseRepoLogs ord env repo pull author2 since2 = Done (files2, None)
    /\ forall a1, a1 ∈ files1 ->
         exists a2, a2 ∈ files2
                    /\ file.path a2 = file.path a1
                    /\ forall x, x ∈ file.authors a1 -> x ∈ file.authors a2.
Proof.
  intros Hs Ha Hpull Hlog Hstats.
  assert (Hsub : forall c, c ∈ qualifying (Now env - since1) author1 repo' ->
                           c ∈ qualifying (Now env - since2) author2 repo').
  { intros c. apply qualifying_widen; [lia | done]. }
  destruct (parseRepoLogs_files ord env repo pull author1 since1 repo' Hpull Hlog)
    as (files1 & Hrun1 & Hfiles1); [by eauto|].
  destruct (parseRepoLogs_files ord env repo pull author2 since2 repo' Hpull Hlog Hstats)
    as (files2 & Hrun2 & Hfiles2).
  exists files1, files2. split; [done|]. split; [done|].
  intros a1 Ha1. apply Hfiles1 in Ha1 as (v1 & Hv1 & Ea1).
  assert (Hsome : is_Some (countOf (file.path a1)
            (concat (map statsOf (qualifying (Now env - since2) author2 repo'))))).
  { apply countOf_elem_of.
    destruct (proj1 (countOf_elem_of _ _) (mk_is_Some _ _ Hv1)) as (Hf & s & Hin & Hn).
    split; [done|]. exists s. split; [|done].
    apply statsOf_elem_of in Hin as (c & Hc & Hin). apply statsOf_elem_of. eauto. }
  destruct Hsome as [v2 Hv2].
  exists (file.mk (file.path a1) v2
            (uniq (valuesFor (file.path a1)
                     (tagged AuthorName
                        (qualifying (Now env - since2) author2 repo'))))).
  split; [|split; [done|]].
  - apply Hfiles2. exists v2. split; [exact Hv2 | reflexivity].
  - intros x. rewrite Ea1. cbn [file.authors file.path].
    rewrite !uniq_elem_of, !valuesFor_elem_of, !tagged_elem_of.
    intros (c & s & Hc & Hrest). exists c, s. split; [by apply Hsub | done].
Qed.

Lemma wider_run_keeps_every_file_witness :
  exists files1 files2,
    parseRepoLogs keyOrder Scenario.env Scenario.repoA false "alice" 8 = Done (files1, None)
    /\ parseRepoLogs keyOrder Scenario.env Scenario.repoA false "" 2000
       = Done (files2, None)
    /\ forall a1, a1 ∈ files1 ->
         exists a2, a2 ∈ files2
                    /\ file.path a2 = file.path a1
                    /\ forall x, x ∈ file.authors a1 -> x ∈ file.authors a2.
Proof.
  apply (wider_run_keeps_every_file keyOrder Scenario.env Scenario.repoA Scenario.repoA
           false "alice" "" 8 2000); [lia | by right | reflexivity | reflexivity |].
  intros c Hc. apply list_elem_of_filter in Hc as [_ Hc].
  unfold Scenario.repoA, history in Hc.
  repeat (apply elem_of_cons in Hc as [->|Hc]; [eexists; reflexivity|]).
  by apply elem_of_nil in Hc.
Defined.

(** ** The order of the map *)

Section MapOrderFacts.
Variables (ord1 ord2 : MapOrder) (env : Env).

Lemma parseRepoLogs_order repo pull author since :
  exists files1 files2 err,
    parseRepoLogs ord1 env repo pull author since = Done (files1, err)
    /\ parseRepoLogs ord2 env repo pull author since = Done (files2, err)
    /\ files1 ≡ₚ files2.
Proof.
  unfold parseRepoLogs.
  destruct (if pull then pullRepo env repo else (repo, None)) as [repo' [e|]];
    [by exists [], [], (Some (pullError e))|].
  destruct (Log repo' (Now env - since)) as [err|commits];
    [by exists [], [], (Some (otherError err))|].
  destruct (ForEach_Done author commits (mkMaps ∅ ∅ ∅)) as [[m [e|]] ->]; simpl.
  - by exists [], [], (Some (otherError e)).
  - eexists _, _, None. split; [done|]. split; [done|].
    apply Permutation_map. by rewrite !rangeMap_perm.
Qed.
End MapOrderFacts.

(** X17.  The order in which Go ranges over the map of change counts
    decides the order of the files of a result and nothing else: for two
    orders, a worker logs the same lines and exits alike, or sends values
    with the same path, the same total, the same files up to their order
    and the same authors up to their order. *)
Theorem map_order_changes_only_the_order
    (ord1 ord2 : MapOrder) (env : Env) (fl : Flags) (path : string) (repo : Repository) :
  match worker ord1 env fl (unit path repo), worker ord2 env fl (unit path repo) with
  | (logged1, Done sent1), (logged2, Done sent2) =>
      logged1 = logged2
      /\ directory.path sent1 = directory.path sent2
      /\ directory.changes sent1 = directory.changes sent2
      /\ directory.files sent1 ≡ₚ directory.files sent2
      /\ directory.authors sent1 ≡ₚ directory.authors sent2
      /\ kept sent1 = kept sent2
  | (logged1, Exit s1 d1), (logged2, Exit s2 d2) =>
      logged1 = logged2 /\ s1 = s2 /\ d1 = d2
  | _, _ => False
  end.
Proof.
  unfold worker. cbn [unit directory.repo directory.path directory.changes
                      directory.authors].
  destruct (parseRepoLogs_order ord1 ord2 env repo (pull fl) (author fl) (since fl))
    as (files1 & files2 & err & -> & -> & Hperm).
  pose proof (addFile_sum files1 0 []) as Hs1.
  pose proof (addFile_sum files2 0 []) as Hs2.
  pose proof (addFile_authors files1 0 []) as Ha1.
  pose proof (addFile_authors files2 0 []) as Ha2.
  destruct (foldl addFile (0, []) files1) as [ch1 au1].
  destruct (foldl addFile (0, []) files2) as [ch2 au2].
  cbn [fst snd] in *. subst.
  assert (Hch : GoInt.sum 0 (map file.changes files1)
                = GoInt.sum 0 (map file.changes files2)).
  { rewrite !(sum_spec 0) by (by vm_compute). do 2 f_equal.
    apply zsum_perm. by rewrite Hperm. }
  assert (Hau : concat (map file.authors files1) ≡ₚ concat (map file.authors files2)).
  { clear Hch. induction Hperm as [|f l l' _ IH|f g l|l l' l'' _ IH1 _ IH2]; simpl.
    - done.
    - by rewrite IH.
    - rewrite !app_assoc. f_equiv. apply Permutation_app_comm.
    - by rewrite IH1. }
  assert (Hk : forall p r a b,
             kept (directory.mk p (GoInt.sum 0 (map file.changes files1)) a r files1)
             = kept (directory.mk p (GoInt.sum 0 (map file.changes files2)) b r files2)).
  { intros. unfold kept. cbn [directory.files]. by rewrite (Permutation_length Hperm). }
  destruct err as [[e|e]|]; cbn [app]; repeat split; try done; by rewrite ?Hch.
Qed.

(** ** The percentages of a report *)

Section PercentFacts.

Lemma nearest_bounds p c T :
  0 <= c <= T -> 0 < T -> 2 * Z.abs (p * T - 100 * c) <= T -> 0 <= p <= 100.
Proof.
  intros Hc HT Hn. split.
  - destruct (Z_lt_le_dec p 0) as [Hp|Hp]; [|done]. exfalso.
    assert (p * T <= -1 * T) by (apply Z.mul_le_mono_nonneg_r; lia). lia.
  - destruct (Z_lt_le_dec 100 p) as [Hp|Hp]; [|done]. exfalso.
    assert (101 * T <= p * T) by (apply Z.mul_le_mono_nonneg_r; lia). lia.
Qed.

Lemma nearest_mono p1 p2 c1 c2 T :
  0 < T -> c1 < c2 ->
  2 * Z.abs (p1 * T - 100 * c1) <= T ->
  2 * Z.abs (p2 * T - 100 * c2) <= T ->
  p1 <= p2.
Proof.
  intros HT Hc H1 H2.
  destruct (Z_lt_le_dec p2 p1) as [Hp|Hp]; [|done]. exfalso.
  assert ((p2 + 1) * T <= p1 * T) by (apply Z.mul_le_mono_nonneg_r; lia). lia.
Qed.

Lemma nearest_all p T : 0 < T -> 2 * Z.abs (p * T - 100 * T) <= T -> p = 100.
Proof.
  intros HT Hn.
  destruct (Z_lt_le_dec p 100) as [Hp|Hp].
  - exfalso. assert (p * T <= 99 * T) by (apply Z.mul_le_mono_nonneg_r; lia). lia.
  - destruct (Z_lt_le_dec 100 p) as [Hq|Hq]; [|lia].
    exfalso. assert (101 * T <= p * T) by (apply Z.mul_le_mono_nonneg_r; lia). lia.
Qed.

Lemma nearest_total s n T :
  0 < T -> 0 <= n -> 2 * Z.abs (s * T - 100 * T) <= n * T -> 2 * Z.abs (s - 100) <= n.
Proof.
  intros HT Hn H.
  destruct (Z_lt_le_dec n (2 * Z.abs (s - 100))) as [Hlt|Hle]; [|done]. exfalso.
  assert (Habs : Z.abs (s * T - 100 * T) = Z.abs (s - 100) * T).
  { replace (s * T - 100 * T) with ((s - 100) * T) by ring.
    rewrite Z.abs_mul. f_equal. lia. }
  rewrite Habs in H.
  assert ((n + 1) * T <= 2 * Z.abs (s - 100) * T)
    by (apply Z.mul_le_mono_nonneg_r; lia).
  lia.
Qed.

(** The whole numbers shown for a list of counts, with the error of their
    sum. *)
Lemma percentages_sum (cs : list Z) (T : Z) :
  0 < T <= 2 ^ 44 -> Forall (fun c => 0 <= c <= T) cs ->
  exists ps,
    Forall2 (fun c p => F64.round0 (percentage c T) = F64.ShInt false p) cs ps
    /\ 2 * Z.abs (GoInt.zsum ps * T - 100 * GoInt.zsum cs) <= Z.of_nat (length cs) * T.
Proof.
  intros HT Hall. induction Hall as [|c cs Hc _ (ps & Hps & Hsum)].
  - exists []. split; [constructor | simpl; lia].
  - destruct (percentage_nearest c T Hc HT) as (p & Hp & Hn).
    exists (p :: ps). split; [by constructor|].
    change (GoInt.zsum (p :: ps)) with (p + GoInt.zsum ps).
    change (GoInt.zsum (c :: cs)) with (c + GoInt.zsum cs).
    cbn [length]. rewrite Nat2Z.inj_succ.
    set (s := GoInt.zsum ps) in *. set (t := GoInt.zsum cs) in *.
    set (n := Z.of_nat (length cs)) in *. clearbody s t n. clear -Hn Hsum. lia.
Qed.
End PercentFacts.

(** X8.  For counts between zero and a total of at most [2^44], the whole
    number of percent shown lies between 0 and 100 and does not decrease
    with the count: down the table, where the totals do not increase, the
    percentages do not increase.  A count equal to the total shows 100, a
    count of zero shows 0. *)
Theorem percentages_follow_the_counts (c1 c2 T : Z) :
  0 <= c1 <= c2 -> c2 <= T -> 0 < T <= 2 ^ 44 ->
  exists p1 p2,
    F64.round0 (percentage c1 T) = F64.ShInt false p1
    /\ F64.round0 (percentage c2 T) = F64.ShInt false p2
    /\ 0 <= p1 /\ p1 <= p2 /\ p2 <= 100
    /\ (c1 = 0 -> p1 = 0)
    /\ (c2 = T -> p2 = 100).
Proof.
  intros Hc1 Hc2 HT.
  destruct (percentage_nearest c1 T ltac:(lia) HT) as (p1 & Hp1 & Hn1).
  destruct (percentage_nearest c2 T ltac:(lia) HT) as (p2 & Hp2 & Hn2).
  exists p1, p2. split; [done|]. split; [done|].
  pose proof (nearest_bounds p1 c1 T ltac:(lia) ltac:(lia) Hn1) as Hb1.
  pose proof (nearest_bounds p2 c2 T ltac:(lia) ltac:(lia) Hn2) as Hb2.
  split; [lia|]. split; [|split; [lia|split]].
  - destruct (Z.eq_dec c1 c2) as [->|Hne].
    + rewrite Hp1 in Hp2. injection Hp2 as ->. lia.
    + apply (nearest_mono p1 p2 c1 c2 T); lia.
  - intros ->.
    destruct (Z_lt_le_dec 0 p1) as [Hp|Hp]; [|lia]. exfalso.
    assert (1 * T <= p1 * T) by (apply Z.mul_le_mono_nonneg_r; lia). lia.
  - intros ->. apply (nearest_all p2 T); lia.
Qed.

Lemma percentages_follow_the_counts_witness :
  exists p1 p2,
    F64.round0 (percentage 2 16) = F64.ShInt false p1
    /\ F64.round0 (percentage 14 16) = F64.ShInt false p2
    /\ 0 <= p1 /\ p1 <= p2 /\ p2 <= 100.
Proof.
  destruct (percentages_follow_the_counts 2 14 16) as (p1 & p2 & H1 & H2 & H3 & H4 & H5 & _).
  - lia.
  - lia.
  - split; [lia|]. vm_compute. discriminate.
  - exists p1, p2. repeat split; assumption.
Defined.

(** X9.  When no total is negative, their sum is at most [2^44] and the
    grand total is not zero, the percentages of the rows of a report add up
    to 100 within half a point for each row. *)
Theorem percentages_add_up_to_100 (out : list directory.t) :
  (forall d, d ∈ out -> 0 <= directory.changes d) ->
  GoInt.zsum (map directory.changes (ranked out)) <= 2 ^ 44 ->
  totalChanges out ≠ 0 ->
  exists ps,
    Forall2 (fun d p =>
               F64.round0 (percentage (directory.changes d) (totalChanges out))
               = F64.ShInt false p) (ranked out) ps
    /\ 2 * Z.abs (GoInt.zsum ps - 100) <= Z.of_nat (length (ranked out)).
Proof.
  intros Hnn Hsum Hne.
  assert (Hall : Forall (fun y => 0 <= y) (map directory.changes (ranked out))).
  { apply Forall_forall. intros y (d & -> & Hd)%list_elem_of_fmap.
    apply Hnn. by apply ranked_elem_of in Hd as [? _]. }
  pose proof (zsum_nonneg _ Hall) as H0.
  assert (HT : totalChanges out = GoInt.zsum (map directory.changes (ranked out))).
  { rewrite totalChanges_ranked. apply wrap_small, in_range_small. lia. }
  assert (Hcs : Forall (fun c => 0 <= c <= totalChanges out)
                       (map directory.changes (ranked out))).
  { apply Forall_forall. intros c Hc. split.
    - by apply (proj1 (Forall_forall _ _) Hall).
    - rewrite HT. by apply zsum_elem_le. }
  destruct (percentages_sum _ (totalChanges out) ltac:(lia) Hcs) as (ps & Hps & Hs).
  exists ps. split.
  - by apply Forall2_fmap_l in Hps.
  - rewrite length_map, <- HT in Hs.
    apply (nearest_total _ _ (totalChanges out)); [lia | lia | exact Hs].
Qed.

Lemma percentages_add_up_to_100_witness :
  exists ps,
    Forall2 (fun d p =>
               F64.round0 (percentage (directory.changes d)
                             (totalChanges [Scenario.resultC; Scenario.resultA]))
               = F64.ShInt false p)
            (ranked [Scenario.resultC; Scenario.resultA]) ps
    /\ 2 * Z.abs (GoInt.zsum ps - 100)
       <= Z.of_nat (length (ranked [Scenario.resultC; Scenario.resultA])).
Proof.
  apply (percentages_add_up_to_100 [Scenario.resultC; Scenario.resultA]).
  - intros d Hd.
    apply elem_of_cons in Hd as [->|Hd]; [|apply list_elem_of_singleton in Hd as ->];
      simpl; lia.
  - vm_compute. discriminate.
  - vm_compute. discriminate.
Defined.

(** ** Failures of the walk *)

Section WalkFailure.
Implicit Types (d : Entry) (sent : list directory.t) (path : string).

Lemma walk_firstFailure d : forall path sent,
  match firstFailure d with
  | Some e => exists sent', walkDir visit path d sent = (sent', Some (Failed e))
  | None => walkDir visit path d sent = (sent ++ roots path d, None)
  end.
Proof.
  induction d as [name|name [e|repo] entries readErr IH] using Entry_ind;
    intros path sent.
  - cbn [firstFailure]. rewrite walk_File. by rewrite app_nil_r.
  - cbn [firstFailure].
    destruct (errors_Is e ErrRepositoryNotExists) eqn:He;
      [|rewrite walk_open_failed by done; eauto].
    destruct readErr as [re|]; [rewrite walk_read_failed by done; eauto|].
    rewrite walk_descend by done. cbn [roots]. clear He. revert sent.
    induction IH as [|d1 rest H1 _ IHrest]; intros sent.
    + simpl. by rewrite app_nil_r.
    + rewrite walkEntries_cons.
      specialize (H1 (Join2 path (entryName d1)) sent).
      destruct (firstFailure d1) as [e1|].
      * destruct H1 as (s1 & ->). eauto.
      * rewrite H1. specialize (IHrest (sent ++ roots (Join2 path (entryName d1)) d1)).
        destruct ((fix first (ds : list Entry) : option error := _) rest) as [e2|].
        -- exact IHrest.
        -- rewrite IHrest. cbn [map concat]. by rewrite app_assoc.
  - cbn [firstFailure]. by rewrite walk_root.
Qed.
End WalkFailure.

(** X10.  The discovery goroutine ends the process in [log.Fatal], with
    status 1, exactly when the walk meets a failure, and the diagnostic is
    the error met first in the order of the walk; a root that cannot be
    examined ([os.Lstat] fails) is such a failure, and what lies inside a
    repository root never is.  Otherwise it sends the outermost repository
    roots, in the order of the walk. *)
Theorem first_walk_failure_is_fatal (env : Env) (fl : Flags) :
  (forall d,
      discover env fl (inr d)
      = match firstFailure d with
        | Some e => Exit 1 (logLine env (Error e))
        | None => Done (roots (dir fl) d)
        end)
  /\ (forall e, discover env fl (inl e) = Exit 1 (logLine env (Error e)))
  /\ (forall d, firstFailure d = None <-> walkable d = true)
  /\ (forall d, firstFailure (prune d) = firstFailure d).
Proof.
  assert (Hd : forall d,
      discover env fl (inr d)
      = match firstFailure d with
        | Some e => Exit 1 (logLine env (Error e))
        | None => Done (roots (dir fl) d)
        end).
  { intros d. unfold discover, WalkDir.
    pose proof (walk_firstFailure d (dir fl) []) as H.
    destruct (firstFailure d) as [e|]; [by destruct H as (s1 & ->)|by rewrite H]. }
  assert (Hprune : forall d, firstFailure (prune d) = firstFailure d).
  { intros d.
    pose proof (walk_firstFailure d (dir fl) []) as H.
    pose proof (walk_firstFailure (prune d) (dir fl) []) as H'.
    rewrite walk_prune in H'.
    destruct (firstFailure d) as [e|], (firstFailure (prune d)) as [e'|].
    - destruct H as (s1 & H), H' as (s2 & H'). congruence.
    - destruct H as (s1 & H). congruence.
    - destruct H' as (s1 & H'). congruence.
    - reflexivity. }
  split; [exact Hd|]. split; [reflexivity|]. split.
  - intros d. pose proof (Hd d) as H. split.
    + intros Hn. destruct (walkable d) eqn:Hw; [done|].
      destruct (discover_unwalkable env fl d Hw) as [e He].
      rewrite Hn in H. congruence.
    + intros Hw. rewrite discover_walkable in H by done.
      by destruct (firstFailure d).
  - exact Hprune.
Qed.

(** ** From the tree to the table *)

Section EndToEnd.
Variables (ord : MapOrder) (env : Env) (fl : Flags).
Implicit Types (u d : directory.t) (units out : list directory.t).

Lemma active_spec cutoff author repo :
  active cutoff author repo = true
  <-> exists c s, c ∈ qualifying cutoff author repo /\ s ∈ statsOf c /\ Name s ≠ "".
Proof.
  unfold active. rewrite bool_decide_eq_true, Exists_exists. split.
  - intros (c & Hc & (s & Hs & Hn)%Exists_exists). eauto.
  - intros (c & s & Hc & Hs & Hn). exists c. split; [done|].
    apply Exists_exists. eauto.
Qed.

(** The value sent for a unit for which nothing fails. *)
Lemma worker_readable path repo :
  readable env fl (unit path repo) ->
  exists sent,
    worker ord env fl (unit path repo) = ([], Done sent)
    /\ directory.path sent = path
    /\ kept sent = active (Now env - since fl) (author fl)
                          (synced env fl (unit path repo)).
Proof.
  intros (Hpull & Hlog & Hstats). unfold synced in *. cbn [unit directory.repo] in *.
  destruct (afterPull env (pull fl) repo) as [repo' perr] eqn:E. simpl in *. subst perr.
  destruct (parseRepoLogs_files ord env repo (pull fl) (author fl) (since fl) repo'
              E Hlog Hstats) as (files & Hrun & Hfiles).
  exists (sentFor (unit path repo) files).
  split; [by apply worker_parsed|]. split; [done|].
  apply eq_true_iff_eq. rewrite kept_files, active_spec. cbn [sentFor directory.files].
  split.
  - intros Hne. destruct files as [|a files]; [done|].
    destruct (proj1 (Hfiles a) ltac:(left)) as (v & Hv & _).
    apply countOf_Some in Hv as (Hn & Hf & _).
    destruct (filter _ (concat _)) as [|s l] eqn:Es; [done|].
    assert (Hs : s ∈ filter (fun s => Name s = file.path a)
                   (concat (map statsOf
                      (qualifying (Now env - since fl) (author fl) repo'))))
      by (rewrite Es; left).
    apply list_elem_of_filter in Hs as [Hsn Hs].
    apply elem_of_concat in Hs as (l' & Hs & Hl').
    apply list_elem_of_fmap in Hl' as (c & -> & Hc).
    exists c, s. repeat split; try done. congruence.
  - intros (c & s & Hc & Hs & Hn) Hnil. subst files.
    set (L := concat (map statsOf (qualifying (Now env - since fl) (author fl) repo'))).
    set (T := tagged AuthorName (qualifying (Now env - since fl) (author fl) repo')).
    set (v := GoInt.wrap (GoInt.zsum (amounts (filter (fun s' => Name s' = Name s) L)))).
    assert (Hin : file.mk (Name s) v (uniq (valuesFor (Name s) T)) ∈ @nil file.t).
    { apply Hfiles. exists v. split; [|done]. cbn [file.path].
      apply countOf_Some. split; [done|]. split; [|done].
      assert (Hin : s ∈ filter (fun s' => Name s' = Name s) L).
      { apply list_elem_of_filter. split; [done|].
        apply elem_of_concat. exists (statsOf c). split; [done|].
        apply list_elem_of_fmap. eauto. }
      intros Hnil. fold L in Hnil. rewrite Hnil in Hin. inversion Hin. }
    inversion Hin.
Qed.




End EndToEnd.

(** X11.  When nothing fails for a repository, the value that the worker
    sends is kept by [reportResults], and so has a row, exactly when the
    repository has activity: a qualifying commit with a statistics entry
    that has a path. *)
Theorem directory_has_a_row_iff_active
    (ord : MapOrder) (env : Env) (fl : Flags) (path : string) (repo : Repository) :
  readable env fl (unit path repo) ->
  exists sent,
    worker ord env fl (unit path repo) = ([], Done sent)
    /\ directory.path sent = path
    /\ (kept sent = true <->
        exists c s,
          c ∈ qualifying (Now env - since fl) (author fl)
                (synced env fl (unit path repo))
          /\ s ∈ statsOf c /\ Name s ≠ "")
    /\ (forall out1 out2,
          if kept sent
          then exists r, r ∈ reportResults (out1 ++ sent :: out2) /\ DIRECTORY r = path
          else reportResults (out1 ++ sent :: out2) = reportResults (out1 ++ out2)).
Proof.
  intros Hr. destruct (worker_readable ord env fl path repo Hr) as (sent & Hrun & Hp & Hk).
  exists sent. split; [done|]. split; [done|]. split.
  - by rewrite Hk, active_spec.
  - intros out1 out2. destruct (kept sent) eqn:Hkept.
    + exists (row (totalChanges (out1 ++ sent :: out2)) sent).
      split; [|done]. unfold reportResults. right.
      apply list_elem_of_fmap. exists sent. split; [done|].
      apply ranked_elem_of. split; [|by apply kept_files].
      apply elem_of_app. right. left.
    + apply reportResults_drop.
      destruct (directory.files sent) eqn:Ef; [done|].
      unfold kept in Hkept. by rewrite Ef in Hkept.
Qed.

Lemma directory_has_a_row_iff_active_witness :
  exists sent,
    worker keyOrder Scenario.env (Scenario.flags false) (unit "/work/R" Scenario.repoR)
    = ([], Done sent)
    /\ directory.path sent = "/work/R".
Proof.
  destruct (directory_has_a_row_iff_active keyOrder Scenario.env (Scenario.flags false)
              "/work/R" Scenario.repoR) as (sent & Hrun & Hp & _).
  - split; [reflexivity|]. split; [reflexivity|].
    intros c Hc. apply list_elem_of_filter in Hc as [_ Hc].
    apply list_elem_of_singleton in Hc as ->. eexists; reflexivity.
  - exists sent. split; [exact Hrun | exact Hp].
Defined.



(** * The runs of the goroutines *)

Section PoolRuns.
Variables (ord : MapOrder) (env : Env) (fl : Flags).
Implicit Types (u d : directory.t) (st : Pool.state) (ws pre post : list Pool.slot).

Lemma sends_Done u lines d :
  worker ord env fl u = (lines, Done d) -> sends ord env fl u = Some d.
Proof. intros H. unfold sends. by rewrite H. Qed.

Lemma sends_Exit u lines s x :
  worker ord env fl u = (lines, Exit s x) -> sends ord env fl u = None.
Proof. intros H. unfold sends. by rewrite H. Qed.


Lemma sends_None u :
  sends ord env fl u = None -> exists diagnostic, worker ord env fl u = ([], Exit 1 diagnostic).
Proof.
  unfold sends. destruct (worker ord env fl u) as [lines [d'|s x]] eqn:E; simpl; [done|].
  intros _. apply worker_Exit in E as E'. destruct E' as [-> ->]. eauto.
Qed.

Lemma busies_Idle pre post : busies (pre ++ Pool.Idle :: post) = busies pre ++ busies post.
Proof. unfold busies. by rewrite omap_app. Qed.

Lemma busies_Busy pre u post :
  busies (pre ++ Pool.Busy u :: post) = busies pre ++ u :: busies post.
Proof. unfold busies. by rewrite omap_app. Qed.

Lemma busies_Ready pre d post :
  busies (pre ++ Pool.Ready d :: post) = busies pre ++ busies post.
Proof. unfold busies. by rewrite omap_app. Qed.

Lemma readies_Idle pre post : readies (pre ++ Pool.Idle :: post) = readies pre ++ readies post.
Proof. unfold readies. by rewrite omap_app. Qed.

Lemma readies_Busy pre u post :
  readies (pre ++ Pool.Busy u :: post) = readies pre ++ readies post.
Proof. unfold readies. by rewrite omap_app. Qed.

Lemma readies_Ready pre d post :
  readies (pre ++ Pool.Ready d :: post) = readies pre ++ d :: readies post.
Proof. unfold readies. by rewrite omap_app. Qed.

Lemma all_Idle ws :
  Forall (fun w => w = Pool.Idle) ws -> busies ws = [] /\ readies ws = [].
Proof. induction 1 as [|w ws -> _ [IH1 IH2]]; [done|]. by split. Qed.

Lemma accounted_initial sent : accounted ord env fl sent (Pool.initial sent).
Proof.
  exists []. unfold Pool.initial. cbn [Pool.slots Pool.todo Pool.received Pool.logged].
  change (busies (replicate 10 Pool.Idle)) with (@nil directory.t).
  change (readies (replicate 10 Pool.Idle)) with (@nil directory.t).
  by repeat split.
Qed.

Lemma step_accounted sent st st' :
  Pool.step ord env fl st st' ->
  accounted ord env fl sent st -> accounted ord env fl sent st'.
Proof.
  intros Hstep (fin & Hsent & Hfin & Hout & Hlog).
  destruct Hstep as [u rest pre post lg out
                    |u lines d rest pre post lg out Hw
                    |d rest pre post lg out];
    cbn [Pool.slots Pool.todo Pool.received Pool.logged] in *.
  - exists fin. cbn [Pool.slots Pool.todo Pool.received Pool.logged].
    rewrite busies_Busy, readies_Busy.
    rewrite busies_Idle in Hsent. rewrite readies_Idle in Hout.
    repeat split; try done.
    rewrite Hsent. shuffle.
  - exists (u :: fin). cbn [Pool.slots Pool.todo Pool.received Pool.logged].
    rewrite busies_Ready, readies_Ready.
    rewrite busies_Busy in Hsent. rewrite readies_Busy in Hout.
    split; [|split; [|split]].
    + rewrite Hsent. shuffle.
    + constructor; [|done]. rewrite (sends_Done u lines d Hw). by eexists.
    + cbn [omap list_omap]. change (list_omap ?f ?l) with (omap f l).
      rewrite (sends_Done u lines d Hw), Hout. shuffle.
    + cbn [omap list_omap]. change (list_omap ?f ?l) with (omap f l).
      apply worker_Done in Hw as (_ & _ & -> & _).
      destruct (warning env fl u) as [w|]; cbn [option_list].
      * rewrite Hlog. apply Permutation_cons_append.
      * by rewrite app_nil_r.
  - exists fin. cbn [Pool.slots Pool.todo Pool.received Pool.logged].
    rewrite busies_Idle, readies_Idle.
    rewrite busies_Ready in Hsent. rewrite readies_Ready in Hout.
    repeat split; try done.
    rewrite Hout. shuffle.
Qed.

Lemma steps_accounted sent st :
  rtc (Pool.step ord env fl) (Pool.initial sent) st -> accounted ord env fl sent st.
Proof.
  intros H.
  apply (rtc_ind_r (R := Pool.step ord env fl)
           (fun st => accounted ord env fl sent st) (Pool.initial sent));
    [apply accounted_initial | | exact H].
  intros y z _ Hstep IH. by apply (step_accounted sent y).
Qed.

(** One worker does everything, one unit after the other. *)
Lemma sequential_steps walkErr post units : forall lg out,
  match workers ord env fl units with
  | (lines, Done outs) =>
      rtc (Pool.step ord env fl)
          (Pool.mk units (Pool.Idle :: post) lg out)
          (Pool.mk [] (Pool.Idle :: post) (lg ++ lines) (out ++ outs))
  | (lines, Exit s x) =>
      exists st,
        rtc (Pool.step ord env fl) (Pool.mk units (Pool.Idle :: post) lg out) st
        /\ Pool.ends ord env fl walkErr st (lg ++ lines, Exit s x)
  end.
Proof.
  induction units as [|u units IH]; intros lg out; cbn [workers].
  - rewrite !app_nil_r. apply rtc_refl.
  - destruct (worker ord env fl u) as [lines [d|s x]] eqn:Hw.
    + assert (Hthree : rtc (Pool.step ord env fl)
                (Pool.mk (u :: units) (Pool.Idle :: post) lg out)
                (Pool.mk units (Pool.Idle :: post) (lg ++ lines) (out ++ [d]))).
      { eapply rtc_l; [apply (Pool.take ord env fl u units [])|].
        eapply rtc_l; [apply (Pool.parse ord env fl u lines d units [] post lg out Hw)|].
        eapply rtc_l; [apply (Pool.send ord env fl d units [])|].
        apply rtc_refl. }
      specialize (IH (lg ++ lines) (out ++ [d])).
      destruct (workers ord env fl units) as [lines' [outs|s x]].
      * rewrite <- !app_assoc in IH. cbn [app] in IH.
        by eapply rtc_trans.
      * destruct IH as (st & Hsteps & Hends). exists st. split.
        -- by eapply rtc_trans.
        -- by rewrite <- app_assoc in Hends.
    + exists (Pool.mk units (Pool.Busy u :: post) lg out). split.
      * eapply rtc_l; [apply (Pool.take ord env fl u units [])|]. apply rtc_refl.
      * apply (Pool.workerFatal ord env fl walkErr u lines s x units [] post lg out Hw).
Qed.


End PoolRuns.



(** X20.  Whatever the interleaving of the goroutines, a run that ends in
    an exit ends with status 1, and its diagnostic is the error of the walk
    or the diagnostic of a worker whose unit cannot be parsed; the lines
    logged before are warnings of units of the walk, each at most once.
    When the walk fails, and when the worker of some unit of the walk
    exits, no run prints a table.  When the root cannot be examined, the
    one run logs nothing and exits on that error. *)
Theorem failure_ends_every_run
    (ord : MapOrder) (env : Env) (fl : Flags) (lstat : error + Entry) :
  let sent := (WalkDir visit (dir fl) lstat []).1 in
  let walkErr := (WalkDir visit (dir fl) lstat []).2 in
  (forall logged status diagnostic,
      Run ord env fl lstat (logged, Exit status diagnostic) ->
      status = 1
      /\ ((exists err, walkErr = Some err /\ diagnostic = logLine env (Error err))
          \/ (exists u, u ∈ sent /\ worker ord env fl u = ([], Exit 1 diagnostic)))
      /\ exists finished others,
           sent ≡ₚ finished ++ others
           /\ logged ≡ₚ omap (warning env fl) finished)
  /\ (forall r, is_Some walkErr -> Run ord env fl lstat r ->
        exists logged diagnostic, r = (logged, Exit 1 diagnostic))
  /\ (forall r u, u ∈ sent -> sends ord env fl u = None -> Run ord env fl lstat r ->
        exists logged diagnostic, r = (logged, Exit 1 diagnostic))
  /\ (forall e r, lstat = inl e -> Run ord env fl lstat r ->
        r = ([], Exit 1 (logLine env (Error e)))).
Proof.
  intros sent walkErr.
  assert (Hexit : forall logged status diagnostic,
      Run ord env fl lstat (logged, Exit status diagnostic) ->
      status = 1
      /\ ((exists err, walkErr = Some err /\ diagnostic = logLine env (Error err))
          \/ (exists u, u ∈ sent /\ worker ord env fl u = ([], Exit 1 diagnostic)))
      /\ exists finished others,
           sent ≡ₚ finished ++ others
           /\ logged ≡ₚ omap (warning env fl) finished).
  { intros logged status diagnostic (st & Hsteps & Hends).
    fold sent in Hsteps. fold walkErr in Hends.
    apply steps_accounted in Hsteps as (fin & Hsent & Hfin & Hout & Hlog).
    inversion Hends as [|err ws lg out Hw|u lines s x rest pre post lg out Hw]; subst;
      cbn [Pool.slots Pool.todo Pool.received Pool.logged] in *.
    - split; [done|]. split; [left; eauto|]. exists fin, (busies ws ++ []).
      split; [done | by rewrite Hlog].
    - apply worker_Exit in Hw as Hw'. destruct Hw' as [-> ->]. split; [done|].
      rewrite app_nil_r. split.
      + right. exists u. split; [|done]. rewrite Hsent, busies_Busy.
        rewrite !elem_of_app, elem_of_cons. tauto.
      + exists fin, (busies (pre ++ Pool.Busy u :: post) ++ rest).
        split; [done | by rewrite Hlog]. }
  assert (Hreport : forall logged table,
      Run ord env fl lstat (logged, Done table) ->
      walkErr = None /\ Forall (fun u => is_Some (sends ord env fl u)) sent).
  { intros logged table (st & Hsteps & Hends).
    fold sent in Hsteps. fold walkErr in Hends.
    apply steps_accounted in Hsteps as (fin & Hsent & Hfin & Hout & Hlog).
    inversion Hends as [ws lg out Hw Hidle| |]; subst.
    cbn [Pool.slots Pool.todo Pool.received Pool.logged] in *.
    destruct (all_Idle ws Hidle) as [Hb Hr]. rewrite Hb in Hsent.
    rewrite !app_nil_r in Hsent. split; [done|]. by rewrite Hsent. }
  split; [exact Hexit|]. split; [|split].
  - intros [logged [table|s x]] [err Herr] Hrun.
    + apply Hreport in Hrun as [Hnone _]. congruence.
    + apply Hexit in Hrun as (-> & _). eauto.
  - intros [logged [table|s x]] u Hu Hnone Hrun.
    + apply Hreport in Hrun as [_ Hall].
      rewrite Forall_forall in Hall. destruct (Hall u Hu) as [d Hd]. congruence.
    + apply Hexit in Hrun as (-> & _). eauto.
  - intros e [logged [table|s x]] -> Hrun.
    + apply Hreport in Hrun as [Hnone _]. done.
    + apply Hexit in Hrun as (-> & [(err & Herr & ->)|(u & Hu & _)] & fin & others & Hs & Hl).
      * injection Herr as <-.
        unfold sent in Hs. cbn in Hs. symmetry in Hs.
        apply Permutation_nil_r in Hs. apply app_eq_nil in Hs as [-> _].
        apply Permutation_nil_r in Hl. by subst.
      * unfold sent in Hu. cbn in Hu. inversion Hu.
Qed.

(** X21.  Every input has a run.  When the walk completes, what [main]
    computes with the units taken in the order of the walk is one of the
    runs of the goroutines: the one in which one worker takes every unit,
    each finished before the next is taken. *)
Theorem sequential_schedule_is_a_run
    (ord : MapOrder) (env : Env) (fl : Flags) (lstat : error + Entry) :
  (exists r, Run ord env fl lstat r)
  /\ ((WalkDir visit (dir fl) lstat []).2 = None ->
      Run ord env fl lstat (main ord env fl lstat id)).
Proof.
  unfold Run, main, discover.
  destruct (WalkDir visit (dir fl) lstat []) as [sent walkErr]. cbn [fst snd id].
  pose proof (sequential_steps ord env fl walkErr (replicate 9 Pool.Idle) sent [] [])
    as Hseq.
  change (Pool.mk sent (Pool.Idle :: replicate 9 Pool.Idle) [] [])
    with (Pool.initial sent) in Hseq.
  split.
  - destruct (workers ord env fl sent) as [lines [outs|s x]].
    + destruct walkErr as [err|].
      * eexists. eexists. split; [exact Hseq|]. by apply Pool.walkFatal.
      * eexists. eexists. split; [exact Hseq|]. apply Pool.report; [done|].
        repeat constructor.
    + destruct Hseq as (st & Hsteps & Hends). eauto.
  - intros ->. destruct (workers ord env fl sent) as [lines [outs|s x]].
    + eexists. split; [exact Hseq|]. apply Pool.report; [done|]. repeat constructor.
    + exact Hseq.
Qed.



(** * The first revision *)

Section KeySort.
Context {A : Type}.
Variable key : A -> Z.

Local Abbreviation keyLess := (Reverse (fun a b : A => key a <? key b)).
Local Abbreviation keyUp := (fun a b : A => key a <= key b).
Local Abbreviation keyDown := (fun a b : A => key b <= key a).

Lemma settle_sorted_key v before :
  StronglySorted keyUp before -> StronglySorted keyUp (settle keyLess v before).
Proof.
  induction 1 as [|u rest Hrest IH Hu]; [repeat constructor|].
  cbn [settle]. unfold Reverse at 1.
  destruct (Z.ltb_spec (key u) (key v)).
  - constructor; [exact IH|].
    rewrite settle_perm. constructor; [lia | exact Hu].
  - constructor; [by constructor|].
    constructor; [lia|]. eapply Forall_impl; [exact Hu|]. simpl. intros; lia.
Qed.

Lemma StronglySorted_rev_key l :
  StronglySorted keyUp l -> StronglySorted keyDown (rev l).
Proof.
  induction 1 as [|u rest Hrest IH Hu]; [constructor|]. cbn [rev].
  apply StronglySorted_app_2; [|exact IH | repeat constructor].
  intros x1 x2 Hx1 Hx2. apply list_elem_of_singleton in Hx2 as ->.
  rewrite <- Permutation_rev in Hx1.
  by apply (proj1 (Forall_forall _ _) Hu).
Qed.

Lemma insertionSort_sorted_key x :
  StronglySorted keyDown (insertionSort keyLess x).
Proof.
  rewrite insertionSort_settle. apply StronglySorted_rev_key.
  assert (H : StronglySorted keyUp (@nil A)) by constructor.
  revert H. generalize (@nil A) as acc.
  induction x as [|v l IH]; intros acc Hacc; [done|].
  cbn [foldl]. by apply IH, settle_sorted_key.
Qed.
End KeySort.

Section Rev1Facts.
Variables (ord : MapOrder) (env : Env).
Implicit Types (repo : Repository) (msg : string).

Lemma Split_LF_head msg :
  exists l ls, Split_LF msg = l :: ls
               /\ oneLine l = true /\ String.prefix l msg = true.
Proof.
  induction msg as [|c rest (l & ls & IH & Hl & Hp)]; simpl.
  - exists "", []. done.
  - destruct (Ascii.eqb c LF) eqn:Ec.
    + exists "", (Split_LF rest). done.
    + rewrite IH. exists (String c l), ls. split; [done|]. simpl. rewrite Ec.
      split; [done|]. by destruct (Ascii.ascii_dec c c).
Qed.

Lemma firstLine_oneLine msg :
  oneLine (firstLine msg) = true /\ String.prefix (firstLine msg) msg = true.
Proof.
  unfold firstLine. destruct (Split_LF_head msg) as (l & ls & -> & Hl & Hp). done.
Qed.

Lemma firstLine_whole msg : oneLine msg = true -> firstLine msg = msg.
Proof.
  unfold firstLine. intros H.
  assert (Hs : Split_LF msg = [msg]); [|by rewrite Hs].
  induction msg as [|c rest IH]; [done|]. simpl in *.
  apply andb_prop in H as [Hc Hr]. apply negb_true_iff in Hc.
  by rewrite Hc, IH.
Qed.

(** The second revision returns what the first returns, without the
    messages. *)
Lemma parseRepoLogs_forget repo pull author since :
  parseRepoLogs ord env repo pull author since
  = match Rev1.parseRepoLogs ord env repo pull author since with
    | Done (files, err) => Done (map forget files, err)
    | Exit s d => Exit s d
    end.
Proof.
  unfold parseRepoLogs, Rev1.parseRepoLogs.
  destruct (if pull then pullRepo env repo else (repo, None)) as [repo' [e|]]; [done|].
  destruct (Log repo' (Now env - since)) as [err|commits]; [done|].
  destruct (ForEach (eachCommit author) commits (mkMaps ∅ ∅ ∅)) as [[m [e|]]|s d];
    simpl; try done.
  rewrite map_map. do 2 f_equal. apply map_ext. by intros [f c].
Qed.

Lemma Rev1_parseRepoLogs_maps repo pull author since repo' :
  afterPull env pull repo = (repo', None) ->
  LogErr repo' = None ->
  (forall c, c ∈ qualifying (Now env - since) author repo' ->
             exists stats, Stats c = inr stats) ->
  exists m,
    Rev1.parseRepoLogs ord env repo pull author since
    = Done (map (fun '(f, c) =>
                   Rev1.file.mk f c (uniq (default [] (authorsPerFile m !! f)))
                                (uniq (default [] (msgsPerFile m !! f))))
                (rangeMap ord (changesPerFile m)), None)
    /\ counted (concat (map statsOf (qualifying (Now env - since) author repo'))) m
    /\ gathered (tagged AuthorName (qualifying (Now env - since) author repo'))
                (tagged (fun c => firstLine (Message c))
                        (qualifying (Now env - since) author repo')) m.
Proof.
  intros Hpull Hlog Hstats. unfold Rev1.parseRepoLogs.
  unfold afterPull in Hpull. rewrite Hpull.
  unfold Log. rewrite Hlog.
  destruct (ForEach_history env repo' author since Hstats) as (m & -> & Hc & Hg).
  exists m. done.
Qed.

Lemma Rev1_addFile_forget (files : list Rev1.file.t) (acc : Z * list string) :
  foldl Rev1.addFile acc files = foldl addFile acc (map forget files).
Proof. revert acc. induction files as [|f files IH]; intros acc; [done|]. apply IH. Qed.
End Rev1Facts.

(** X14.  The two revisions of [parseRepoLogs] agree: the second returns
    the aggregates of the first without their messages, in the same order,
    and the same error; so do the workers, the second sending the result of
    the first with its total and its authors added up, and logging and
    exiting as the first does. *)
Theorem revisions_agree_on_the_aggregates
    (ord : MapOrder) (env : Env) (fl : Rev1.Flags) (path : string) (repo : Repository) :
  parseRepoLogs ord env repo (Rev1.pull fl) (Rev1.author fl) (Rev1.since fl)
  = match Rev1.parseRepoLogs ord env repo (Rev1.pull fl) (Rev1.author fl) (Rev1.since fl)
    with
    | Done (files, err) => Done (map forget files, err)
    | Exit s d => Exit s d
    end
  /\ worker ord env (sharedFlags fl) (unit path repo)
     = match Rev1.worker ord env fl (Rev1.directory.mk path repo []) with
       | (logged, Done d) => (logged, Done (aggregate d))
       | (logged, Exit s d) => (logged, Exit s d)
       end.
Proof.
  split; [apply parseRepoLogs_forget|].
  unfold worker, Rev1.worker, aggregate, sentFor.
  cbn [sharedFlags pull author since unit directory.repo directory.path
       directory.changes directory.authors Rev1.directory.repo Rev1.directory.path].
  rewrite parseRepoLogs_forget.
  destruct (Rev1.parseRepoLogs ord env repo (Rev1.pull fl) (Rev1.author fl)
              (Rev1.since fl)) as [[files [[e|e]|]]|s d]; try done.
  - cbn [Rev1.directory.files Rev1.directory.path Rev1.directory.repo].
    by destruct (foldl addFile (0, []) (map forget files)).
  - cbn [Rev1.directory.files Rev1.directory.path Rev1.directory.repo].
    by destruct (foldl addFile (0, []) (map forget files)).
Qed.

(** X15.  When nothing fails, the messages of each aggregate of the first
    revision are the first lines of the messages of the qualifying commits,
    taken once for every statistics entry that names the file, in the order
    of the history, each kept once: none has a line feed, each begins the
    message of such a commit, and the list is not empty. *)
Theorem messages_are_the_first_lines
    (ord : MapOrder) (env : Env) (repo repo' : Repository)
    (pull : bool) (author : string) (since : Z) :
  afterPull env pull repo = (repo', None) ->
  LogErr repo' = None ->
  (forall c, c ∈ qualifying (Now env - since) author repo' ->
             exists stats, Stats c = inr stats) ->
  exists files,
    Rev1.parseRepoLogs ord env repo pull author since = Done (files, None)
    /\ forall a, a ∈ files ->
         Rev1.file.messages a
         = uniq (valuesFor (Rev1.file.path a)
                   (tagged (fun c => firstLine (Message c))
                           (qualifying (Now env - since) author repo')))
         /\ Rev1.file.messages a ≠ []
         /\ NoDup (Rev1.file.messages a)
         /\ forall m, m ∈ Rev1.file.messages a ->
              oneLine m = true
              /\ exists c s, c ∈ qualifying (Now env - since) author repo'
                             /\ s ∈ statsOf c /\ Name s = Rev1.file.path a
                             /\ m = firstLine (Message c)
                             /\ String.prefix m (Message c) = true
                             /\ (oneLine (Message c) = true -> m = Message c).
Proof.
  intros Hpull Hlog Hstats.
  destruct (Rev1_parseRepoLogs_maps ord env repo pull author since repo' Hpull Hlog Hstats)
    as (m & Hrun & Hcount & _ & Hmsgs).
  eexists. split; [exact Hrun|].
  intros a Ha. apply list_elem_of_fmap in Ha as ([f v] & -> & Hfv).
  cbn [Rev1.file.messages Rev1.file.path].
  apply rangeMap_elem_of in Hfv. rewrite (Hcount f) in Hfv.
  rewrite (collected_default _ _ f Hmsgs).
  split; [done|]. split; [|split; [apply uniq_NoDup|]].
  - intros Hnil.
    apply (valuesFor_touched (fun c => firstLine (Message c)) _ f v Hfv).
    destruct (valuesFor f _) as [|y l] eqn:E; [done|]. exfalso.
    assert (Hy : y ∈ uniq (y :: l)) by (apply uniq_elem_of; left).
    rewrite Hnil in Hy. inversion Hy.
  - intros msg Hm.
    apply uniq_elem_of, valuesFor_elem_of, tagged_elem_of in Hm
      as (c & s & Hc & Hs & Hn & <-).
    destruct (firstLine_oneLine (Message c)) as [H1 H2].
    split; [done|]. exists c, s. repeat split; try done.
    apply firstLine_whole.
Qed.

Lemma messages_are_the_first_lines_witness :
  exists files,
    Rev1.parseRepoLogs keyOrder Scenario.env Scenario.repoA false "" 100
    = Done (files, None)
    /\ forall a, a ∈ files -> NoDup (Rev1.file.messages a).
Proof.
  destruct (messages_are_the_first_lines keyOrder Scenario.env Scenario.repoA
              Scenario.repoA false "" 100 eq_refl eq_refl)
    as (files & Hrun & Hall).
  - intros c Hc. apply list_elem_of_filter in Hc as [_ Hc].
    unfold Scenario.repoA, history in Hc.
    repeat (apply elem_of_cons in Hc as [->|Hc]; [eexists; reflexivity|]).
    by apply elem_of_nil in Hc.
  - exists files. split; [exact Hrun|]. intros a Ha.
    exact (proj1 (proj2 (proj2 (Hall a Ha)))).
Defined.

(** X16.  [reportResults] of the first revision writes nothing for a
    directory without files.  Otherwise the first line shows the path, the
    total and the authors that the second revision shows in its row; under
    [-files] the files follow, each once, from the highest change count
    down, each followed under [-msgs] by its messages; without [-files]
    the flag [-msgs] changes nothing. *)
Theorem first_report_lists_the_files_downwards
    (fl : Rev1.Flags) (dir : Rev1.directory.t) :
  (Rev1.directory.files dir = [] -> Rev1.reportResults fl dir = [])
  /\ (Rev1.directory.files dir ≠ [] ->
      exists sorted,
        sorted ≡ₚ Rev1.directory.files dir
        /\ StronglySorted byCountDown sorted
        /\ Rev1.reportResults fl dir
           = Rev1.dirLine (Rev1.directory.path dir)
                          (directory.changes (aggregate dir))
                          (directory.authors (aggregate dir))
             :: (if Rev1.files fl
                 then concat (map (Rev1.fileBlock fl) sorted)
                 else []))
  /\ (forall fl', Rev1.files fl = false -> Rev1.files fl' = false ->
                  Rev1.reportResults fl' dir = Rev1.reportResults fl dir).
Proof.
  split; [|split].
  - intros H. unfold Rev1.reportResults. by rewrite H.
  - intros Hne.
    exists (insertionSort (Reverse Rev1.byCount_Less) (Rev1.directory.files dir)).
    split; [apply insertionSort_perm|].
    split; [apply (insertionSort_sorted_key Rev1.file.changes)|].
    unfold Rev1.reportResults, aggregate, sentFor.
    cbn [directory.changes directory.authors unit].
    rewrite <- Rev1_addFile_forget.
    destruct (Rev1.directory.files dir) as [|f files] eqn:Ef; [done|].
    cbn [length Nat.eqb]. by destruct (foldl Rev1.addFile (0, []) (f :: files)).
  - intros fl' H H'. unfold Rev1.reportResults. by rewrite H, H'.
Qed.

(** X18.  The first revision reports the results in the order of their
    arrival, without sorting them: what is written is what is written for
    each result in turn, a result without files adds nothing, and without
    [-files] there is one line for each result with files, in that
    order. *)
Theorem first_revision_reports_in_arrival_order
    (fl : Rev1.Flags) (out1 out2 : list Rev1.directory.t) :
  Rev1.report fl (out1 ++ out2) = Rev1.report fl out1 ++ Rev1.report fl out2
  /\ Rev1.report fl out1
     = Rev1.report fl (filter (fun d => hasFiles d = true) out1)
  /\ (Rev1.files fl = false ->
      Rev1.report fl out1 = map headLine (filter (fun d => hasFiles d = true) out1)).
Proof.
  assert (Hhead : forall d, hasFiles d = true ->
            Rev1.reportResults fl d
            = headLine d
              :: (if Rev1.files fl
                  then concat (map (Rev1.fileBlock fl)
                                 (insertionSort (Reverse Rev1.byCount_Less)
                                    (Rev1.directory.files d)))
                  else [])).
  { intros d Hd. unfold Rev1.reportResults, headLine, aggregate, sentFor, hasFiles in *.
    cbn [directory.changes directory.authors unit].
    rewrite <- Rev1_addFile_forget.
    destruct (length (Rev1.directory.files d) =? 0)%nat; [done|].
    by destruct (foldl Rev1.addFile (0, []) (Rev1.directory.files d)). }
  assert (Hnone : forall d, hasFiles d = false -> Rev1.reportResults fl d = []).
  { intros d Hd. unfold Rev1.reportResults, hasFiles in *.
    by destruct (length (Rev1.directory.files d) =? 0)%nat. }
  split; [|split].
  - unfold Rev1.report. by rewrite map_app, concat_app.
  - unfold Rev1.report. induction out1 as [|d out IH]; [done|].
    rewrite filter_cons. destruct (hasFiles d) eqn:Hd.
    + rewrite decide_True by done. cbn [map concat]. by rewrite IH.
    + rewrite decide_False by done. cbn [map concat]. by rewrite Hnone, IH.
  - intros Hf. unfold Rev1.report. induction out1 as [|d out IH]; [done|].
    rewrite filter_cons. destruct (hasFiles d) eqn:Hd.
    + rewrite decide_True by done. cbn [map concat].
      by rewrite Hhead, Hf, IH.
    + rewrite decide_False by done. cbn [map concat]. by rewrite Hnone, IH.
Qed.
